(** * svelte-svg-gen: icon naming, scanning, merging and aggregate emission

    A shallow embedding of the icon-set logic of [bin/generate-icons.js]
    (called the current script below) and of the second copy of the script
    kept in the repository (called the earlier script below; it carries the
    map-based merge of existing and newly generated icons and has no
    overwrite prompt).

    JavaScript strings are modelled by [string]: a sequence of code units.
    All regular expressions of the script are written without the [u] flag
    and so work unit by unit; every case conversion of the script whose
    result is used is applied to units of the ASCII range. *)

From Stdlib Require Import List String Ascii Bool Arith NArith Lia.
From Stdlib Require Import Permutation Sorted.
Import ListNotations.
Open Scope string_scope.

(** ** Code units and character classes *)

Definition code (c : ascii) : N := N_of_ascii c.

Definition inRange (lo hi : N) (c : ascii) : bool :=
  (lo <=? code c)%N && (code c <=? hi)%N.

(** [A-Z], [a-z], [0-9] *)
Definition isUpper (c : ascii) : bool := inRange 65 90 c.
Definition isLower (c : ascii) : bool := inRange 97 122 c.
Definition isDigit (c : ascii) : bool := inRange 48 57 c.

Definition isHyphen (c : ascii) : bool := Ascii.eqb c "-".
Definition isUnderscore (c : ascii) : bool := Ascii.eqb c "_".

(** the class [[a-zA-Z0-9_-]] *)
Definition isNameChar (c : ascii) : bool :=
  isLower c || isUpper c || isDigit c || isUnderscore c || isHyphen c.

(** the class [[-_]] *)
Definition isSeparator (c : ascii) : bool := isHyphen c || isUnderscore c.

Definition toLowerChar (c : ascii) : ascii :=
  if isUpper c then ascii_of_N (code c + 32) else c.

Definition toUpperChar (c : ascii) : ascii :=
  if isLower c then ascii_of_N (code c - 32) else c.

(** [s.toLowerCase()] *)
Fixpoint toLowerCase (s : string) : string :=
  match s with
  | EmptyString => EmptyString
  | String c s' => String (toLowerChar c) (toLowerCase s')
  end.

(** JavaScript truthiness of a string: [!s] holds for the empty string only. *)
Definition isEmpty (s : string) : bool :=
  match s with
  | EmptyString => true
  | String _ _ => false
  end.

(** ** Regular-expression steps of the script

    Each function is one [replace]/[split] call of the source, written as
    the scan the regular expression performs. *)

(** Whether the whole of [s] matches the literal [pat] under the [i] flag
    ([pat] is given in lower case). *)
Fixpoint matchesCI (pat s : string) : bool :=
  match pat, s with
  | EmptyString, EmptyString => true
  | String p pat', String c s' => Ascii.eqb (toLowerChar c) p && matchesCI pat' s'
  | _, _ => false
  end.

(** [s.replace(/<suffix>$/i, "")]: the leftmost position from which the rest
    of the input is the suffix; the match is removed. *)
Fixpoint stripSuffixCI (suffix s : string) : string :=
  match s with
  | EmptyString => EmptyString
  | String c s' =>
      if matchesCI suffix s then EmptyString
      else String c (stripSuffixCI suffix s')
  end.

(** [s.toLowerCase().endsWith(suffix)] for a lower-case ASCII [suffix]. *)
Fixpoint endsWithCI (suffix s : string) : bool :=
  matchesCI suffix s ||
  match s with
  | EmptyString => false
  | String _ s' => endsWithCI suffix s'
  end.

(** [s.replace(/[^a-zA-Z0-9_-]/g, "-")] *)
Fixpoint replaceInvalid (s : string) : string :=
  match s with
  | EmptyString => EmptyString
  | String c s' =>
      String (if isNameChar c then c else "-"%char) (replaceInvalid s')
  end.

(** [s.replace(/-{2,}/g, "-")]: a hyphen followed by a hyphen belongs to a
    run of two or more, of which one hyphen is kept. *)
Fixpoint collapseHyphens (s : string) : string :=
  match s with
  | EmptyString => EmptyString
  | String c s' =>
      if isHyphen c then
        match s' with
        | String c' _ =>
            if isHyphen c' then collapseHyphens s'
            else String c (collapseHyphens s')
        | EmptyString => String c EmptyString
        end
      else String c (collapseHyphens s')
  end.

Fixpoint allHyphens (s : string) : bool :=
  match s with
  | EmptyString => true
  | String c s' => isHyphen c && allHyphens s'
  end.

(** the alternative [^-+] of [/^-+|-+$/g] *)
Fixpoint trimStart (s : string) : string :=
  match s with
  | EmptyString => EmptyString
  | String c s' => if isHyphen c then trimStart s' else s
  end.

(** the alternative [-+$] of [/^-+|-+$/g] *)
Fixpoint trimEnd (s : string) : string :=
  match s with
  | EmptyString => EmptyString
  | String c s' =>
      if isHyphen c && allHyphens s' then EmptyString
      else String c (trimEnd s')
  end.

(** [s.replace(/^-+|-+$/g, "")] *)
Definition trimHyphens (s : string) : string := trimEnd (trimStart s).

(** [s.split(/[-_]/)] *)
Fixpoint split (s : string) : list string :=
  match s with
  | EmptyString => [EmptyString]
  | String c s' =>
      if isSeparator c then EmptyString :: split s'
      else
        match split s' with
        | part :: parts => String c part :: parts
        | [] => [String c EmptyString]
        end
  end.

(** [part.charAt(0).toUpperCase() + part.slice(1)] *)
Definition capitalize (part : string) : string :=
  match part with
  | EmptyString => EmptyString
  | String c rest => String (toUpperChar c) rest
  end.

(** [parts.join(sep)] *)
Definition join (sep : string) (parts : list string) : string :=
  String.concat sep parts.

(** ** Name resolver *)

Record IconIdentity : Type := mkIcon
  { baseName : string;
    componentName : string }.

Definition stripSvg (name : string) : string := stripSuffixCI ".svg" name.

Definition sanitizeName (name : string) : option IconIdentity :=
  let baseName :=
    toLowerCase
      (trimHyphens (collapseHyphens (replaceInvalid (stripSvg name)))) in
  if isEmpty baseName then None
  else
    let componentName := join "" (map capitalize (split baseName)) in
    Some {| baseName := baseName; componentName := componentName |}.

(** The replacer of [/([A-Z])/g] in [componentNameToBaseName]: every upper
    case letter becomes its lower case, preceded by a hyphen when its offset
    is positive. *)
Fixpoint hyphenateUpper (offset : nat) (s : string) : string :=
  match s with
  | EmptyString => EmptyString
  | String c s' =>
      let rest := hyphenateUpper (S offset) s' in
      if isUpper c then
        (if (0 <? offset)%nat then "-" else "") ++ String (toLowerChar c) rest
      else String c rest
  end.

(** [s.replace(/^-/, "")] *)
Definition dropLeadingHyphen (s : string) : string :=
  match s with
  | EmptyString => EmptyString
  | String c s' => if isHyphen c then s' else s
  end.

Definition componentNameToBaseName (componentName : string) : option string :=
  if isEmpty componentName then None
  else Some (dropLeadingHyphen (hyphenateUpper 0 componentName)).

(** ** Comparison functions and [Array.prototype.sort]

    [String.prototype.localeCompare] is the collation of the runtime (ICU,
    for the locale the process runs under); the script fixes none of its
    values.  What the language guarantees is that it is a consistent
    comparison function: the classes of equal strings are totally ordered.
    A [Collator] is any such function. *)

Definition notAfter (r : comparison) : bool :=
  match r with
  | Gt => false
  | _ => true
  end.

Record Collator : Type := mkCollator
  { localeCompare : string -> string -> comparison;
    localeCompare_sym :
      forall a b, localeCompare b a = CompOpp (localeCompare a b);
    localeCompare_trans :
      forall a b c,
        notAfter (localeCompare a b) = true ->
        notAfter (localeCompare b c) = true ->
        notAfter (localeCompare a c) = true }.

(** Comparison of two strings unit by unit, each unit weighed by [rank]. *)
Fixpoint compareUnits (rank : ascii -> N) (a b : string) : comparison :=
  match a, b with
  | EmptyString, EmptyString => Eq
  | EmptyString, String _ _ => Lt
  | String _ _, EmptyString => Gt
  | String x a', String y b' =>
      match (rank x ?= rank y)%N with
      | Eq => compareUnits rank a' b'
      | r => r
      end
  end.

(** The order of code units: what [<] on strings and the default
    [Array.prototype.sort()] use. *)
Definition ordinalCompare (a b : string) : comparison := compareUnits code a b.

(** The primary order of the CLDR root collation on the characters a base
    name is made of: low line, hyphen-minus, digits, letters.  Other units
    are ranked after them by their code; the table is exact on strings over
    [[a-z0-9_-]] only. *)
Definition rootRank (c : ascii) : N :=
  if isUnderscore c then 0
  else if isHyphen c then 1
  else if isDigit c then (code c - 46)%N
  else if isLower c then (code c - 85)%N
  else (code c + 38)%N.

Definition rootCompare (a b : string) : comparison := compareUnits rootRank a b.

Section Sorting.
Context {A : Type}.
(** [gt x y]: the comparison function returns a positive number. *)
Variable gt : A -> A -> bool.

Fixpoint insertSorted (x : A) (l : list A) : list A :=
  match l with
  | [] => [x]
  | y :: l' => if gt x y then y :: insertSorted x l' else x :: l
  end.

(** [array.sort(comparefn)]: the sort is stable, so for a consistent
    comparison function its result is the one of stable insertion. *)
Definition sortBy (l : list A) : list A := fold_right insertSorted [] l.
End Sorting.

Definition isAfter (r : comparison) : bool := negb (notAfter r).

(** [icons.sort((a, b) => a.baseName.localeCompare(b.baseName))] *)
Definition sortIcons (c : Collator) (icons : list IconIdentity)
  : list IconIdentity :=
  sortBy (fun a b => isAfter (localeCompare c (baseName a) (baseName b))) icons.

(** [names.sort()] without comparison function *)
Definition sortStrings (names : list string) : list string :=
  sortBy (fun a b => isAfter (ordinalCompare a b)) names.

(** ** [Set] and [Map], in insertion order *)

Definition setHas (x : string) (s : list string) : bool :=
  existsb (String.eqb x) s.

Definition setAdd (x : string) (s : list string) : list string :=
  if setHas x s then s else s ++ [x].

(** [[...new Set(values)]] *)
Definition newSet (values : list string) : list string :=
  fold_left (fun s x => setAdd x s) values [].

Section JsMap.
Context {V : Type}.

(** [map.set(key, value)]: an existing key keeps its place. *)
Fixpoint mapSet (key : string) (value : V) (m : list (string * V))
  : list (string * V) :=
  match m with
  | [] => [(key, value)]
  | (k, v) :: m' =>
      if String.eqb key k then (key, value) :: m'
      else (k, v) :: mapSet key value m'
  end.

Fixpoint mapGet (key : string) (m : list (string * V)) : option V :=
  match m with
  | [] => None
  | (k, v) :: m' => if String.eqb key k then Some v else mapGet key m'
  end.

Definition mapHas (key : string) (m : list (string * V)) : bool :=
  existsb (fun e => String.eqb key (fst e)) m.

(** [Array.from(map.values())] *)
Definition mapValues (m : list (string * V)) : list V := map snd m.

Definition mapKeys (m : list (string * V)) : list string := map fst m.
End JsMap.

(** ** Existing-set scanner *)

(** The body of the loop over the directory entries. *)
Definition scanEntry (existingIcons : list (string * IconIdentity))
  (file : string) : list (string * IconIdentity) :=
  if endsWithCI ".svelte" file then
    let componentName := stripSuffixCI ".svelte" file in
    match componentNameToBaseName componentName with
    | None => existingIcons
    | Some baseName =>
        if isEmpty baseName then existingIcons
        else if negb (isEmpty baseName) && negb (isEmpty componentName) then
          mapSet componentName (mkIcon baseName componentName) existingIcons
        else existingIcons
    end
  else existingIcons.

(** [getCurrentIconsFromComponents]; the argument is the listing of the
    components directory, [None] when the directory does not exist. *)
Definition getCurrentIconsFromComponents (listing : option (list string))
  : list IconIdentity :=
  match listing with
  | None => []
  | Some files => mapValues (fold_left scanEntry files [])
  end.

(** ** Output directory, sources and the environment of a run *)

(** The components directory: file name and content of each entry.
    Component names are made of letters and digits (lemma
    [sanitizeName_alphabet] below), so
    [path.join(iconsComponentDir, componentName + ".svelte")] names the
    entry [componentName ++ ".svelte"] of this directory. *)
Definition Directory : Type := list (string * string).

(** [fs.readdir] of fs-extra, which is the one of graceful-fs: the names
    are handed over after [files.sort()], in the order of code units. *)
Definition readdir (d : Directory) : list string := sortStrings (mapKeys d).

Definition pathExists (name : string) (d : Directory) : bool := mapHas name d.

Definition readFile (name : string) (d : Directory) : option string :=
  mapGet name d.

(** [fs.writeFile]: an existing entry is overwritten, a new one is added. *)
Definition writeFile (name content : string) (d : Directory) : Directory :=
  mapSet name content d.

(** The output directory: its components subdirectory ([None] while it does
    not exist), the type-definition file and the loader component. *)
Record FileSystem : Type := mkFileSystem
  { components : option Directory;
    typesFile : option string;
    loaderFile : option string }.

Definition listing (fs : FileSystem) : option (list string) :=
  option_map readdir (components fs).

Inductive SourceType : Type := FileSource | UrlSource | DirectSource.

(** A pending source: [{ type, origin, path | content, baseName,
    componentName }]; the two names are kept together as [identity]. *)
Record Source : Type := mkSource
  { type : SourceType;
    origin : string;
    payload : string;
    identity : IconIdentity }.

Definition outputSvelteName (source : Source) : string :=
  componentName (identity source) ++ ".svelte".

(** ** Resolving the inputs

    [fetchSvgContent] and [resolveInputSources] against what they ask of
    the network and of the disk. *)

Module Inputs.

(** An item of [argv.input].  The option is of type [array]: yargs leaves
    an item a string unless it looks like a number, which it hands over as
    a number; [written] is what stood on the command line. *)
Inductive InputValue : Type :=
| InputText (text : string)
| InputNumber (written : string).

(** [fs.Stats], as far as the script looks at it. *)
Record Stats : Type := mkStats
  { isFile : bool;
    isDirectory : bool }.

(** The calls that leave the script.  [None] is a call that throws. *)
Record World : Type := mkWorld
  { (** [fetch(url)] followed by [response.text()]; a response that is not
        [ok] throws as well *)
    fetchText : string -> option string;
    (** [path.basename(new URL(url).pathname)] *)
    urlBasename : string -> option string;
    (** [`graphic-${Date.now()}`] *)
    graphicNow : string;
    (** [path.resolve(cwd, input)] *)
    resolvePath : string -> string;
    (** [fs.pathExists] *)
    pathExists : string -> bool;
    (** [fs.stat] *)
    stat : string -> option Stats;
    (** [path.basename] *)
    basename : string -> string;
    (** [glob(path.join(dir, "**", "*.svg"), ...)] *)
    globSvg : string -> option (list string);
    (** [path.relative(cwd, file)] *)
    relative : string -> string }.

(** [s.startsWith(prefix)] *)
Definition startsWith (prefix s : string) : bool := String.prefix prefix s.

(** [fetchSvgContent]: [{ content, potentialName }], or [null] after an
    error. *)
Definition fetchSvgContent (w : World) (url : string)
  : option (string * string) :=
  match fetchText w url with
  | None => None
  | Some content =>
      match urlBasename w url with
      | None => None
      | Some name =>
          let potentialName := if isEmpty name then graphicNow w else name in
          Some (content, potentialName)
      end
  end.

(** [const names = sanitizeName(label); if (!names) continue;
    sources.push({ ..., baseName: names.baseName, componentName:
    names.componentName })] *)
Definition pushNamed (label : string) (source : IconIdentity -> Source)
  (sources : list Source) : list Source :=
  match sanitizeName label with
  | None => sources
  | Some names => sources ++ [source names]
  end.

(** The body of [for (const input of inputs)]. *)
Definition resolveInput (w : World) (sources : list Source) (input : string)
  : list Source :=
  if startsWith "http://" input || startsWith "https://" input then
    match fetchSvgContent w input with
    | Some (content, potentialName) =>
        if negb (isEmpty content) then
          pushNamed potentialName (mkSource UrlSource input content) sources
        else sources
    | None => sources
    end
  else
    let absolutePath := resolvePath w input in
    if negb (pathExists w absolutePath) then sources
    else
      match stat w absolutePath with
      | None => sources
      | Some stats =>
          if isFile stats && endsWithCI ".svg" absolutePath then
            pushNamed (basename w absolutePath)
              (mkSource FileSource input absolutePath) sources
          else if isDirectory stats then
            match globSvg w absolutePath with
            | None => sources
            | Some files =>
                fold_left
                  (fun sources file =>
                     pushNamed (basename w file)
                       (mkSource FileSource (relative w file) file) sources)
                  files sources
            end
          else sources
      end.

(** [for (const input of inputs)] from the sources pushed so far.  A
    number has no method [startsWith]: the call throws out of
    [resolveInputSources], which is [None]. *)
Fixpoint resolveInputs (w : World) (sources : list Source)
  (inputs : list InputValue) : option (list Source) :=
  match inputs with
  | [] => Some sources
  | InputText input :: rest => resolveInputs w (resolveInput w sources input) rest
  | InputNumber _ :: _ => None
  end.

Definition resolveInputSources (w : World) (inputs : list InputValue)
  : option (list Source) :=
  resolveInputs w [] inputs.

End Inputs.

(** What a run takes from outside the script: the collation of the runtime,
    the optimizer and the two templates, the disk and the network the
    inputs are resolved against, and the answers of the operator.  The
    prompts and the calls of the file system that [run] makes outside a
    [try] are taken to return. *)
Record Environment : Type := mkEnvironment
  { collator : Collator;
    (** reading, optimizing and rendering one source; [None] when it throws *)
    processSvgSource : Source -> option string;
    createSvgIconLoaderComponent : string;
    world : Inputs.World;
    (** the sources gathered by the prompts when no input is given *)
    interactiveSources : list Source;
    (** the answer to the one overwrite question *)
    overwriteAnswer : bool;
    (** whether creating the output directories throws *)
    prepareDirectoriesFails : bool }.

(** [argv] after [.parse()]: an option [--input] that is not given or has
    no item is the empty list. *)
Record Argv : Type := mkArgv
  { regenerate : bool;
    clean : bool;
    input : list Inputs.InputValue }.

Record Outcome : Type := mkOutcome
  { exitCode : nat;
    finalFs : FileSystem }.

Definition nl : string := String (ascii_of_nat 10) EmptyString.

Definition LOADER_NAME : string := "SvgIcon".
Definition TYPE_NAME : string := "SvgName".

(** [icons.map(icon => `  '${icon.baseName}': '${icon.componentName}',`)] *)
Definition iconMapLine (icon : IconIdentity) : string :=
  "  '" ++ baseName icon ++ "': '" ++ componentName icon ++ "',".

Definition iconMapContent (icons : list IconIdentity) : string :=
  join nl (map iconMapLine icons).

(** [[...new Set(icons.map((icon) => icon.baseName))].sort()] *)
Definition uniqueIconBaseNames (icons : list IconIdentity) : list string :=
  sortStrings (newSet (map baseName icons)).

(** The body of the type artifact after its two comment lines. *)
Definition typeBody (icons : list IconIdentity) : string :=
  nl ++ "export type " ++ TYPE_NAME ++ " = " ++ nl
  ++ "  | '" ++ join ("'" ++ nl ++ "  | '") (uniqueIconBaseNames icons) ++ "';"
  ++ nl ++ nl
  ++ "export const iconMap: Record<SvgName, string> = {" ++ nl
  ++ iconMapContent icons ++ nl ++ "};" ++ nl.

(** The variables of [run] that the loops over the sources and over the
    conflicts update, with the components directory they write to. *)
Record RunState : Type := mkRunState
  { dir : Directory;
    newlyGeneratedIcons : list IconIdentity;
    conflicts : list Source;
    successCount : nat;
    errorCount : nat;
    skipCount : nat;
    processedComponentNamesInRun : list string }.

Definition initialState (d : Directory) : RunState :=
  mkRunState d [] [] 0 0 0 [].

Definition countError (st : RunState) : RunState :=
  mkRunState (dir st) (newlyGeneratedIcons st) (conflicts st)
    (successCount st) (S (errorCount st)) (skipCount st)
    (processedComponentNamesInRun st).

Definition recordConflict (source : Source) (st : RunState) : RunState :=
  mkRunState (dir st) (newlyGeneratedIcons st) (conflicts st ++ [source])
    (successCount st) (errorCount st) (skipCount st)
    (processedComponentNamesInRun st).

Definition recordWritten (source : Source) (content : string) (st : RunState)
  : RunState :=
  mkRunState (writeFile (outputSvelteName source) content (dir st))
    (newlyGeneratedIcons st ++ [identity source]) (conflicts st)
    (S (successCount st)) (errorCount st) (skipCount st)
    (setAdd (componentName (identity source)) (processedComponentNamesInRun st)).

(** The [try { ... } catch] around rendering and writing one source, shared
    by both scripts and by both loops: render, write, record; a throw is
    counted as an error. *)
Definition generate (env : Environment) (source : Source) (st : RunState)
  : RunState :=
  match processSvgSource env source with
  | Some content => recordWritten source content st
  | None => countError st
  end.

(** ** The current script, [bin/generate-icons.js] *)

Module Current.

Definition SCRIPT_NAME : string := "svelte-svg-gen".

Definition typeContent (icons : list IconIdentity) : string :=
  "// Auto-generated by " ++ SCRIPT_NAME ++ nl
  ++ "// Run npx " ++ SCRIPT_NAME ++ " -r to regenerate." ++ nl
  ++ typeBody icons.

(** Writing the two aggregate files from the sorted icons. *)
Definition writeAggregates (env : Environment) (icons : list IconIdentity)
  (fs : FileSystem) : FileSystem :=
  mkFileSystem (components fs) (Some (typeContent icons))
    (Some (createSvgIconLoaderComponent env)).

Definition regenerateFilesFromComponents (env : Environment)
  (fs : FileSystem) : FileSystem :=
  let icons := getCurrentIconsFromComponents (listing fs) in
  if (List.length icons =? 0)%nat then fs
  else writeAggregates env (sortIcons (collator env) icons) fs.

(** The body of [for (const source of sourcesToProcess)]. *)
Definition processSource (env : Environment) (argvClean : bool)
  (st : RunState) (source : Source) : RunState :=
  if setHas (componentName (identity source))
       (processedComponentNamesInRun st)
  then countError st
  else
    let exists_ :=
      if negb argvClean then pathExists (outputSvelteName source) (dir st)
      else false in
    if exists_ then recordConflict source st
    else generate env source st.

(** The body of [for (const conflict of conflicts)]. *)
Definition overwriteConflict (env : Environment) (st : RunState)
  (source : Source) : RunState :=
  if setHas (componentName (identity source))
       (processedComponentNamesInRun st)
  then st
  else generate env source st.

Definition setSkipCount (n : nat) (st : RunState) : RunState :=
  mkRunState (dir st) (newlyGeneratedIcons st) (conflicts st)
    (successCount st) (errorCount st) n (processedComponentNamesInRun st).

(** [if (conflicts.length > 0) { ... }] *)
Definition handleConflicts (env : Environment) (st : RunState) : RunState :=
  if (0 <? List.length (conflicts st))%nat then
    if overwriteAnswer env then
      fold_left (overwriteConflict env) (conflicts st) st
    else setSkipCount (List.length (conflicts st)) st
  else st.

Definition processAll (env : Environment) (argvClean : bool)
  (sources : list Source) (d : Directory) : RunState :=
  handleConflicts env
    (fold_left (processSource env argvClean) sources (initialState d)).

(** The aggregate step at the end of [run]. *)
Definition aggregate (env : Environment) (fs : FileSystem) : FileSystem :=
  let componentsExist :=
    match components fs with
    | Some d => existsb (endsWithCI ".svelte") (readdir d)
    | None => false
    end in
  if negb componentsExist then fs
  else
    let finalComponentIcons := getCurrentIconsFromComponents (listing fs) in
    if (List.length finalComponentIcons =? 0)%nat then fs
    else writeAggregates env (sortIcons (collator env) finalComponentIcons) fs.

(** [fs.ensureDir] and, under [--clean], [fs.emptyDir] of the components
    subdirectory. *)
Definition prepareDirectories (argvClean : bool) (fs : FileSystem)
  : Directory :=
  if argvClean then []
  else
    match components fs with
    | Some d => d
    | None => []
    end.

Definition withComponents (d : Directory) (fs : FileSystem) : FileSystem :=
  mkFileSystem (Some d) (typesFile fs) (loaderFile fs).

(** [run], with the exit code of the process.  An exception that leaves
    [run] is caught by [run().catch], which ends the process with code 1;
    when [run] returns the process ends with code 0. *)
Definition run (env : Environment) (argv : Argv) (fs : FileSystem)
  : Outcome :=
  if regenerate argv && clean argv then mkOutcome 1 fs
  else if regenerate argv && (0 <? List.length (input argv))%nat then
    mkOutcome 1 fs
  else if regenerate argv then
    mkOutcome 0 (regenerateFilesFromComponents env fs)
  else
    let resolved :=
      if (0 <? List.length (input argv))%nat
      then Inputs.resolveInputSources (world env) (input argv)
      else Some (interactiveSources env) in
    match resolved with
    | None => mkOutcome 1 fs
    | Some sourcesToProcess =>
        let inputProvided := true in
        if (List.length sourcesToProcess =? 0)%nat && inputProvided then
          mkOutcome 0 fs
        else if negb inputProvided && negb (regenerate argv) then
          mkOutcome 1 fs
        else if prepareDirectoriesFails env then mkOutcome 1 fs
        else
          let st :=
            processAll env (clean argv) sourcesToProcess
              (prepareDirectories (clean argv) fs) in
          mkOutcome 0 (aggregate env (withComponents (dir st) fs))
    end.

End Current.

(** ** The earlier script: no overwrite prompt, map-based merge *)

Module Earlier.

Definition SCRIPT_NAME : string := "@xavialyra/svelte-svg-gen".

Definition typeContent (icons : list IconIdentity) : string :=
  "// Auto-generated by " ++ SCRIPT_NAME ++ nl
  ++ "//Run npx " ++ SCRIPT_NAME ++ " -r to regenerate." ++ nl
  ++ typeBody icons.

(** The body of [for (const source of sourcesToProcess)]: the target is
    written whether or not it exists. *)
Definition processSource (env : Environment) (st : RunState)
  (source : Source) : RunState :=
  if setHas (componentName (identity source))
       (processedComponentNamesInRun st)
  then countError st
  else generate env source st.

(** [allIconsMap]: the existing icons are set first, then the new ones. *)
Definition allIconsMap (existingIcons newlyGenerated : list IconIdentity)
  : list (string * IconIdentity) :=
  fold_left (fun m icon => mapSet (componentName icon) icon m)
    newlyGenerated
    (fold_left (fun m icon => mapSet (componentName icon) icon m)
       existingIcons []).

(** [allIcons] after [allIcons.sort(...)]. *)
Definition allIcons (c : Collator)
  (existingIcons newlyGenerated : list IconIdentity) : list IconIdentity :=
  sortIcons c (mapValues (allIconsMap existingIcons newlyGenerated)).

(** [f.endsWith(suffix)] *)
Fixpoint endsWith (suffix s : string) : bool :=
  String.eqb suffix s ||
  match s with
  | EmptyString => false
  | String _ s' => endsWith suffix s'
  end.

Definition aggregate (env : Environment) (argvClean : bool)
  (newlyGenerated : list IconIdentity) (fs : FileSystem) : FileSystem :=
  let componentsExist :=
    match components fs with
    | Some d => existsb (endsWith ".svelte") (readdir d)
    | None => false
    end in
  if (List.length newlyGenerated =? 0)%nat && negb componentsExist then fs
  else
    let existingIcons :=
      if negb argvClean then getCurrentIconsFromComponents (listing fs)
      else [] in
    let icons := allIcons (collator env) existingIcons newlyGenerated in
    if (List.length icons =? 0)%nat then fs
    else
      mkFileSystem (components fs) (Some (typeContent icons))
        (Some (createSvgIconLoaderComponent env)).

(** [regenerateFilesFromComponents] of the earlier script reads the
    identifier [allIcons], which is not bound in the function: the call
    throws once the directory holds a component.  [None] is the throw. *)
Definition regenerateFilesFromComponents (fs : FileSystem)
  : option FileSystem :=
  let icons := getCurrentIconsFromComponents (listing fs) in
  if (List.length icons =? 0)%nat then Some fs
  else None.

(** [argv] of the earlier script: the options of the current one and the
    string options [--svg] and [--name], each [None] when it is not given. *)
Record DirectArgv : Type := mkDirectArgv
  { options : Argv;
    svg : option string;
    name : option string }.

(** Truthiness of [argv.svg] and [argv.name]. *)
Definition given (option : option string) : bool :=
  match option with
  | Some text => negb (isEmpty text)
  | None => false
  end.

Definition textOf (option : option string) : string :=
  match option with
  | Some text => text
  | None => ""
  end.

(** The function passed to [.check]; [false] is a throw, on which yargs
    prints the message and ends the process with code 1. *)
Definition check (argv : DirectArgv) : bool :=
  if given (svg argv) && negb (given (name argv)) then false
  else if negb (given (svg argv)) && given (name argv) then false
  else true.

(** White space and line terminators among the units of the model: the
    units 9 to 13, the space and the no-break space. *)
Definition isWhiteSpace (c : ascii) : bool :=
  inRange 9 13 c || (code c =? 32)%N || (code c =? 160)%N.

Fixpoint allWhiteSpace (s : string) : bool :=
  match s with
  | EmptyString => true
  | String c s' => isWhiteSpace c && allWhiteSpace s'
  end.

Fixpoint trimWhiteStart (s : string) : string :=
  match s with
  | EmptyString => EmptyString
  | String c s' => if isWhiteSpace c then trimWhiteStart s' else s
  end.

Fixpoint trimWhiteEnd (s : string) : string :=
  match s with
  | EmptyString => EmptyString
  | String c s' =>
      if isWhiteSpace c && allWhiteSpace s' then EmptyString
      else String c (trimWhiteEnd s')
  end.

(** [s.trim()] *)
Definition trim (s : string) : string := trimWhiteEnd (trimWhiteStart s).

(** The branch [else if (argv.svg && argv.name)]: the one source, or
    [None] where the script calls [process.exit(1)]. *)
Definition directSource (content label : string) : option (list Source) :=
  match sanitizeName label with
  | None => None
  | Some names =>
      if negb (Inputs.startsWith "<svg" (trim content)) then None
      else Some [mkSource DirectSource ("--name " ++ label) content names]
  end.

(** The sources of a run that is not a regeneration; [None] is an exit
    with code 1, by [process.exit(1)] or by an exception. *)
Definition sourcesToProcess (env : Environment) (argv : DirectArgv)
  : option (list Source) :=
  if (0 <? List.length (input (options argv)))%nat then
    Inputs.resolveInputSources (world env) (input (options argv))
  else if given (svg argv) && given (name argv) then
    directSource (textOf (svg argv)) (textOf (name argv))
  else Some (interactiveSources env).

(** [run] of the earlier script, with the exit code of the process. *)
Definition run (env : Environment) (argv : DirectArgv) (fs : FileSystem)
  : Outcome :=
  let inputs := (0 <? List.length (input (options argv)))%nat in
  if negb (check argv) then mkOutcome 1 fs
  else if regenerate (options argv) && clean (options argv) then
    mkOutcome 1 fs
  else if regenerate (options argv) && (inputs || given (svg argv)) then
    mkOutcome 1 fs
  else if inputs && given (svg argv) then mkOutcome 1 fs
  else if regenerate (options argv) then
    match regenerateFilesFromComponents fs with
    | Some fs' => mkOutcome 0 fs'
    | None => mkOutcome 1 fs
    end
  else
    match sourcesToProcess env argv with
    | None => mkOutcome 1 fs
    | Some sources =>
        let inputProvided := true in
        if (List.length sources =? 0)%nat && inputProvided then mkOutcome 0 fs
        else if negb inputProvided && negb (regenerate (options argv)) then
          mkOutcome 1 fs
        else if prepareDirectoriesFails env then mkOutcome 1 fs
        else
          let st :=
            fold_left (processSource env) sources
              (initialState
                 (Current.prepareDirectories (clean (options argv)) fs)) in
          mkOutcome 0
            (aggregate env (clean (options argv)) (newlyGeneratedIcons st)
               (Current.withComponents (dir st) fs))
    end.

End Earlier.

(** ** The steps of the name resolver on lists of units

    The steps of [sanitizeName] as functions on lists of units, each a
    single pass; the proofs go through them. *)

Module Units.

Definition units (s : string) : list ascii := list_ascii_of_string s.
Definition text (l : list ascii) : string := string_of_list_ascii l.

Fixpoint dropWhile (p : ascii -> bool) (l : list ascii) : list ascii :=
  match l with
  | [] => []
  | c :: l' => if p c then dropWhile p l' else l
  end.

(** strip a trailing case-insensitive [.svg] suffix *)
Definition stripTrailingSvg (l : list ascii) : list ascii :=
  match rev l with
  | g :: v :: s :: d :: front =>
      if Ascii.eqb d "." && Ascii.eqb (toLowerChar s) "s"
         && Ascii.eqb (toLowerChar v) "v" && Ascii.eqb (toLowerChar g) "g"
      then rev front
      else l
  | _ => l
  end.

(** replace every character outside [[A-Za-z0-9_-]] with a hyphen *)
Definition replaceOutside (l : list ascii) : list ascii :=
  map (fun c => if isNameChar c then c else "-"%char) l.

(** collapse runs of hyphens to one: a hyphen that follows a hyphen goes *)
Fixpoint collapseRuns (afterHyphen : bool) (l : list ascii) : list ascii :=
  match l with
  | [] => []
  | c :: l' =>
      if isHyphen c && afterHyphen then collapseRuns true l'
      else c :: collapseRuns (isHyphen c) l'
  end.

(** trim leading and trailing hyphens *)
Definition trim (l : list ascii) : list ascii :=
  rev (dropWhile isHyphen (rev (dropWhile isHyphen l))).

(** lowercase the result *)
Definition lowercase (l : list ascii) : list ascii := map toLowerChar l.

Definition baseNameOf (rawLabel : string) : string :=
  text (lowercase (trim (collapseRuns false (replaceOutside
    (stripTrailingSvg (units rawLabel)))))).

(** split on hyphen and low line, upper-case the first character of each
    segment, concatenate without separators *)
Fixpoint pascalCase (segmentStart : bool) (l : list ascii) : list ascii :=
  match l with
  | [] => []
  | c :: l' =>
      if isSeparator c then pascalCase true l'
      else (if segmentStart then toUpperChar c else c) :: pascalCase false l'
  end.

Definition componentIdentifierOf (baseName : string) : string :=
  text (pascalCase true (units baseName)).

Definition deriveIdentity (rawLabel : string) : option IconIdentity :=
  let b := baseNameOf rawLabel in
  if String.eqb b "" then None
  else Some (mkIcon b (componentIdentifierOf b)).

End Units.

(** ** The name resolver as the specification words it

    [deriveIdentity] is written from the sentences of the specification,
    to be compared with [sanitizeName].  It shares nothing with the
    functions of the script: the alphabets are written out, the case of a
    letter is changed by its place in the alphabet, and the component
    identifier is built from the list of segments. *)

Module Spec.

Definition lowerCaseLetters : list ascii :=
  list_ascii_of_string "abcdefghijklmnopqrstuvwxyz".
Definition upperCaseLetters : list ascii :=
  list_ascii_of_string "ABCDEFGHIJKLMNOPQRSTUVWXYZ".
Definition digits : list ascii := list_ascii_of_string "0123456789".

Definition isOneOf (alphabet : list ascii) (c : ascii) : bool :=
  existsb (Ascii.eqb c) alphabet.

(** The unit at the place of [c] in [to], when [c] occurs in [from]. *)
Fixpoint translate (from to : list ascii) (c : ascii) : ascii :=
  match from, to with
  | f :: from', t :: to' => if Ascii.eqb c f then t else translate from' to' c
  | _, _ => c
  end.

Definition lowerCased (c : ascii) : ascii :=
  translate upperCaseLetters lowerCaseLetters c.
Definition upperCased (c : ascii) : ascii :=
  translate lowerCaseLetters upperCaseLetters c.

(** the characters [[A-Za-z0-9_-]] *)
Definition allowed (c : ascii) : bool :=
  isOneOf upperCaseLetters c || isOneOf lowerCaseLetters c
  || isOneOf digits c || Ascii.eqb c "_" || Ascii.eqb c "-".

Definition isHyphenMinus (c : ascii) : bool := Ascii.eqb c "-".

(** the separators of segments, [-] and [_] *)
Definition isSegmentSeparator (c : ascii) : bool :=
  Ascii.eqb c "-" || Ascii.eqb c "_".

Fixpoint dropLeading (p : ascii -> bool) (l : list ascii) : list ascii :=
  match l with
  | [] => []
  | c :: l' => if p c then dropLeading p l' else l
  end.

(** strip a trailing case-insensitive [.svg] suffix *)
Definition stripTrailingSvg (l : list ascii) : list ascii :=
  match rev l with
  | g :: v :: s :: dot :: front =>
      if Ascii.eqb dot "."
         && isOneOf (list_ascii_of_string "sS") s
         && isOneOf (list_ascii_of_string "vV") v
         && isOneOf (list_ascii_of_string "gG") g
      then rev front
      else l
  | _ => l
  end.

(** replace every character outside [[A-Za-z0-9_-]] with a hyphen *)
Definition replaceOutside (l : list ascii) : list ascii :=
  map (fun c => if allowed c then c else "-"%char) l.

(** collapse runs of hyphens to one: a hyphen that follows a hyphen goes *)
Fixpoint collapseRuns (afterHyphen : bool) (l : list ascii) : list ascii :=
  match l with
  | [] => []
  | c :: l' =>
      if isHyphenMinus c && afterHyphen then collapseRuns true l'
      else c :: collapseRuns (isHyphenMinus c) l'
  end.

(** trim leading and trailing hyphens *)
Definition trim (l : list ascii) : list ascii :=
  rev (dropLeading isHyphenMinus (rev (dropLeading isHyphenMinus l))).

(** lowercase the result *)
Definition lowercase (l : list ascii) : list ascii := map lowerCased l.

Definition baseNameOf (rawLabel : string) : string :=
  string_of_list_ascii
    (lowercase (trim (collapseRuns false (replaceOutside
       (stripTrailingSvg (list_ascii_of_string rawLabel)))))).

(** split on hyphen and low line *)
Fixpoint segments (l : list ascii) : list (list ascii) :=
  match l with
  | [] => [[]]
  | c :: l' =>
      if isSegmentSeparator c then [] :: segments l'
      else
        match segments l' with
        | segment :: rest => (c :: segment) :: rest
        | [] => [[c]]
        end
  end.

(** upper-case the first character of a segment *)
Definition capitalized (segment : list ascii) : list ascii :=
  match segment with
  | [] => []
  | c :: rest => upperCased c :: rest
  end.

(** concatenate the segments, no separators *)
Definition componentIdentifierOf (baseName : string) : string :=
  string_of_list_ascii
    (List.concat
       (map capitalized (segments (list_ascii_of_string baseName)))).

Definition deriveIdentity (rawLabel : string) : option IconIdentity :=
  let b := baseNameOf rawLabel in
  if String.eqb b "" then None
  else Some (mkIcon b (componentIdentifierOf b)).

End Spec.

(** ** Notions used in the statements and their proofs *)

Fixpoint forallChars (p : ascii -> bool) (s : string) : bool :=
  match s with
  | EmptyString => true
  | String c s' => p c && forallChars p s'
  end.

(** No two upper case letters stand next to each other. *)
Fixpoint noConsecutiveUpper (s : string) : bool :=
  match s with
  | String c ((String c' _) as s') =>
      negb (isUpper c && isUpper c') && noConsecutiveUpper s'
  | _ => true
  end.

Definition startsWithLetter (s : string) : bool :=
  match s with
  | EmptyString => false
  | String c _ => isLower c
  end.

(** The name has no low line, and every segment behind a hyphen begins with
    a letter. *)
Definition hyphenatedWords (s : string) : bool :=
  forallChars (fun c => negb (isUnderscore c)) s
  && forallb startsWithLetter (tl (split s)).

Definition startsWithHyphen (s : string) : bool :=
  match s with
  | EmptyString => false
  | String c _ => isHyphen c
  end.

(** No unit of the name is an upper case letter. *)
Definition noUpper (s : string) : bool :=
  forallChars (fun c => negb (isUpper c)) s.

(** Words behind the first one, each with its hyphen. *)
Fixpoint hyphenated (words : list string) : string :=
  match words with
  | [] => ""
  | w :: ws => "-" ++ w ++ hyphenated ws
  end.

(** The identity the scanner gives to a stem. *)
Definition scanned (stem : string) : IconIdentity :=
  mkIcon (dropLeadingHyphen (hyphenateUpper 0 stem)) stem.

(** The entries the scanner keeps: the suffix matches, the stem and the
    recovered base name are not empty. *)
Definition accepted (file : string) : bool :=
  endsWithCI ".svelte" file
  && negb (isEmpty (stripSuffixCI ".svelte" file))
  && negb (isEmpty (baseName (scanned (stripSuffixCI ".svelte" file)))).

(** The units in the order of [rootRank]. *)
Definition rootUnit (r : N) : ascii :=
  if (r =? 0)%N then "_"%char
  else if (r =? 1)%N then "-"%char
  else if (r <=? 11)%N then ascii_of_N (r + 46)
  else if (r <=? 37)%N then ascii_of_N (r + 85)
  else ascii_of_N (r - 38).

(** [a] is not sorted after [b]: the comparison of their base names is not
    positive. *)
Definition iconLe (c : Collator) (a b : IconIdentity) : Prop :=
  notAfter (localeCompare c (baseName a) (baseName b)) = true.


(** [a] is not after [b] in the order of code units. *)
Definition ordinalLe (a b : string) : Prop :=
  notAfter (ordinalCompare a b) = true.

(** The last of [icons] that carries the component name [name]. *)
Definition lastNamed (name : string) (icons : list IconIdentity)
  : option IconIdentity :=
  fold_left
    (fun found icon =>
       if String.eqb name (componentName icon) then Some icon else found)
    icons None.


Definition tied (c : Collator) (b : string) (icon : IconIdentity) : bool :=
  match localeCompare c b (baseName icon) with
  | Eq => true
  | _ => false
  end.

(** [sorted] is [icons] sorted ascending by base name, the icons whose base
    names collate equal in the order they have in [icons]: the result of a
    stable sort. *)
Definition stablySorted (c : Collator) (icons sorted : list IconIdentity)
  : Prop :=
  StronglySorted (iconLe c) sorted
  /\ Permutation sorted icons
  /\ forall b, filter (tied c b) sorted = filter (tied c b) icons.

(** The names of a list in the order in which they first occur. *)
Fixpoint firstOccurrences (names : list string) : list string :=
  match names with
  | [] => []
  | name :: rest =>
      name :: filter (fun other => negb (String.eqb name other))
                (firstOccurrences rest)
  end.

(** The values of the merge: one icon for each component name of
    [existing ++ incoming], in the order in which the names first occur,
    each name with the last icon that carries it. *)
Definition mergedValues (existing incoming : list IconIdentity)
  : list IconIdentity :=
  flat_map
    (fun name =>
       match lastNamed name (existing ++ incoming) with
       | Some icon => [icon]
       | None => []
       end)
    (firstOccurrences (map componentName (existing ++ incoming))).

(** The type artifact for [ArrowLeft.svelte] and [LogoMain.svelte]. *)
Definition arrowLogoTypes : string :=
  "// Auto-generated by svelte-svg-gen" ++ nl
  ++ "// Run npx svelte-svg-gen -r to regenerate." ++ nl
  ++ nl
  ++ "export type SvgName = " ++ nl
  ++ "  | 'arrow-left'" ++ nl
  ++ "  | 'logo-main';" ++ nl
  ++ nl
  ++ "export const iconMap: Record<SvgName, string> = {" ++ nl
  ++ "  'arrow-left': 'ArrowLeft'," ++ nl
  ++ "  'logo-main': 'LogoMain'," ++ nl
  ++ "};" ++ nl.

(** A local file given as input: its base name is sanitized. *)
Definition fileSource (path : string) : list Source :=
  match sanitizeName path with
  | Some id => [mkSource FileSource path path id]
  | None => []
  end.

(** The optimizer rejects the files listed in [broken]. *)
Definition sampleRender (broken : list string) (source : Source)
  : option string :=
  if setHas (origin source) broken then None
  else Some ("<svg data-from='" ++ origin source ++ "'/>").

(** Two files whose names sanitize to the component name [MyIcon]. *)
Definition twoSpellings : list Source :=
  fileSource "My Icon.svg" ++ fileSource "my_icon.svg".

(** An output directory that holds [MyIcon.svelte] from an earlier run. *)
Definition oneOldIcon : FileSystem :=
  mkFileSystem (Some [("MyIcon.svelte", "<svg data-old/>")]) None None.

(** * Names: the steps of [sanitizeName] and the scanner *)

(** ** Facts about single code units *)

Ltac each_unit c := destruct c as [[] [] [] [] [] [] [] []].

Lemma isUpper_toLowerChar (c : ascii) : isUpper (toLowerChar c) = false.
Proof. each_unit c; reflexivity. Qed.

Lemma upper_of_letter (c : ascii) :
  implb (isLower c)
    (isUpper (toUpperChar c) && Ascii.eqb (toLowerChar (toUpperChar c)) c)
  = true.
Proof. each_unit c; reflexivity. Qed.

Lemma letter_not_hyphen (c : ascii) : implb (isLower c) (negb (isHyphen c)) = true.
Proof. each_unit c; reflexivity. Qed.

Lemma toLowerChar_dot (c : ascii) :
  Ascii.eqb (toLowerChar c) "." = Ascii.eqb c ".".
Proof. each_unit c; reflexivity. Qed.

Lemma isHyphen_eq (c : ascii) : isHyphen c = true -> c = "-"%char.
Proof. unfold isHyphen. apply Ascii.eqb_eq. Qed.

Lemma hyphen_is_separator (c : ascii) :
  isUnderscore c = false -> isSeparator c = isHyphen c.
Proof. unfold isSeparator. intros ->. apply orb_false_r. Qed.

(** ** Strings as lists of units *)

Lemma append_nil_r (s : string) : s ++ "" = s.
Proof. induction s; simpl; congruence. Qed.

Lemma append_assoc (a b c : string) : (a ++ b) ++ c = a ++ (b ++ c).
Proof. induction a; simpl; congruence. Qed.

Lemma units_append (a b : string) :
  Units.units (a ++ b) = (Units.units a ++ Units.units b)%list.
Proof. induction a; simpl; congruence. Qed.

Lemma text_units (s : string) : Units.text (Units.units s) = s.
Proof. apply string_of_list_ascii_of_string. Qed.

Lemma units_text (l : list ascii) : Units.units (Units.text l) = l.
Proof. apply list_ascii_of_string_of_list_ascii. Qed.

Lemma units_inj (a b : string) : Units.units a = Units.units b -> a = b.
Proof. intro H. rewrite <- (text_units a), <- (text_units b). now rewrite H. Qed.

Lemma isEmpty_eqb (s : string) : isEmpty s = String.eqb s "".
Proof. destruct s; reflexivity. Qed.

Lemma isEmpty_true (s : string) : isEmpty s = true <-> s = "".
Proof. destruct s; simpl; split; congruence. Qed.

(** ** The steps of [sanitizeName] on lists of units *)

Lemma replaceInvalid_units (s : string) :
  Units.units (replaceInvalid s) = Units.replaceOutside (Units.units s).
Proof. induction s; simpl; congruence. Qed.

Lemma toLowerCase_units (s : string) :
  Units.units (toLowerCase s) = Units.lowercase (Units.units s).
Proof. induction s; simpl; congruence. Qed.

(** [collapseHyphens] keeps the first unit of its input. *)
Lemma collapseHyphens_head (c : ascii) (s : string) :
  exists t, collapseHyphens (String c s) = String c t.
Proof.
  revert c. induction s as [|c' s IH]; intro c.
  - simpl. destruct (isHyphen c); eauto.
  - cbn [collapseHyphens]. destruct (isHyphen c) eqn:Hc; [|eauto].
    destruct (isHyphen c') eqn:Hc'; [|eauto].
    destruct (IH c') as [t Ht]. exists t.
    apply isHyphen_eq in Hc, Hc'. subst. exact Ht.
Qed.

Lemma collapseHyphens_step (c c' : ascii) (s : string) :
  collapseHyphens (String c (String c' s))
  = if isHyphen c && isHyphen c' then collapseHyphens (String c' s)
    else String c (collapseHyphens (String c' s)).
Proof.
  change (collapseHyphens (String c (String c' s)))
    with (if isHyphen c
          then if isHyphen c' then collapseHyphens (String c' s)
               else String c (collapseHyphens (String c' s))
          else String c (collapseHyphens (String c' s))).
  destruct (isHyphen c), (isHyphen c'); reflexivity.
Qed.

Lemma collapseHyphens_units (s : string) :
  Units.collapseRuns false (Units.units s) = Units.units (collapseHyphens s)
  /\ Units.collapseRuns true (Units.units s)
     = Units.units (dropLeadingHyphen (collapseHyphens s)).
Proof.
  induction s as [|c s [IHf IHt]]; [split; reflexivity|].
  cbn [Units.units list_ascii_of_string Units.collapseRuns].
  fold (Units.units s).
  destruct (isHyphen c) eqn:Hc; cbn [andb].
  - rewrite IHt. destruct s as [|c' s'].
    + cbn. rewrite !Hc. cbn. rewrite ?Hc. split; reflexivity.
    + rewrite collapseHyphens_step, Hc.
      destruct (collapseHyphens_head c' s') as [t Ht].
      destruct (isHyphen c') eqn:Hc'; cbn [andb].
      * rewrite Ht. cbn [dropLeadingHyphen]. rewrite Hc'.
        apply isHyphen_eq in Hc, Hc'. subst. split; reflexivity.
      * rewrite Ht. cbn [dropLeadingHyphen]. rewrite Hc, Hc'.
        split; reflexivity.
  - rewrite IHf.
    assert (E : collapseHyphens (String c s) = String c (collapseHyphens s)).
    { cbn [collapseHyphens]. now rewrite Hc. }
    rewrite E. cbn [dropLeadingHyphen]. rewrite Hc. split; reflexivity.
Qed.

Lemma trimStart_units (s : string) :
  Units.units (trimStart s) = Units.dropWhile isHyphen (Units.units s).
Proof.
  induction s as [|c s IH]; [reflexivity|].
  cbn. fold (Units.units s). destruct (isHyphen c); [exact IH | reflexivity].
Qed.

Lemma dropWhile_app (p : ascii -> bool) (a b : list ascii) :
  Units.dropWhile p (a ++ b)
  = if forallb p a then Units.dropWhile p b else (Units.dropWhile p a ++ b)%list.
Proof.
  induction a as [|c a IH]; [reflexivity|].
  cbn. destruct (p c); [exact IH | reflexivity].
Qed.

Lemma dropWhile_all (p : ascii -> bool) (a : list ascii) :
  forallb p a = true -> Units.dropWhile p a = [].
Proof.
  induction a as [|c a IH]; [reflexivity|].
  cbn. destruct (p c); [exact IH | discriminate].
Qed.

Lemma allHyphens_units (s : string) :
  allHyphens s = forallb isHyphen (rev (Units.units s)).
Proof.
  induction s as [|c s IH]; [reflexivity|].
  cbn. fold (Units.units s). rewrite forallb_app, <- IH. cbn.
  rewrite andb_true_r. apply andb_comm.
Qed.

Lemma trimEnd_units (s : string) :
  Units.units (trimEnd s)
  = rev (Units.dropWhile isHyphen (rev (Units.units s))).
Proof.
  induction s as [|c s IH]; [reflexivity|].
  cbn [trimEnd Units.units list_ascii_of_string rev]. fold (Units.units s).
  rewrite dropWhile_app, <- allHyphens_units.
  destruct (allHyphens s) eqn:Hall.
  - rewrite andb_true_r. cbn. destruct (isHyphen c); [reflexivity|].
    cbn. fold (Units.units (trimEnd s)). rewrite IH.
    rewrite dropWhile_all by (now rewrite <- allHyphens_units). reflexivity.
  - rewrite andb_false_r, rev_app_distr. cbn.
    fold (Units.units (trimEnd s)). now rewrite IH.
Qed.

Lemma trimHyphens_units (s : string) :
  Units.units (trimHyphens s) = Units.trim (Units.units s).
Proof.
  unfold trimHyphens, Units.trim. now rewrite trimEnd_units, trimStart_units.
Qed.

Lemma matchesCI_svg_length (t : string) :
  matchesCI ".svg" t = true -> String.length t = 4.
Proof.
  destruct t as [|d [|s [|v [|g [|x t]]]]]; cbn; try discriminate;
    rewrite ?andb_false_r; try discriminate; reflexivity.
Qed.

Lemma matchesCI_svg_four (d s v g : ascii) :
  matchesCI ".svg" (String d (String s (String v (String g ""))))
  = Ascii.eqb d "." && Ascii.eqb (toLowerChar s) "s"
    && Ascii.eqb (toLowerChar v) "v" && Ascii.eqb (toLowerChar g) "g".
Proof.
  cbn. rewrite toLowerChar_dot, andb_true_r, !andb_assoc. reflexivity.
Qed.

Lemma length_text (l : list ascii) : String.length (Units.text l) = List.length l.
Proof. induction l; simpl; congruence. Qed.

(** The suffix test at the end of the list obeys the scan of the regular
    expression. *)
Lemma stripTrailingSvg_cons (c : ascii) (l : list ascii) :
  Units.stripTrailingSvg (c :: l)
  = if matchesCI ".svg" (Units.text (c :: l)) then []
    else c :: Units.stripTrailingSvg l.
Proof.
  unfold Units.stripTrailingSvg. cbn [rev].
  pose proof (rev_involutive l) as Hl.
  destruct (rev l) as [|g [|v [|s [|d front]]]] eqn:E; cbn [app].
  1-3: rewrite <- Hl; cbn; rewrite ?andb_false_r; reflexivity.
  - rewrite <- Hl. cbn [rev app Units.text string_of_list_ascii].
    rewrite matchesCI_svg_four.
    destruct (Ascii.eqb c "." && _ && _ && _); reflexivity.
  - assert (Hm : matchesCI ".svg" (Units.text (c :: l)) = false).
    { destruct (matchesCI ".svg" (Units.text (c :: l))) eqn:Hm; [|reflexivity].
      apply matchesCI_svg_length in Hm. rewrite length_text in Hm.
      cbn in Hm. rewrite <- (length_rev l), E in Hm. discriminate. }
    rewrite Hm.
    destruct (Ascii.eqb d "." && _ && _ && _); [|reflexivity].
    now rewrite rev_app_distr.
Qed.

Lemma stripSvg_units (s : string) :
  Units.units (stripSvg s) = Units.stripTrailingSvg (Units.units s).
Proof.
  unfold stripSvg. induction s as [|c s IH]; [reflexivity|].
  cbn [Units.units list_ascii_of_string]. fold (Units.units s).
  rewrite stripTrailingSvg_cons.
  cbn [Units.text string_of_list_ascii]. fold (Units.text (Units.units s)).
  rewrite text_units. cbn [stripSuffixCI].
  destruct (matchesCI ".svg" (String c s)); [reflexivity|].
  cbn. fold (Units.units (stripSuffixCI ".svg" s)). now rewrite IH.
Qed.

Lemma join_empty_cons (x : string) (xs : list string) :
  join "" (x :: xs) = x ++ join "" xs.
Proof.
  unfold join. destruct xs; cbn; [now rewrite append_nil_r | reflexivity].
Qed.

Lemma split_nonempty (s : string) : exists part parts, split s = part :: parts.
Proof.
  induction s as [|c s [part [parts E]]]; cbn; [eauto|].
  destruct (isSeparator c); [eauto|]. rewrite E. eauto.
Qed.

Lemma pascalCase_units (b : string) :
  Units.pascalCase true (Units.units b)
  = Units.units (join "" (map capitalize (split b)))
  /\ Units.pascalCase false (Units.units b)
     = Units.units
         (match split b with
          | part :: parts => part ++ join "" (map capitalize parts)
          | [] => ""
          end).
Proof.
  induction b as [|c b [IHt IHf]]; [split; reflexivity|].
  cbn [Units.units list_ascii_of_string Units.pascalCase split].
  fold (Units.units b).
  destruct (isSeparator c).
  - cbn [map]. rewrite join_empty_cons. cbn [capitalize append].
    split; exact IHt.
  - destruct (split b) as [|part parts]; rewrite IHf.
    + split; reflexivity.
    + cbn [map]. rewrite join_empty_cons. split; reflexivity.
Qed.

(** [sanitizeName] is the composition of the steps on lists of units. *)
Lemma sanitizeName_deriveIdentity (name : string) :
  sanitizeName name = Units.deriveIdentity name.
Proof.
  unfold sanitizeName, Units.deriveIdentity, Units.baseNameOf.
  assert (E : toLowerCase
                (trimHyphens (collapseHyphens (replaceInvalid (stripSvg name))))
              = Units.text (Units.lowercase (Units.trim (Units.collapseRuns false
                  (Units.replaceOutside
                     (Units.stripTrailingSvg (Units.units name))))))).
  { apply units_inj. rewrite units_text, toLowerCase_units, trimHyphens_units.
    rewrite <- (proj1 (collapseHyphens_units _)).
    now rewrite replaceInvalid_units, stripSvg_units. }
  rewrite <- E, <- isEmpty_eqb.
  destruct (isEmpty _); [reflexivity|].
  unfold Units.componentIdentifierOf.
  rewrite (proj1 (pascalCase_units _)), text_units. reflexivity.
Qed.

(** ** The steps on lists of units against the words of the specification *)

Lemma lowerCased_toLowerChar (c : ascii) : Spec.lowerCased c = toLowerChar c.
Proof. each_unit c; reflexivity. Qed.

Lemma upperCased_toUpperChar (c : ascii) : Spec.upperCased c = toUpperChar c.
Proof. each_unit c; reflexivity. Qed.

Lemma allowed_isNameChar (c : ascii) : Spec.allowed c = isNameChar c.
Proof. each_unit c; reflexivity. Qed.

Lemma suffix_letters (c : ascii) :
  Spec.isOneOf (list_ascii_of_string "sS") c = Ascii.eqb (toLowerChar c) "s"
  /\ Spec.isOneOf (list_ascii_of_string "vV") c
     = Ascii.eqb (toLowerChar c) "v"
  /\ Spec.isOneOf (list_ascii_of_string "gG") c
     = Ascii.eqb (toLowerChar c) "g".
Proof. each_unit c; repeat split. Qed.

Lemma dropLeading_dropWhile (p : ascii -> bool) (l : list ascii) :
  Spec.dropLeading p l = Units.dropWhile p l.
Proof. induction l as [|c l IH]; cbn; [reflexivity | now rewrite IH]. Qed.

Lemma stripTrailingSvg_spec (l : list ascii) :
  Spec.stripTrailingSvg l = Units.stripTrailingSvg l.
Proof.
  unfold Spec.stripTrailingSvg, Units.stripTrailingSvg.
  destruct (rev l) as [|g [|v [|s [|d front]]]]; try reflexivity.
  destruct (suffix_letters s) as [-> _], (suffix_letters v) as [_ [-> _]],
    (suffix_letters g) as [_ [_ ->]].
  reflexivity.
Qed.

Lemma replaceOutside_spec (l : list ascii) :
  Spec.replaceOutside l = Units.replaceOutside l.
Proof.
  unfold Spec.replaceOutside, Units.replaceOutside. apply map_ext.
  intro c. now rewrite allowed_isNameChar.
Qed.

Lemma collapseRuns_spec (b : bool) (l : list ascii) :
  Spec.collapseRuns b l = Units.collapseRuns b l.
Proof.
  revert b. induction l as [|c l IH]; intro b; [reflexivity|].
  cbn. unfold Spec.isHyphenMinus, isHyphen. now rewrite !IH.
Qed.

Lemma trim_spec (l : list ascii) : Spec.trim l = Units.trim l.
Proof.
  unfold Spec.trim, Units.trim. now rewrite !dropLeading_dropWhile.
Qed.

Lemma lowercase_spec (l : list ascii) : Spec.lowercase l = Units.lowercase l.
Proof.
  unfold Spec.lowercase, Units.lowercase. apply map_ext.
  apply lowerCased_toLowerChar.
Qed.

Lemma baseNameOf_spec (name : string) :
  Spec.baseNameOf name = Units.baseNameOf name.
Proof.
  unfold Spec.baseNameOf, Units.baseNameOf, Units.text, Units.units.
  now rewrite stripTrailingSvg_spec, replaceOutside_spec, collapseRuns_spec,
    trim_spec, lowercase_spec.
Qed.

Lemma segments_pascalCase (l : list ascii) :
  Units.pascalCase true l = List.concat (map Spec.capitalized (Spec.segments l))
  /\ Units.pascalCase false l
     = match Spec.segments l with
       | segment :: rest =>
           (segment ++ List.concat (map Spec.capitalized rest))%list
       | [] => []
       end.
Proof.
  induction l as [|c l [IH1 IH2]]; [split; reflexivity|].
  cbn [Units.pascalCase Spec.segments].
  change (Spec.isSegmentSeparator c) with (isSeparator c).
  destruct (isSeparator c).
  - cbn [map List.concat Spec.capitalized app]. now rewrite IH1.
  - rewrite IH2. destruct (Spec.segments l) as [|segment rest];
      cbn [map List.concat Spec.capitalized app];
      now rewrite upperCased_toUpperChar.
Qed.

Lemma componentIdentifierOf_spec (b : string) :
  Spec.componentIdentifierOf b = Units.componentIdentifierOf b.
Proof.
  unfold Spec.componentIdentifierOf, Units.componentIdentifierOf, Units.text,
    Units.units.
  now rewrite (proj1 (segments_pascalCase _)).
Qed.

(** The steps on lists of units are those of the specification. *)
Lemma deriveIdentity_units (name : string) :
  Units.deriveIdentity name = Spec.deriveIdentity name.
Proof.
  unfold Units.deriveIdentity, Spec.deriveIdentity.
  now rewrite baseNameOf_spec, componentIdentifierOf_spec.
Qed.

(** ** Recovering the base name from the component name *)

Lemma toLowerCase_noUpper (s : string) : noUpper (toLowerCase s) = true.
Proof.
  unfold noUpper. induction s as [|c s IH]; [reflexivity|].
  cbn. now rewrite isUpper_toLowerChar, IH.
Qed.

Lemma hyphenateUpper_noUpper (n : nat) (s : string) :
  noUpper s = true -> hyphenateUpper n s = s.
Proof.
  revert n. induction s as [|c s IH]; intros n H; [reflexivity|].
  cbn in H. apply andb_prop in H. destruct H as [Hc Hs].
  cbn. apply negb_true_iff in Hc. rewrite Hc. now rewrite IH.
Qed.

Lemma hyphenateUpper_append (n : nat) (a b : string) :
  hyphenateUpper n (a ++ b)
  = hyphenateUpper n a ++ hyphenateUpper (n + String.length a) b.
Proof.
  revert n. induction a as [|c a IH]; intro n.
  - cbn. now rewrite Nat.add_0_r.
  - cbn [hyphenateUpper append String.length]. rewrite IH, Nat.add_succ_r.
    destruct (isUpper c); [|reflexivity].
    rewrite append_assoc. reflexivity.
Qed.

(** A capitalized word is turned back into the word, behind a hyphen unless
    it stands first. *)
Lemma hyphenateUpper_capitalize (n : nat) (word : string) :
  startsWithLetter word = true -> noUpper word = true ->
  hyphenateUpper n (capitalize word)
  = (if (0 <? n)%nat then "-" else "") ++ word.
Proof.
  destruct word as [|c rest]; [discriminate|].
  cbn [startsWithLetter noUpper forallChars capitalize]. intros Hc Hrest.
  apply andb_prop in Hrest. destruct Hrest as [_ Hrest].
  pose proof (upper_of_letter c) as Hu. rewrite Hc in Hu. cbn in Hu.
  apply andb_prop in Hu. destruct Hu as [Hup Hback].
  apply Ascii.eqb_eq in Hback.
  cbn [hyphenateUpper]. rewrite Hup, Hback.
  now rewrite (hyphenateUpper_noUpper _ _ Hrest).
Qed.

Lemma length_capitalize (word : string) :
  String.length (capitalize word) = String.length word.
Proof. destruct word; reflexivity. Qed.

Lemma startsWithLetter_length (word : string) :
  startsWithLetter word = true -> (0 <? String.length word)%nat = true.
Proof. destruct word; [discriminate | reflexivity]. Qed.

Lemma join_hyphen_cons (w : string) (ws : list string) :
  join "-" (w :: ws) = w ++ hyphenated ws.
Proof.
  unfold join. revert w. induction ws as [|w' ws IH]; intro w.
  - cbn. now rewrite append_nil_r.
  - change (String.concat "-" (w :: w' :: ws))
      with (w ++ "-" ++ String.concat "-" (w' :: ws)).
    now rewrite IH.
Qed.

Lemma hyphenateUpper_words (n : nat) (words : list string) :
  (0 <? n)%nat = true ->
  forallb startsWithLetter words = true -> forallb noUpper words = true ->
  hyphenateUpper n (join "" (map capitalize words)) = hyphenated words.
Proof.
  revert n. induction words as [|w ws IH]; intros n Hn Hl Hu; [reflexivity|].
  cbn in Hl, Hu. apply andb_prop in Hl, Hu.
  destruct Hl as [Hw Hl], Hu as [Hwu Hu].
  cbn [map]. rewrite join_empty_cons, hyphenateUpper_append.
  rewrite hyphenateUpper_capitalize, Hn by assumption.
  rewrite IH; try assumption.
  - cbn. reflexivity.
  - apply Nat.ltb_lt. apply Nat.ltb_lt in Hn. lia.
Qed.

Lemma hyphenateUpper_capitalize_first (word : string) :
  noUpper word = true -> hyphenateUpper 0 (capitalize word) = word.
Proof.
  destruct word as [|c rest]; [reflexivity|]. intro Hu.
  destruct (isLower c) eqn:Hc.
  - apply (hyphenateUpper_capitalize 0); [exact Hc | exact Hu].
  - cbn [capitalize]. unfold toUpperChar. rewrite Hc.
    now apply hyphenateUpper_noUpper.
Qed.

Lemma hyphenateUpper_first_words (w : string) (ws : list string) :
  isEmpty w = false ->
  forallb startsWithLetter ws = true -> forallb noUpper (w :: ws) = true ->
  hyphenateUpper 0 (join "" (map capitalize (w :: ws))) = join "-" (w :: ws).
Proof.
  intros Hw Hl Hu. cbn in Hu. apply andb_prop in Hu.
  destruct Hu as [Hwu Hu].
  cbn [map]. rewrite join_empty_cons, hyphenateUpper_append.
  rewrite hyphenateUpper_capitalize_first by assumption.
  rewrite join_hyphen_cons, length_capitalize. f_equal.
  apply hyphenateUpper_words; try assumption.
  cbn [Nat.add]. destruct w; [discriminate | reflexivity].
Qed.

Lemma split_join_hyphen (b : string) :
  forallChars (fun c => negb (isUnderscore c)) b = true ->
  join "-" (split b) = b.
Proof.
  induction b as [|c b IH]; [reflexivity|].
  cbn [forallChars split]. intro H. apply andb_prop in H.
  destruct H as [Hc Hb]. apply negb_true_iff in Hc.
  rewrite (hyphen_is_separator _ Hc). specialize (IH Hb).
  destruct (split_nonempty b) as [part [parts E]]. rewrite E in *.
  destruct (isHyphen c) eqn:Hh.
  - apply isHyphen_eq in Hh. subst c.
    rewrite join_hyphen_cons. cbn [append hyphenated].
    rewrite <- join_hyphen_cons. now rewrite IH.
  - rewrite join_hyphen_cons in *. cbn [append]. now rewrite IH.
Qed.

Lemma split_noUpper (b : string) :
  noUpper b = true -> forallb noUpper (split b) = true.
Proof.
  induction b as [|c b IH]; [reflexivity|].
  cbn [noUpper forallChars split]. intro H. apply andb_prop in H.
  destruct H as [Hc Hb]. specialize (IH Hb).
  destruct (isSeparator c); [exact IH|].
  destruct (split b) as [|part parts]; cbn in *.
  - now rewrite Hc.
  - apply andb_prop in IH. destruct IH as [Hp Hps].
    unfold noUpper in Hp. now rewrite Hc, Hp, Hps.
Qed.

(** A name that does not begin with a separator has a first segment. *)
Lemma split_first_segment (b : string) (part : string) (parts : list string) :
  split b = part :: parts -> isEmpty b = false ->
  startsWithHyphen b = false ->
  forallChars (fun c => negb (isUnderscore c)) b = true ->
  isEmpty part = false.
Proof.
  destruct b as [|c b]; [discriminate|].
  cbn [split startsWithHyphen forallChars]. intros E _ Hh Hu.
  apply andb_prop in Hu. destruct Hu as [Hc _]. apply negb_true_iff in Hc.
  rewrite (hyphen_is_separator _ Hc), Hh in E.
  destruct (split b); inversion E; reflexivity.
Qed.

Lemma recover_hyphenatedWords (b : string) :
  isEmpty b = false -> noUpper b = true -> startsWithHyphen b = false ->
  hyphenatedWords b = true ->
  componentNameToBaseName (join "" (map capitalize (split b))) = Some b.
Proof.
  intros Hne Hu Hh Hw. unfold hyphenatedWords in Hw.
  apply andb_prop in Hw. destruct Hw as [Hund Hwords].
  pose proof (split_noUpper b Hu) as Hsu.
  destruct (split_nonempty b) as [part [parts E]].
  pose proof (split_first_segment b part parts E Hne Hh Hund) as Hpart.
  rewrite E in *. cbn [tl] in Hwords.
  unfold componentNameToBaseName.
  rewrite hyphenateUpper_first_words by assumption.
  rewrite <- E, split_join_hyphen by assumption.
  assert (Hcn : isEmpty (join "" (map capitalize (split b))) = false).
  { rewrite E. cbn [map]. rewrite join_empty_cons.
    destruct part; [discriminate | reflexivity]. }
  rewrite Hcn. f_equal.
  destruct b as [|c t]; [reflexivity|]. cbn in *. now rewrite Hh.
Qed.

Lemma toLowerChar_hyphen (c : ascii) : isHyphen (toLowerChar c) = isHyphen c.
Proof. each_unit c; reflexivity. Qed.

Lemma trimHyphens_head (s : string) :
  startsWithHyphen (toLowerCase (trimHyphens s)) = false.
Proof.
  unfold trimHyphens.
  assert (H : startsWithHyphen (trimStart s) = false).
  { induction s as [|c s IH]; [reflexivity|].
    cbn. destruct (isHyphen c) eqn:Hc; [exact IH | cbn; exact Hc]. }
  destruct (trimStart s) as [|c t]; [reflexivity|].
  cbn in H. cbn. rewrite H. cbn. now rewrite toLowerChar_hyphen.
Qed.

(** ** The alphabet of the names

    The base name is written in [[a-z0-9_-]] and the component name in
    letters and digits only: the component name adds neither a separator nor
    a dot to the path of its file. *)

Definition isBaseChar (c : ascii) : bool :=
  isLower c || isDigit c || isUnderscore c || isHyphen c.

Definition isAlnum (c : ascii) : bool := isLower c || isUpper c || isDigit c.

Lemma lowered_name_char (c : ascii) :
  implb (isNameChar c) (isBaseChar (toLowerChar c)) = true.
Proof. each_unit c; reflexivity. Qed.

Lemma pascal_char (c : ascii) :
  implb (isBaseChar c && negb (isSeparator c))
    (isAlnum c && isAlnum (toUpperChar c)) = true.
Proof. each_unit c; reflexivity. Qed.

Lemma replaceOutside_chars (l : list ascii) :
  Forall (fun c => isNameChar c = true) (Units.replaceOutside l).
Proof.
  induction l as [|c l IH]; cbn; constructor; [|exact IH].
  destruct (isNameChar c) eqn:E; [exact E | reflexivity].
Qed.

Section KeptUnits.
Variable P : ascii -> Prop.

Lemma collapseRuns_chars (b : bool) (l : list ascii) :
  Forall P l -> Forall P (Units.collapseRuns b l).
Proof.
  intro H. revert b. induction H as [|c l Hc Hl IH]; intro b; cbn;
    [constructor|].
  destruct (isHyphen c && b); [apply IH | constructor; [exact Hc | apply IH]].
Qed.

Lemma dropWhile_chars (p : ascii -> bool) (l : list ascii) :
  Forall P l -> Forall P (Units.dropWhile p l).
Proof.
  induction 1 as [|c l Hc Hl IH]; cbn; [constructor|].
  destruct (p c); [exact IH | now constructor].
Qed.

Lemma trim_chars (l : list ascii) : Forall P l -> Forall P (Units.trim l).
Proof.
  intro H. unfold Units.trim.
  apply Forall_rev, dropWhile_chars, Forall_rev, dropWhile_chars, H.
Qed.
End KeptUnits.

Lemma pascalCase_chars (b : bool) (l : list ascii) :
  Forall (fun c => isBaseChar c = true) l ->
  Forall (fun c => isAlnum c = true) (Units.pascalCase b l).
Proof.
  intro H. revert b. induction H as [|c l Hc Hl IH]; intro b; cbn;
    [constructor|].
  destruct (isSeparator c) eqn:Hs; [apply IH|].
  pose proof (pascal_char c) as Hp. rewrite Hc, Hs in Hp. cbn in Hp.
  apply andb_prop in Hp. destruct Hp as [Ha Hu].
  constructor; [destruct b; assumption | apply IH].
Qed.

Lemma forallChars_units (p : ascii -> bool) (s : string) :
  forallChars p s = true <-> Forall (fun c => p c = true) (Units.units s).
Proof.
  induction s as [|c s IH]; cbn; [split; auto|].
  rewrite andb_true_iff, IH. split.
  - intros [Hc Hs]. now constructor.
  - intro H. inversion H; auto.
Qed.

(** The names [sanitizeName] returns are written in their alphabets. *)
Lemma sanitizeName_alphabet (name : string) (id : IconIdentity) :
  sanitizeName name = Some id ->
  forallChars isBaseChar (baseName id) = true
  /\ forallChars isAlnum (componentName id) = true.
Proof.
  rewrite sanitizeName_deriveIdentity. unfold Units.deriveIdentity.
  destruct (String.eqb (Units.baseNameOf name) ""); [discriminate|].
  intro H. inversion H; subst id. cbn [baseName componentName].
  assert (Hb : Forall (fun c => isBaseChar c = true)
                 (Units.units (Units.baseNameOf name))).
  { unfold Units.baseNameOf. rewrite units_text. unfold Units.lowercase.
    apply Forall_map.
    eapply Forall_impl;
      [|apply trim_chars, collapseRuns_chars, replaceOutside_chars].
    intros c Hc. pose proof (lowered_name_char c) as Hl.
    rewrite Hc in Hl. exact Hl. }
  split; apply forallChars_units; [exact Hb|].
  unfold Units.componentIdentifierOf. rewrite units_text.
  now apply pascalCase_chars.
Qed.

(** ** The scanner *)

Lemma upper_lowers_to_letter (c : ascii) :
  implb (isUpper c) (negb (isHyphen (toLowerChar c))) = true.
Proof. each_unit c; reflexivity. Qed.

Lemma hyphenateUpper_empty (n : nat) (s : string) :
  hyphenateUpper n s = "" -> s = "".
Proof.
  destruct s as [|c s]; [reflexivity|]. cbn.
  destruct (isUpper c); [|discriminate].
  destruct n; cbn; discriminate.
Qed.

(** Only the stem ["-"] is recovered as the empty base name. *)
Lemma recovered_empty (stem : string) :
  dropLeadingHyphen (hyphenateUpper 0 stem) = "" -> stem = "" \/ stem = "-".
Proof.
  destruct stem as [|c s]; intro H; [now left|]. right.
  cbn [hyphenateUpper Nat.ltb Nat.leb] in H.
  pose proof (upper_lowers_to_letter c) as Hu.
  destruct (isUpper c); cbn in H, Hu.
  - apply negb_true_iff in Hu. rewrite Hu in H. discriminate.
  - destruct (isHyphen c) eqn:Hc; [|discriminate].
    apply hyphenateUpper_empty in H. apply isHyphen_eq in Hc. now subst.
Qed.

Lemma recovered_same (stem : string) :
  noUpper stem = true -> startsWithHyphen stem = false ->
  dropLeadingHyphen (hyphenateUpper 0 stem) = stem.
Proof.
  intros Hu Hh. rewrite (hyphenateUpper_noUpper _ _ Hu).
  destruct stem as [|c s]; [reflexivity|]. cbn in *. now rewrite Hh.
Qed.

Lemma scanEntry_accepted (m : list (string * IconIdentity)) (file : string) :
  scanEntry m file
  = if accepted file
    then mapSet (stripSuffixCI ".svelte" file)
           (scanned (stripSuffixCI ".svelte" file)) m
    else m.
Proof.
  unfold scanEntry, accepted, componentNameToBaseName, scanned. cbn [baseName].
  destruct (endsWithCI ".svelte" file); [|reflexivity].
  destruct (isEmpty (stripSuffixCI ".svelte" file)); [reflexivity|].
  destruct (isEmpty (dropLeadingHyphen _)); reflexivity.
Qed.

Section MapFacts.
Context {V : Type}.
Implicit Types (m : list (string * V)) (k : string) (v : V).

Lemma mapSet_In_same k v m : In (k, v) (mapSet k v m).
Proof.
  induction m as [|[k0 v0] m IH]; cbn; [now left|].
  destruct (String.eqb k k0); [now left | now right].
Qed.

Lemma mapSet_In_kept k v k' v' m :
  In (k, v) m -> (k' = k -> v' = v) -> In (k, v) (mapSet k' v' m).
Proof.
  intros Hin Hsame. induction m as [|[k0 v0] m IH]; [contradiction|].
  cbn. destruct (String.eqb k' k0) eqn:E.
  - apply String.eqb_eq in E. subst k0. destruct Hin as [Hin|Hin].
    + inversion Hin; subst. left. now rewrite Hsame.
    + now right.
  - destruct Hin as [Hin|Hin]; [now left | right; auto].
Qed.

Lemma mapSet_In_inv k v k' v' m :
  In (k, v) (mapSet k' v' m) -> (k, v) = (k', v') \/ In (k, v) m.
Proof.
  induction m as [|[k0 v0] m IH]; cbn.
  - intros [H|[]]; left; congruence.
  - destruct (String.eqb k' k0).
    + intros [H|H]; [left; congruence | right; now right].
    + intros [H|H]; [right; now left|].
      destruct (IH H); [now left | right; now right].
Qed.

Lemma mapKeys_mapSet k v m :
  incl (mapKeys m) (mapKeys (mapSet k v m)).
Proof.
  induction m as [|[k0 v0] m IH]; cbn; [intros x []|].
  destruct (String.eqb k k0) eqn:E.
  - apply String.eqb_eq in E. subst. apply incl_refl.
  - cbn. intros x [Hx|Hx]; [now left | right; now apply IH].
Qed.
End MapFacts.

Lemma scan_complete (files : list string) (m : list (string * IconIdentity))
  (stem : string) :
  In (stem, scanned stem) m
  \/ (exists file, In file files /\ accepted file = true
                   /\ stripSuffixCI ".svelte" file = stem) ->
  In (stem, scanned stem) (fold_left scanEntry files m).
Proof.
  revert m. induction files as [|f files IH]; intros m H.
  - destruct H as [H|[file [[] _]]]. exact H.
  - cbn [fold_left]. apply IH. rewrite scanEntry_accepted.
    destruct H as [H|[file [[Hf|Hf] [Hacc Hstem]]]].
    + left. destruct (accepted f); [|exact H].
      apply mapSet_In_kept; [exact H | now intros ->].
    + subst f. rewrite Hacc, Hstem. left. apply mapSet_In_same.
    + right. eauto.
Qed.

Lemma scan_sound (files : list string) (m : list (string * IconIdentity))
  (k : string) (icon : IconIdentity) :
  In (k, icon) (fold_left scanEntry files m) ->
  In (k, icon) m
  \/ (exists file, In file files /\ accepted file = true
                   /\ stripSuffixCI ".svelte" file = k /\ icon = scanned k).
Proof.
  revert m. induction files as [|f files IH]; intros m H; [now left|].
  cbn [fold_left] in H. apply IH in H.
  destruct H as [H|[file [Hf H]]]; [|right; exists file; split; [now right|exact H]].
  rewrite scanEntry_accepted in H. destruct (accepted f) eqn:Hacc; [|now left].
  apply mapSet_In_inv in H. destruct H as [H|H]; [|now left].
  inversion H; subst. right. exists f. repeat split; auto. now left.
Qed.

Lemma in_scan_iff (files : list string) (icon : IconIdentity) :
  In icon (getCurrentIconsFromComponents (Some files))
  <-> exists file, In file files /\ accepted file = true
                   /\ icon = scanned (stripSuffixCI ".svelte" file).
Proof.
  unfold getCurrentIconsFromComponents, mapValues. split.
  - intro H. apply in_map_iff in H. destruct H as [[k v] [E H]].
    cbn in E. subst v. apply scan_sound in H.
    destruct H as [[]|[file [Hf [Hacc [Hk Hi]]]]].
    exists file. subst. auto.
  - intros [file [Hf [Hacc Hi]]]. subst icon. apply in_map_iff.
    exists (stripSuffixCI ".svelte" file, scanned (stripSuffixCI ".svelte" file)).
    split; [reflexivity|]. apply scan_complete. right. eauto.
Qed.

(** * Collation, sorting, [Set] and [Map] *)

(** ** Comparison unit by unit *)

Section CompareUnits.
Variable rank : ascii -> N.

Lemma compareUnits_sym (a b : string) :
  compareUnits rank b a = CompOpp (compareUnits rank a b).
Proof.
  revert b. induction a as [|x a IH]; intros [|y b]; cbn; try reflexivity.
  rewrite (N.compare_antisym (rank x) (rank y)).
  destruct (rank x ?= rank y)%N; cbn; auto.
Qed.

Lemma compareUnits_trans (a b c : string) :
  notAfter (compareUnits rank a b) = true ->
  notAfter (compareUnits rank b c) = true ->
  notAfter (compareUnits rank a c) = true.
Proof.
  revert b c. induction a as [|x a IH]; intros [|y b] [|z c]; cbn;
    try reflexivity; try discriminate.
  destruct (N.compare_spec (rank x) (rank y)),
           (N.compare_spec (rank y) (rank z)),
           (N.compare_spec (rank x) (rank z));
    cbn; try reflexivity; try discriminate; try lia.
  apply IH.
Qed.

Hypothesis rank_inj : forall x y, rank x = rank y -> x = y.

Lemma compareUnits_eq (a b : string) :
  compareUnits rank a b = Eq -> a = b.
Proof.
  revert b. induction a as [|x a IH]; intros [|y b]; cbn;
    try reflexivity; try discriminate.
  destruct (N.compare_spec (rank x) (rank y)) as [E| |]; try discriminate.
  intro H. apply rank_inj in E. f_equal; auto.
Qed.
End CompareUnits.

Lemma code_inj (x y : ascii) : code x = code y -> x = y.
Proof.
  unfold code. intro H.
  rewrite <- (ascii_N_embedding x), <- (ascii_N_embedding y). now rewrite H.
Qed.

Lemma rootUnit_rootRank (c : ascii) : rootUnit (rootRank c) = c.
Proof. each_unit c; reflexivity. Qed.

Lemma rootRank_inj (x y : ascii) : rootRank x = rootRank y -> x = y.
Proof.
  intro H. rewrite <- (rootUnit_rootRank x), <- (rootUnit_rootRank y).
  now rewrite H.
Qed.

Definition ordinalCollator : Collator :=
  mkCollator ordinalCompare (compareUnits_sym code) (compareUnits_trans code).

Definition rootCollator : Collator :=
  mkCollator rootCompare (compareUnits_sym rootRank)
    (compareUnits_trans rootRank).

Lemma localeCompare_refl (c : Collator) (a : string) : localeCompare c a a = Eq.
Proof.
  pose proof (localeCompare_sym c a a) as H.
  destruct (localeCompare c a a); cbn in H; congruence.
Qed.

(** ** Stable insertion sort *)

Section SortFacts.
Context {A : Type}.
Variable gt : A -> A -> bool.

Lemma insertSorted_Permutation (x : A) (l : list A) :
  Permutation (insertSorted gt x l) (x :: l).
Proof.
  induction l as [|y l IH]; cbn; [reflexivity|].
  destruct (gt x y); [|reflexivity].
  rewrite IH. apply perm_swap.
Qed.

Lemma sortBy_Permutation (l : list A) : Permutation (sortBy gt l) l.
Proof.
  induction l as [|x l IH]; cbn; [reflexivity|].
  rewrite insertSorted_Permutation. now constructor.
Qed.

Lemma sortBy_In (l : list A) (x : A) : In x (sortBy gt l) <-> In x l.
Proof.
  split; apply Permutation_in;
    [apply sortBy_Permutation | symmetry; apply sortBy_Permutation].
Qed.

Lemma sortBy_length (l : list A) : List.length (sortBy gt l) = List.length l.
Proof. apply Permutation_length, sortBy_Permutation. Qed.

Variable le : A -> A -> Prop.
Hypothesis le_of_not_gt : forall x y, gt x y = false -> le x y.
Hypothesis le_of_gt : forall x y, gt x y = true -> le y x.
Hypothesis le_trans : forall x y z, le x y -> le y z -> le x z.

Lemma insertSorted_sorted (x : A) (l : list A) :
  StronglySorted le l -> StronglySorted le (insertSorted gt x l).
Proof.
  induction 1 as [|y l Hl IH Hy]; cbn; [repeat constructor|].
  destruct (gt x y) eqn:E.
  - constructor; [exact IH|].
    apply (Permutation_Forall (x := x :: l));
      [symmetry; apply insertSorted_Permutation|].
    constructor; [now apply le_of_gt | exact Hy].
  - apply le_of_not_gt in E. constructor; [now constructor|].
    constructor; [exact E|].
    eapply Forall_impl; [|exact Hy]. intros z Hz. eapply le_trans; eauto.
Qed.

Lemma sortBy_sorted (l : list A) : StronglySorted le (sortBy gt l).
Proof.
  induction l as [|x l IH]; cbn; [constructor|].
  now apply insertSorted_sorted.
Qed.

(** A list has at most one sorted arrangement when the order separates
    its elements. *)
Lemma sorted_unique (l l' : list A) :
  StronglySorted le l -> StronglySorted le l' -> Permutation l l' ->
  (forall a b, In a l -> In b l -> le a b -> le b a -> a = b) ->
  l = l'.
Proof.
  intros Hl. revert l'. induction Hl as [|a t Ht IH Ha]; intros l' Hl' HP Hsep.
  - now apply Permutation_nil in HP.
  - destruct l' as [|b t'].
    + symmetry in HP. now apply Permutation_nil in HP.
    + inversion Hl' as [|? ? Ht' Hb]; subst.
      assert (E : a = b).
      { assert (Hbl : In b (a :: t))
          by (eapply Permutation_in; [symmetry; exact HP | now left]).
        assert (Hal : In a (b :: t'))
          by (eapply Permutation_in; [exact HP | now left]).
        destruct Hbl as [->|Hbt]; [reflexivity|].
        destruct Hal as [->|Hat']; [reflexivity|].
        apply Hsep; [now left | now right | |].
        - rewrite Forall_forall in Ha. auto.
        - rewrite Forall_forall in Hb. auto. }
      subst b. f_equal. apply IH; [exact Ht'| |].
      * eapply Permutation_cons_inv; exact HP.
      * intros x y Hx Hy. apply Hsep; now right.
Qed.
End SortFacts.

Lemma sortIcons_sorted (c : Collator) (l : list IconIdentity) :
  StronglySorted (iconLe c) (sortIcons c l).
Proof.
  apply sortBy_sorted; unfold iconLe, isAfter.
  - intros x y H. now apply negb_false_iff in H.
  - intros x y H. apply negb_true_iff in H.
    rewrite (localeCompare_sym c (baseName x) (baseName y)).
    destruct (localeCompare c (baseName x) (baseName y)); cbn in *; congruence.
  - intros x y z. apply localeCompare_trans.
Qed.

Lemma sortIcons_Permutation (c : Collator) (l : list IconIdentity) :
  Permutation (sortIcons c l) l.
Proof. apply sortBy_Permutation. Qed.

Lemma iconLe_antisym (c : Collator) (a b : IconIdentity) :
  iconLe c a b -> iconLe c b a ->
  localeCompare c (baseName a) (baseName b) = Eq.
Proof.
  unfold iconLe. rewrite (localeCompare_sym c (baseName a) (baseName b)).
  destruct (localeCompare c (baseName a) (baseName b)); cbn; congruence.
Qed.


(** ** The sort is stable *)

Lemma tied_refl (c : Collator) (a : IconIdentity) : tied c (baseName a) a = true.
Proof. unfold tied. now rewrite localeCompare_refl. Qed.

Lemma tied_iconLe (c : Collator) (a b : IconIdentity) :
  iconLe c a b -> iconLe c b a -> tied c (baseName a) b = true.
Proof.
  intros Hab Hba. unfold tied. now rewrite (iconLe_antisym c a b Hab Hba).
Qed.

Lemma tied_not_after (c : Collator) (b : string) (x y : IconIdentity) :
  tied c b x = true -> tied c b y = true ->
  isAfter (localeCompare c (baseName x) (baseName y)) = false.
Proof.
  unfold tied, isAfter. intros Hx Hy.
  rewrite (localeCompare_trans c (baseName x) b (baseName y));
    [reflexivity| |].
  - rewrite (localeCompare_sym c b (baseName x)).
    now destruct (localeCompare c b (baseName x)).
  - now destruct (localeCompare c b (baseName y)).
Qed.

Lemma insertSorted_stable (c : Collator) (b : string) (x : IconIdentity)
  (l : list IconIdentity) :
  filter (tied c b)
    (insertSorted
       (fun a a' => isAfter (localeCompare c (baseName a) (baseName a'))) x l)
  = filter (tied c b) (x :: l).
Proof.
  induction l as [|y l IH]; [reflexivity|].
  cbn [insertSorted].
  destruct (isAfter (localeCompare c (baseName x) (baseName y))) eqn:E;
    [|reflexivity].
  cbn [filter] in *. rewrite IH.
  destruct (tied c b x) eqn:Hx, (tied c b y) eqn:Hy; try reflexivity.
  rewrite (tied_not_after c b x y Hx Hy) in E. discriminate.
Qed.

Lemma sortIcons_stable (c : Collator) (b : string) (l : list IconIdentity) :
  filter (tied c b) (sortIcons c l) = filter (tied c b) l.
Proof.
  unfold sortIcons. induction l as [|x l IH]; [reflexivity|].
  cbn [sortBy fold_right].
  change (fold_right
            (insertSorted
               (fun a a' => isAfter (localeCompare c (baseName a) (baseName a'))))
            [] l)
    with (sortBy
            (fun a a' => isAfter (localeCompare c (baseName a) (baseName a')))
            l).
  rewrite insertSorted_stable. cbn [filter]. now rewrite IH.
Qed.

Lemma sortIcons_stablySorted (c : Collator) (l : list IconIdentity) :
  stablySorted c l (sortIcons c l).
Proof.
  split; [apply sortIcons_sorted|].
  split; [apply sortIcons_Permutation|].
  intro b. apply sortIcons_stable.
Qed.

(** Two lists sorted by base name that hold the same icons, the tied ones
    in the same order, are the same list. *)
Lemma stable_unique (c : Collator) (l l' : list IconIdentity) :
  StronglySorted (iconLe c) l -> StronglySorted (iconLe c) l' ->
  Permutation l l' ->
  (forall b, filter (tied c b) l = filter (tied c b) l') ->
  l = l'.
Proof.
  intro Hl. revert l'.
  induction Hl as [|x t Ht IH Hx]; intros l' Hl' HP Hf.
  - now apply Permutation_nil in HP.
  - destruct l' as [|y t'].
    + symmetry in HP. now apply Permutation_nil in HP.
    + inversion Hl' as [|? ? Ht' Hy]; subst.
      rewrite Forall_forall in Hx, Hy.
      assert (Hxy : iconLe c x y).
      { assert (Hin : In y (x :: t))
          by (eapply Permutation_in; [symmetry; exact HP | now left]).
        destruct Hin as [<-|Hin]; [|now apply Hx].
        unfold iconLe. now rewrite localeCompare_refl. }
      assert (Hyx : iconLe c y x).
      { assert (Hin : In x (y :: t'))
          by (eapply Permutation_in; [exact HP | now left]).
        destruct Hin as [<-|Hin]; [|now apply Hy].
        unfold iconLe. now rewrite localeCompare_refl. }
      assert (E : x = y).
      { specialize (Hf (baseName x)). cbn [filter] in Hf.
        rewrite tied_refl, (tied_iconLe c x y Hxy Hyx) in Hf. congruence. }
      subst y. f_equal. apply IH; [exact Ht'| |].
      * eapply Permutation_cons_inv; exact HP.
      * intro b. specialize (Hf b). cbn [filter] in Hf.
        destruct (tied c b x); congruence.
Qed.

Lemma stablySorted_unique (c : Collator) (icons l l' : list IconIdentity) :
  stablySorted c icons l -> stablySorted c icons l' -> l = l'.
Proof.
  intros [H1 [H2 H3]] [H1' [H2' H3']].
  apply (stable_unique c); auto.
  - now rewrite H2, H2'.
  - intro b. now rewrite H3, H3'.
Qed.

(** ** [Set] *)

Lemma setHas_In (x : string) (s : list string) : setHas x s = true <-> In x s.
Proof.
  unfold setHas. rewrite existsb_exists. split.
  - intros [y [Hy E]]. apply String.eqb_eq in E. now subst.
  - intro H. exists x. split; [exact H | apply String.eqb_refl].
Qed.

Lemma setHas_false (x : string) (s : list string) :
  setHas x s = false <-> ~ In x s.
Proof.
  rewrite <- setHas_In. destruct (setHas x s); split; congruence.
Qed.

Lemma setAdd_In (x y : string) (s : list string) :
  In y (setAdd x s) <-> y = x \/ In y s.
Proof.
  unfold setAdd. destruct (setHas x s) eqn:E.
  - apply setHas_In in E. split; [now right|]. intros [->|H]; assumption.
  - rewrite in_app_iff. cbn. split.
    + intros [H|[H|[]]]; auto.
    + intros [H|H]; auto.
Qed.

Lemma setAdd_NoDup (x : string) (s : list string) :
  NoDup s -> NoDup (setAdd x s).
Proof.
  unfold setAdd. destruct (setHas x s) eqn:E; [auto|]. intro H.
  apply setHas_false in E.
  apply (Permutation_NoDup (l := x :: s)).
  - apply Permutation_cons_append.
  - now constructor.
Qed.

Lemma newSet_fold (values acc : list string) :
  NoDup acc ->
  NoDup (fold_left (fun s x => setAdd x s) values acc)
  /\ forall y, In y (fold_left (fun s x => setAdd x s) values acc)
               <-> In y acc \/ In y values.
Proof.
  revert acc. induction values as [|x values IH]; intros acc Hacc; cbn.
  - split; [exact Hacc|]. intro y. split; [now left | now intros [H|[]]].
  - destruct (IH (setAdd x acc) (setAdd_NoDup x acc Hacc)) as [Hnd Hin].
    split; [exact Hnd|]. intro y. rewrite Hin, setAdd_In.
    split.
    + intros [[H|H]|H]; auto.
    + intros [H|[H|H]]; auto.
Qed.

Lemma newSet_NoDup (values : list string) : NoDup (newSet values).
Proof. apply newSet_fold. constructor. Qed.

Lemma newSet_In (values : list string) (y : string) :
  In y (newSet values) <-> In y values.
Proof.
  unfold newSet. rewrite (proj2 (newSet_fold values [] (NoDup_nil _))).
  split; [now intros [[]|H] | now right].
Qed.

(** ** The names of the union *)

Lemma sortStrings_sorted (names : list string) :
  StronglySorted ordinalLe (sortStrings names).
Proof.
  apply sortBy_sorted; unfold ordinalLe, isAfter.
  - intros x y H. now apply negb_false_iff in H.
  - intros x y H. apply negb_true_iff in H. unfold ordinalCompare in *.
    rewrite (compareUnits_sym code x y).
    destruct (compareUnits code x y); cbn in *; congruence.
  - intros x y z. apply compareUnits_trans.
Qed.

Lemma ordinalLe_antisym (a b : string) : ordinalLe a b -> ordinalLe b a -> a = b.
Proof.
  unfold ordinalLe, ordinalCompare. intros Hab Hba.
  apply (compareUnits_eq code code_inj).
  rewrite (compareUnits_sym code a b) in Hba.
  destruct (compareUnits code a b); cbn in *; congruence.
Qed.

Lemma sortStrings_permutation_invariant (l l' : list string) :
  Permutation l l' -> sortStrings l = sortStrings l'.
Proof.
  intro HP. apply (sorted_unique ordinalLe); try apply sortStrings_sorted.
  - unfold sortStrings. rewrite !sortBy_Permutation. exact HP.
  - intros a b _ _. apply ordinalLe_antisym.
Qed.


Lemma uniqueIconBaseNames_permutation (l l' : list IconIdentity) :
  Permutation l l' -> uniqueIconBaseNames l = uniqueIconBaseNames l'.
Proof.
  intro HP. unfold uniqueIconBaseNames.
  apply sortStrings_permutation_invariant.
  apply NoDup_Permutation; try apply newSet_NoDup.
  intro x. rewrite !newSet_In. split; apply Permutation_in.
  - now apply Permutation_map.
  - symmetry. now apply Permutation_map.
Qed.

(** ** [Map] and the merge of the earlier script *)

Section MapFold.
Context {V : Type}.
Variable key : V -> string.

Definition setAll (values : list V) (m : list (string * V)) :=
  fold_left (fun m v => mapSet (key v) v m) values m.

Definition keyed (m : list (string * V)) : Prop :=
  forall k v, In (k, v) m -> k = key v.

Lemma mapSet_keys_NoDup k (v : V) m :
  NoDup (mapKeys m) -> NoDup (mapKeys (mapSet k v m)).
Proof.
  induction m as [|[k0 v0] m IH]; cbn; intro H.
  - constructor; [intros []|constructor].
  - inversion H as [|? ? Hk0 Hm]; subst.
    destruct (String.eqb k k0) eqn:E.
    + apply String.eqb_eq in E. subst. cbn. now constructor.
    + cbn. constructor; [|auto]. intro Hin.
      apply in_map_iff in Hin. destruct Hin as [[k1 v1] [E1 Hin]].
      cbn in E1. subst k1. apply mapSet_In_inv in Hin.
      destruct Hin as [Hin|Hin].
      * inversion Hin; subst. now rewrite String.eqb_refl in E.
      * apply Hk0. apply in_map_iff. exists (k0, v1). auto.
Qed.

Lemma mapSet_keyed (v : V) m : keyed m -> keyed (mapSet (key v) v m).
Proof.
  intros H k w Hin. apply mapSet_In_inv in Hin.
  destruct Hin as [E|Hin]; [now inversion E | now apply H].
Qed.

Lemma setAll_invariant (values : list V) m :
  NoDup (mapKeys m) -> keyed m ->
  NoDup (mapKeys (setAll values m)) /\ keyed (setAll values m).
Proof.
  revert m. induction values as [|v values IH]; intros m Hnd Hk; cbn; [auto|].
  apply IH; [now apply mapSet_keys_NoDup | now apply mapSet_keyed].
Qed.

Lemma mapGet_mapSet k k' (v : V) m :
  mapGet k (mapSet k' v m) = if String.eqb k k' then Some v else mapGet k m.
Proof.
  induction m as [|[k0 v0] m IH]; cbn; [reflexivity|].
  destruct (String.eqb k' k0) eqn:E; cbn.
  - apply String.eqb_eq in E. subst. destruct (String.eqb k k0); reflexivity.
  - rewrite IH. destruct (String.eqb k k0) eqn:E0; [|reflexivity].
    apply String.eqb_eq in E0. subst.
    destruct (String.eqb k0 k') eqn:E1; [|reflexivity].
    apply String.eqb_eq in E1. subst. now rewrite String.eqb_refl in E.
Qed.

(** The last of [values] that carries the key [k]. *)
Definition lastWith (k : string) (values : list V) : option V :=
  fold_left (fun found v => if String.eqb k (key v) then Some v else found)
    values None.

Lemma lastWith_fold (k : string) (values : list V) (found : option V) :
  fold_left (fun found v => if String.eqb k (key v) then Some v else found)
    values found
  = match lastWith k values with
    | Some v => Some v
    | None => found
    end.
Proof.
  unfold lastWith. revert found.
  induction values as [|v values IH]; intro found; cbn; [reflexivity|].
  rewrite IH, (IH (if String.eqb k (key v) then Some v else None)).
  destruct (fold_left _ values None); [reflexivity|].
  destruct (String.eqb k (key v)); reflexivity.
Qed.

Lemma lastWith_app (k : string) (a b : list V) :
  lastWith k (a ++ b)
  = match lastWith k b with
    | Some v => Some v
    | None => lastWith k a
    end.
Proof.
  unfold lastWith at 1. rewrite fold_left_app. apply lastWith_fold.
Qed.

Lemma mapGet_setAll k (values : list V) m :
  mapGet k (setAll values m)
  = match lastWith k values with
    | Some v => Some v
    | None => mapGet k m
    end.
Proof.
  revert m. induction values as [|v values IH]; intro m; [reflexivity|].
  cbn [setAll fold_left]. fold (setAll values (mapSet (key v) v m)).
  rewrite IH, mapGet_mapSet.
  change (v :: values) with ([v] ++ values)%list. rewrite lastWith_app.
  destruct (lastWith k values); [reflexivity|].
  unfold lastWith. cbn. destruct (String.eqb k (key v)); reflexivity.
Qed.

Lemma mapGet_In k (v : V) m :
  NoDup (mapKeys m) -> (mapGet k m = Some v <-> In (k, v) m).
Proof.
  induction m as [|[k0 v0] m IH]; cbn; intro Hnd.
  - split; [discriminate | contradiction].
  - inversion Hnd as [|? ? Hk0 Hm]; subst.
    destruct (String.eqb k k0) eqn:E.
    + apply String.eqb_eq in E. subst. split.
      * intro H. left. congruence.
      * intros [H|H]; [congruence|]. exfalso. apply Hk0.
        apply in_map_iff. exists (k0, v). auto.
    + rewrite (IH Hm). split; [now right|].
      intros [H|H]; [|exact H]. inversion H; subst.
      now rewrite String.eqb_refl in E.
Qed.

(** Setting values with fresh, pairwise distinct keys appends them. *)
Lemma mapSet_fresh k (v : V) m :
  ~ In k (mapKeys m) -> mapSet k v m = (m ++ [(k, v)])%list.
Proof.
  induction m as [|[k0 v0] m IH]; cbn; intro H; [reflexivity|].
  destruct (String.eqb k k0) eqn:E.
  - apply String.eqb_eq in E. subst. exfalso. apply H. now left.
  - rewrite IH; [reflexivity|]. intro Hin. apply H. now right.
Qed.

Lemma setAll_fresh (values : list V) m :
  NoDup (map key values) ->
  (forall v, In v values -> ~ In (key v) (mapKeys m)) ->
  setAll values m = (m ++ map (fun v => (key v, v)) values)%list.
Proof.
  revert m. induction values as [|v values IH]; intros m Hnd Hfresh; cbn.
  - now rewrite app_nil_r.
  - inversion Hnd as [|? ? Hv Hvs]; subst.
    fold (setAll values (mapSet (key v) v m)).
    rewrite mapSet_fresh by (apply Hfresh; now left).
    rewrite IH; [now rewrite <- app_assoc | exact Hvs |].
    intros w Hw Hin. unfold mapKeys in Hin. rewrite map_app in Hin.
    apply in_app_iff in Hin. destruct Hin as [Hin|Hin].
    + apply (Hfresh w); [now right | exact Hin].
    + cbn in Hin. destruct Hin as [E|[]]. apply Hv. rewrite E.
      now apply in_map.
Qed.
End MapFold.

(** * Merge, type artifact, regenerate mode and exit codes *)

Lemma lastWith_absent {V : Type} (key : V -> string) (k : string)
  (l : list V) :
  ~ In k (map key l) -> lastWith key k l = None.
Proof.
  induction l as [|x l IH]; intro H; [reflexivity|].
  change (x :: l) with ([x] ++ l)%list. rewrite lastWith_app.
  rewrite IH by (intro Hin; apply H; now right).
  unfold lastWith. cbn. destruct (String.eqb k (key x)) eqn:E; [|reflexivity].
  apply String.eqb_eq in E. exfalso. apply H. now left.
Qed.

Lemma lastWith_distinct {V : Type} (key : V -> string) (l : list V) (v : V) :
  NoDup (map key l) -> In v l -> lastWith key (key v) l = Some v.
Proof.
  intros Hnd Hin. apply in_split in Hin. destruct Hin as [a [b ->]].
  rewrite map_app in Hnd. cbn in Hnd. apply NoDup_remove_2 in Hnd.
  change (v :: b) with ([v] ++ b)%list. rewrite !lastWith_app.
  rewrite lastWith_absent by (intro H; apply Hnd, in_or_app; now right).
  unfold lastWith at 1. cbn. now rewrite String.eqb_refl.
Qed.

Lemma allIconsMap_setAll (existing incoming : list IconIdentity) :
  Earlier.allIconsMap existing incoming
  = setAll componentName incoming (setAll componentName existing []).
Proof. reflexivity. Qed.

Lemma allIconsMap_invariant (existing incoming : list IconIdentity) :
  NoDup (mapKeys (Earlier.allIconsMap existing incoming))
  /\ keyed componentName (Earlier.allIconsMap existing incoming).
Proof.
  rewrite allIconsMap_setAll.
  apply setAll_invariant; apply setAll_invariant;
    try constructor; intros k v [].
Qed.

Lemma keyed_values_keys (m : list (string * IconIdentity)) :
  keyed componentName m -> map componentName (mapValues m) = mapKeys m.
Proof.
  unfold mapValues, mapKeys. intro Hk. rewrite map_map.
  apply map_ext_in. intros [k v] Hin. cbn. symmetry. now apply Hk.
Qed.

Lemma lastNamed_lastWith (name : string) (icons : list IconIdentity) :
  lastNamed name icons = lastWith componentName name icons.
Proof. reflexivity. Qed.

Lemma in_allIcons (c : Collator) (existing incoming : list IconIdentity)
  (icon : IconIdentity) :
  In icon (Earlier.allIcons c existing incoming)
  <-> lastWith componentName (componentName icon) (existing ++ incoming)
      = Some icon.
Proof.
  unfold Earlier.allIcons, sortIcons. rewrite sortBy_In.
  destruct (allIconsMap_invariant existing incoming) as [Hnd Hk].
  assert (Hget : mapGet (componentName icon)
                   (Earlier.allIconsMap existing incoming)
                 = lastWith componentName (componentName icon)
                     (existing ++ incoming)).
  { rewrite allIconsMap_setAll, !mapGet_setAll, lastWith_app. cbn.
    destruct (lastWith componentName (componentName icon) incoming);
      [reflexivity|].
    destruct (lastWith componentName (componentName icon) existing);
      reflexivity. }
  rewrite <- Hget, (mapGet_In _ _ _ Hnd). unfold mapValues. split.
  - intro H. apply in_map_iff in H. destruct H as [[k v] [E H]].
    cbn in E. subst v. now rewrite <- (Hk _ _ H).
  - intro H. apply in_map_iff. now exists (componentName icon, icon).
Qed.

(** ** The order of the merged values *)

Lemma mapKeys_mapSet_in {V : Type} (k : string) (v : V)
  (m : list (string * V)) :
  In k (mapKeys m) -> mapKeys (mapSet k v m) = mapKeys m.
Proof.
  induction m as [|[k0 v0] m IH]; cbn; [contradiction|]. intro H.
  destruct (String.eqb k k0) eqn:E.
  - apply String.eqb_eq in E. now subst.
  - cbn. f_equal. apply IH. destruct H as [H|H]; [|exact H].
    subst. now rewrite String.eqb_refl in E.
Qed.

Lemma filter_filter_implied {A : Type} (p q : A -> bool) (l : list A) :
  (forall x, p x = true -> q x = true) ->
  filter p (filter q l) = filter p l.
Proof.
  intro H. induction l as [|x l IH]; [reflexivity|]. cbn.
  destruct (q x) eqn:Hq; cbn; [now rewrite IH|].
  destruct (p x) eqn:Hp; [|exact IH]. apply H in Hp. congruence.
Qed.

Lemma filter_filter_and {A : Type} (p q : A -> bool) (l : list A) :
  filter p (filter q l) = filter (fun x => p x && q x) l.
Proof.
  induction l as [|x l IH]; [reflexivity|]. cbn.
  destruct (q x), (p x) eqn:Hp; cbn; rewrite ?Hp, ?IH; reflexivity.
Qed.

Lemma mapKeys_setAll {V : Type} (key : V -> string) (values : list V)
  (m : list (string * V)) :
  mapKeys (setAll key values m)
  = (mapKeys m
     ++ filter (fun k => negb (setHas k (mapKeys m)))
          (firstOccurrences (map key values)))%list.
Proof.
  revert m. induction values as [|v values IH]; intro m.
  - cbn. now rewrite app_nil_r.
  - cbn [setAll fold_left map firstOccurrences].
    fold (setAll key values (mapSet (key v) v m)). rewrite IH.
    destruct (setHas (key v) (mapKeys m)) eqn:Hin.
    + pose proof Hin as Hin'. apply setHas_In in Hin'.
      rewrite (mapKeys_mapSet_in _ _ _ Hin'). f_equal.
      cbn [filter]. rewrite Hin. cbn [negb].
      symmetry. apply filter_filter_implied. intros x Hx.
      destruct (String.eqb (key v) x) eqn:E; [|reflexivity].
      apply String.eqb_eq in E. subst x. now rewrite Hin in Hx.
    + pose proof Hin as Hin'. apply setHas_false in Hin'.
      rewrite (mapSet_fresh _ _ _ Hin'). unfold mapKeys at 1 2.
      rewrite map_app. cbn [map fst]. rewrite <- app_assoc. f_equal.
      cbn [filter app]. rewrite Hin. cbn [negb]. f_equal.
      rewrite filter_filter_and. apply filter_ext. intro x.
      unfold setHas. rewrite existsb_app. cbn [existsb].
      rewrite orb_false_r, negb_orb.
      now rewrite (String.eqb_sym x (key v)).
Qed.

Lemma flat_map_same {A B : Type} (f g : A -> list B) (l : list A) :
  (forall x, In x l -> f x = g x) -> flat_map f l = flat_map g l.
Proof.
  induction l as [|x l IH]; [reflexivity|]. intro H. cbn.
  rewrite (H x) by now left. f_equal. apply IH. intros y Hy. apply H.
  now right.
Qed.

Lemma values_by_keys {V : Type} (m : list (string * V)) :
  NoDup (mapKeys m) ->
  mapValues m
  = flat_map (fun k => match mapGet k m with
                       | Some v => [v]
                       | None => []
                       end)
      (mapKeys m).
Proof.
  induction m as [|[k0 v0] m IH]; [reflexivity|]. intro Hnd.
  inversion Hnd as [|? ? Hk0 Hm]; subst.
  cbn [mapValues mapKeys map fst snd flat_map mapGet].
  rewrite String.eqb_refl. cbn [app]. f_equal.
  fold (mapValues m). fold (mapKeys m). rewrite (IH Hm).
  apply flat_map_same. intros k Hk.
  destruct (String.eqb k k0) eqn:E; [|reflexivity].
  apply String.eqb_eq in E. subst. contradiction.
Qed.

Lemma allIconsMap_values (existing incoming : list IconIdentity) :
  mapValues (Earlier.allIconsMap existing incoming)
  = mergedValues existing incoming.
Proof.
  destruct (allIconsMap_invariant existing incoming) as [Hnd _].
  rewrite (values_by_keys _ Hnd). unfold mergedValues.
  assert (E : Earlier.allIconsMap existing incoming
              = setAll componentName (existing ++ incoming) []).
  { unfold Earlier.allIconsMap, setAll. now rewrite fold_left_app. }
  rewrite E, mapKeys_setAll. cbn [mapKeys map app setHas existsb negb].
  assert (Hall : forall l : list string, filter (fun _ => true) l = l)
    by (induction l as [|x l IHl]; cbn; congruence).
  rewrite Hall. apply flat_map_ext. intro k.
  rewrite mapGet_setAll. cbn [mapGet].
  change (lastNamed k (existing ++ incoming))
    with (lastWith componentName k (existing ++ incoming)).
  now destruct (lastWith componentName k (existing ++ incoming)).
Qed.

(** C2.  The merge of the earlier script sets the existing icons, then the
    incoming ones, in a map keyed by component name, and returns the values
    of the map sorted ascending by base name under [localeCompare], whichever
    consistent comparison the runtime provides.  The values of the map are
    one icon for each component name, in the order in which the names first
    occur in [existing ++ incoming], each name with the last icon that
    carries it.  The result is sorted for the comparison, is a permutation
    of the values, keeps the values of equal base names in the order of the
    map, and is the only list that does; it has no component name twice,
    holds for each component name the last icon of [existing ++ incoming]
    that carries it, and so the incoming icon on a collision. *)
Theorem merge_last_write_wins (c : Collator)
  (existing incoming : list IconIdentity) :
  let merged := Earlier.allIcons c existing incoming in
  let values := mergedValues existing incoming in
  mapValues (Earlier.allIconsMap existing incoming) = values
  /\ StronglySorted (iconLe c) merged
  /\ Permutation merged values
  /\ (forall b, filter (tied c b) merged = filter (tied c b) values)
  /\ (forall sorted, stablySorted c values sorted -> sorted = merged)
  /\ NoDup (map componentName merged)
  /\ (forall icon, In icon merged <->
        lastNamed (componentName icon) (existing ++ incoming) = Some icon)
  /\ (forall icon other, In icon merged -> In other incoming ->
        componentName other = componentName icon ->
        lastNamed (componentName icon) incoming = Some icon).
Proof.
  cbn zeta.
  assert (Hst : stablySorted c (mergedValues existing incoming)
                  (Earlier.allIcons c existing incoming)).
  { unfold Earlier.allIcons. rewrite allIconsMap_values.
    apply sortIcons_stablySorted. }
  split; [apply allIconsMap_values|].
  split; [apply Hst|]. split; [apply Hst|]. split; [apply Hst|].
  split; [|split; [|split]].
  - intros sorted Hs. now apply (stablySorted_unique c _ _ _ Hs Hst).
  - destruct (allIconsMap_invariant existing incoming) as [Hnd Hk].
    apply (Permutation_NoDup
             (l := map componentName
                     (mapValues (Earlier.allIconsMap existing incoming)))).
    + apply Permutation_map. symmetry. apply sortBy_Permutation.
    + now rewrite keyed_values_keys.
  - intro icon. rewrite lastNamed_lastWith. apply in_allIcons.
  - intros icon other Hin Hother Hname. rewrite lastNamed_lastWith.
    apply in_allIcons in Hin.
    rewrite lastWith_app in Hin.
    destruct (lastWith componentName (componentName icon) incoming) eqn:E;
      [exact Hin|].
    exfalso. clear Hin. unfold lastWith in E.
    apply in_split in Hother. destruct Hother as [l1 [l2 ->]].
    rewrite fold_left_app in E. cbn in E.
    rewrite Hname, String.eqb_refl in E.
    rewrite lastWith_fold in E.
    destruct (lastWith componentName (componentName icon) l2); discriminate.
Qed.

(** C9.  For icons with pairwise distinct component names, merging them
    with no incoming icon, or merging no existing icon with them, gives
    the icons sorted by base name: a list sorted ascending for the
    comparison, a permutation of the icons, with the icons of equal base
    names in the order they had, and the only such list, which is also what
    [sort] returns for the icons. *)
Theorem merge_with_empty (c : Collator) (X : list IconIdentity) :
  NoDup (map componentName X) ->
  let sorted := Earlier.allIcons c X [] in
  Earlier.allIcons c [] X = sorted
  /\ StronglySorted (iconLe c) sorted
  /\ Permutation sorted X
  /\ (forall b, filter (tied c b) sorted = filter (tied c b) X)
  /\ (forall other, stablySorted c X other -> other = sorted)
  /\ sorted = sortIcons c X.
Proof.
  intro Hnd. cbn zeta. unfold Earlier.allIcons.
  assert (E : mapValues (setAll componentName X []) = X).
  { rewrite setAll_fresh; [|exact Hnd|intros v _ []].
    cbn. unfold mapValues. rewrite map_map. cbn. apply map_id. }
  assert (E1 : mapValues (Earlier.allIconsMap X []) = X).
  { rewrite allIconsMap_setAll. cbn [setAll fold_left].
    fold (setAll componentName X []). exact E. }
  assert (E2 : mapValues (Earlier.allIconsMap [] X) = X).
  { rewrite allIconsMap_setAll. cbn [setAll fold_left].
    fold (setAll componentName X []). exact E. }
  rewrite E1, E2.
  destruct (sortIcons_stablySorted c X) as [H1 [H2 H3]].
  repeat split; auto.
  intros other Ho.
  apply (stablySorted_unique c X); [exact Ho | apply sortIcons_stablySorted].
Qed.

(** ** The type artifact and the order of supply *)






















(** ** Regenerate mode *)

Lemma sortIcons_two (c : Collator) (a b : IconIdentity) :
  localeCompare c (baseName a) (baseName b) = Lt ->
  sortIcons c [a; b] = [a; b] /\ sortIcons c [b; a] = [a; b].
Proof.
  intro H. unfold sortIcons, sortBy, isAfter. cbn.
  rewrite H, (localeCompare_sym c (baseName a) (baseName b)), H. cbn. auto.
Qed.

(** C5.  In regenerate mode the current script leaves the components
    directory as it is, uses nothing of the environment but the collation
    and the loader template, exits with code 0, and, when the scan finds an
    icon, writes the type artifact of the sorted scan and the loader.  For
    a directory that holds exactly [ArrowLeft.svelte] and [LogoMain.svelte]
    the artifact's icons are the two identities [arrow-left]/[ArrowLeft]
    and [logo-main]/[LogoMain], its union lists [arrow-left] and
    [logo-main], and with [arrow-left] collated before [logo-main] the text
    is [arrowLogoTypes]. *)
Theorem regenerate_from_scan (env : Environment) (fs : FileSystem) :
  let fs' := Current.regenerateFilesFromComponents env fs in
  let icons := getCurrentIconsFromComponents (listing fs) in
  components fs' = components fs
  /\ (forall env', collator env' = collator env ->
        createSvgIconLoaderComponent env' = createSvgIconLoaderComponent env ->
        Current.regenerateFilesFromComponents env' fs = fs')
  /\ Current.run env (mkArgv true false []) fs = mkOutcome 0 fs'
  /\ (icons <> [] ->
        typesFile fs'
        = Some (Current.typeContent (sortIcons (collator env) icons))
        /\ loaderFile fs' = Some (createSvgIconLoaderComponent env))
  /\ (forall d, components fs = Some d ->
        Permutation (readdir d) ["ArrowLeft.svelte"; "LogoMain.svelte"] ->
        (exists sorted,
           typesFile fs' = Some (Current.typeContent sorted)
           /\ Permutation sorted
                [mkIcon "arrow-left" "ArrowLeft"; mkIcon "logo-main" "LogoMain"]
           /\ uniqueIconBaseNames sorted = ["arrow-left"; "logo-main"])
        /\ (localeCompare (collator env) "arrow-left" "logo-main" = Lt ->
            typesFile fs' = Some arrowLogoTypes)).
Proof.
  cbn zeta. unfold Current.regenerateFilesFromComponents.
  split; [|split; [|split; [|split]]].
  - destruct (List.length _ =? 0)%nat; reflexivity.
  - intros env' Hc Hl. rewrite Hc.
    destruct (List.length _ =? 0)%nat; [reflexivity|].
    unfold Current.writeAggregates. now rewrite Hl.
  - reflexivity.
  - intro Hne. destruct (getCurrentIconsFromComponents (listing fs));
      [contradiction|]. cbn. auto.
  - intros d Hd HP. unfold listing. rewrite Hd. cbn [option_map].
    apply Permutation_sym, Permutation_length_2_inv in HP.
    destruct HP as [E|E]; rewrite E.
    + change (getCurrentIconsFromComponents
                (Some ["ArrowLeft.svelte"; "LogoMain.svelte"]))
        with [mkIcon "arrow-left" "ArrowLeft"; mkIcon "logo-main" "LogoMain"].
      cbn [List.length Nat.eqb]. split.
      * eexists. split; [reflexivity|]. split.
        -- apply sortIcons_Permutation.
        -- now rewrite (uniqueIconBaseNames_permutation _ _
                          (sortIcons_Permutation _ _)).
      * intro Hlt.
        now rewrite (proj1 (sortIcons_two (collator env)
                              (mkIcon "arrow-left" "ArrowLeft")
                              (mkIcon "logo-main" "LogoMain") Hlt)).
    + change (getCurrentIconsFromComponents
                (Some ["LogoMain.svelte"; "ArrowLeft.svelte"]))
        with [mkIcon "logo-main" "LogoMain"; mkIcon "arrow-left" "ArrowLeft"].
      cbn [List.length Nat.eqb]. split.
      * eexists. split; [reflexivity|]. split.
        -- rewrite sortIcons_Permutation. apply perm_swap.
        -- now rewrite (uniqueIconBaseNames_permutation _ _
                          (sortIcons_Permutation _ _)).
      * intro Hlt.
        now rewrite (proj2 (sortIcons_two (collator env)
                              (mkIcon "arrow-left" "ArrowLeft")
                              (mkIcon "logo-main" "LogoMain") Hlt)).
Qed.

(** With sources to process, [run] prepares the directories, goes through
    the sources and the conflicts, and aggregates. *)
Lemma run_processes_sources (env : Environment) (argv : Argv) (fs : FileSystem)
  (sources : list Source) :
  (if (0 <? List.length (input argv))%nat
   then Inputs.resolveInputSources (world env) (input argv)
   else Some (interactiveSources env)) = Some sources ->
  regenerate argv = false -> sources <> [] ->
  prepareDirectoriesFails env = false ->
  Current.run env argv fs
  = mkOutcome 0
      (Current.aggregate env
         (Current.withComponents
            (dir (Current.processAll env (clean argv) sources
                    (Current.prepareDirectories (clean argv) fs)))
            fs)).
Proof.
  intros Hres Hr Hs Hp. unfold Current.run. rewrite Hr, Hp, Hres.
  cbn [andb negb].
  destruct sources; [contradiction | reflexivity].
Qed.

(** ** Exit codes *)

(** The loop over the inputs started with some sources gives them back in
    front of the sources of the inputs. *)
Lemma pushNamed_app (label : string) (source : IconIdentity -> Source)
  (sources : list Source) :
  Inputs.pushNamed label source sources
  = (sources ++ Inputs.pushNamed label source [])%list.
Proof.
  unfold Inputs.pushNamed. destruct (sanitizeName label); cbn;
    [reflexivity | now rewrite app_nil_r].
Qed.

Lemma pushAll_app (label : string -> string)
  (source : string -> IconIdentity -> Source) (files : list string)
  (sources : list Source) :
  fold_left (fun sources file =>
               Inputs.pushNamed (label file) (source file) sources)
    files sources
  = (sources
     ++ fold_left (fun sources file =>
                     Inputs.pushNamed (label file) (source file) sources)
          files [])%list.
Proof.
  revert sources. induction files as [|f files IH]; intro sources; cbn.
  - now rewrite app_nil_r.
  - rewrite IH, (IH (Inputs.pushNamed _ _ [])), app_assoc. f_equal.
    apply pushNamed_app.
Qed.

Lemma resolveInput_app (w : Inputs.World) (sources : list Source)
  (input : string) :
  Inputs.resolveInput w sources input
  = (sources ++ Inputs.resolveInput w [] input)%list.
Proof.
  unfold Inputs.resolveInput.
  destruct (_ || _).
  - destruct (Inputs.fetchSvgContent w input) as [[content name]|];
      [|now rewrite app_nil_r].
    destruct (negb (isEmpty content)); [|now rewrite app_nil_r].
    apply pushNamed_app.
  - destruct (negb _); [now rewrite app_nil_r|].
    destruct (Inputs.stat w _) as [stats|]; [|now rewrite app_nil_r].
    destruct (_ && _); [apply pushNamed_app|].
    destruct (Inputs.isDirectory stats); [|now rewrite app_nil_r].
    destruct (Inputs.globSvg w _) as [files|]; [|now rewrite app_nil_r].
    apply (pushAll_app (Inputs.basename w)
             (fun file => mkSource FileSource (Inputs.relative w file) file)).
Qed.

Lemma resolveInputs_app (w : Inputs.World) (inputs : list Inputs.InputValue)
  (sources : list Source) :
  Inputs.resolveInputs w sources inputs
  = option_map (app sources) (Inputs.resolveInputSources w inputs).
Proof.
  unfold Inputs.resolveInputSources. revert sources.
  induction inputs as [|[i|n] inputs IH]; intro sources; cbn.
  - now rewrite app_nil_r.
  - rewrite IH, (IH (Inputs.resolveInput w [] i)), (resolveInput_app w sources).
    destruct (Inputs.resolveInputs w [] inputs); cbn; [|reflexivity].
    now rewrite app_assoc.
  - reflexivity.
Qed.



(** * Processing the sources and the write conflicts *)

(** ** The components directory *)

Lemma append_inv_tail (a b x : string) : a ++ x = b ++ x -> a = b.
Proof.
  intro H. apply units_inj. apply (f_equal Units.units) in H.
  rewrite !units_append in H. now apply app_inv_tail in H.
Qed.

Lemma outputSvelteName_inj (s s' : Source) :
  outputSvelteName s = outputSvelteName s' ->
  componentName (identity s) = componentName (identity s').
Proof. apply append_inv_tail. Qed.

Lemma readFile_writeFile (f t c : string) (d : Directory) :
  readFile f (writeFile t c d) = if String.eqb f t then Some c else readFile f d.
Proof. apply mapGet_mapSet. Qed.

Lemma pathExists_readFile (f : string) (d : Directory) :
  pathExists f d = match readFile f d with Some _ => true | None => false end.
Proof.
  unfold pathExists, readFile, mapHas.
  induction d as [|[k v] d IH]; cbn; [reflexivity|].
  destruct (String.eqb f k); [reflexivity | exact IH].
Qed.

Lemma pathExists_writeFile (f t c : string) (d : Directory) :
  pathExists f (writeFile t c d) = String.eqb f t || pathExists f d.
Proof.
  rewrite !pathExists_readFile, readFile_writeFile.
  destruct (String.eqb f t); reflexivity.
Qed.

Lemma readdir_In (f : string) (d : Directory) :
  In f (readdir d) <-> In f (mapKeys d).
Proof. apply sortBy_In. Qed.

Lemma readdir_writeFile (t c : string) (d : Directory) :
  incl (readdir d) (readdir (writeFile t c d)).
Proof.
  intros f Hf. apply readdir_In. apply readdir_In in Hf.
  now apply (mapKeys_mapSet t c d).
Qed.

(** ** One source at a time *)

Section Steps.
Variable env : Environment.

(** What [generate] leaves alone. *)
Lemma generate_conflicts (s : Source) (st : RunState) :
  conflicts (generate env s st) = conflicts st.
Proof. unfold generate. destruct (processSvgSource env s); reflexivity. Qed.

Lemma generate_readdir (s : Source) (st : RunState) :
  incl (readdir (dir st)) (readdir (dir (generate env s st))).
Proof.
  unfold generate. destruct (processSvgSource env s); cbn.
  - apply readdir_writeFile.
  - apply incl_refl.
Qed.

Lemma generate_processed (s : Source) (st : RunState) (n : string) :
  In n (processedComponentNamesInRun (generate env s st)) ->
  n = componentName (identity s) \/ In n (processedComponentNamesInRun st).
Proof.
  unfold generate. destruct (processSvgSource env s); cbn.
  - apply setAdd_In.
  - now right.
Qed.

Lemma generate_processed_mono (s : Source) (st : RunState) (n : string) :
  In n (processedComponentNamesInRun st) ->
  In n (processedComponentNamesInRun (generate env s st)).
Proof.
  unfold generate. destruct (processSvgSource env s); cbn; [|auto].
  intro H. apply setAdd_In. now right.
Qed.

(** A file written in this run under a name the set holds. *)
Definition settled (n content : string) (st : RunState) : Prop :=
  In n (processedComponentNamesInRun st)
  /\ readFile (n ++ ".svelte") (dir st) = Some content.

Lemma generate_settled (s : Source) (st : RunState) (n content : string) :
  setHas (componentName (identity s)) (processedComponentNamesInRun st)
  = false ->
  settled n content st -> settled n content (generate env s st).
Proof.
  intros Hs [Hn Hf]. split; [now apply generate_processed_mono|].
  unfold generate. destruct (processSvgSource env s); cbn; [|exact Hf].
  rewrite readFile_writeFile.
  destruct (String.eqb (n ++ ".svelte") (outputSvelteName s)) eqn:E;
    [|exact Hf].
  apply String.eqb_eq, append_inv_tail in E. subst n.
  apply setHas_false in Hs. contradiction.
Qed.

Lemma generate_written (s : Source) (st : RunState) (content : string) :
  processSvgSource env s = Some content ->
  settled (componentName (identity s)) content (generate env s st)
  /\ In (identity s) (newlyGeneratedIcons (generate env s st)).
Proof.
  intro H. unfold generate, settled. rewrite H. cbn. repeat split.
  - apply setAdd_In. now left.
  - rewrite readFile_writeFile. unfold outputSvelteName.
    now rewrite String.eqb_refl.
  - apply in_or_app. right. now left.
Qed.


Variable argvClean : bool.

Lemma processSource_settled (s : Source) (st : RunState) (n content : string) :
  settled n content st ->
  settled n content (Current.processSource env argvClean st s).
Proof.
  intro H. unfold Current.processSource.
  destruct (setHas _ _) eqn:Hs; [exact H|].
  destruct (if negb argvClean then _ else false); [exact H|].
  now apply generate_settled.
Qed.

Lemma overwriteConflict_settled (s : Source) (st : RunState)
  (n content : string) :
  settled n content st ->
  settled n content (Current.overwriteConflict env st s).
Proof.
  intro H. unfold Current.overwriteConflict.
  destruct (setHas _ _) eqn:Hs; [exact H|]. now apply generate_settled.
Qed.

Lemma fold_settled (step : RunState -> Source -> RunState)
  (n content : string) :
  (forall s st, settled n content st -> settled n content (step st s)) ->
  forall l st, settled n content st -> settled n content (fold_left step l st).
Proof.
  intros Hstep l. induction l as [|s l IH]; intros st H; cbn; auto.
Qed.

Lemma handleConflicts_settled (st : RunState) (n content : string) :
  settled n content st -> settled n content (Current.handleConflicts env st).
Proof.
  intro H. unfold Current.handleConflicts.
  destruct (0 <? _)%nat; [|exact H].
  destruct (overwriteAnswer env); [|exact H].
  apply fold_settled; [|exact H].
  intros s st'. apply overwriteConflict_settled.
Qed.
End Steps.

(** C3.  In a batch [pre ++ s1 :: mid ++ s2 :: post] where [s1] is generated
    in the loop over the sources (its component name is not yet in the set
    of the run, its target is free or [--clean] is set, and rendering
    succeeds) and [s2] has the component name of [s1]: the step on [s2] only
    increments the error count, writing nothing and recording nothing, and
    the file written for [s1] holds its content when [s2] is reached and at
    the end of the run, past the overwrite loop. *)
Theorem duplicate_of_generated_is_rejected (env : Environment)
  (argvClean : bool) (d0 : Directory) (pre mid post : list Source)
  (s1 s2 : Source) (content : string) :
  let step := Current.processSource env argvClean in
  let stPre := fold_left step pre (initialState d0) in
  let stMid := fold_left step (pre ++ s1 :: mid) (initialState d0) in
  componentName (identity s2) = componentName (identity s1) ->
  setHas (componentName (identity s1)) (processedComponentNamesInRun stPre)
  = false ->
  (if negb argvClean then pathExists (outputSvelteName s1) (dir stPre)
   else false) = false ->
  processSvgSource env s1 = Some content ->
  step stMid s2 = countError stMid
  /\ errorCount (step stMid s2) = S (errorCount stMid)
  /\ dir (step stMid s2) = dir stMid
  /\ newlyGeneratedIcons (step stMid s2) = newlyGeneratedIcons stMid
  /\ readFile (outputSvelteName s1) (dir stMid) = Some content
  /\ readFile (outputSvelteName s1)
       (dir (Current.processAll env argvClean
               (pre ++ s1 :: mid ++ s2 :: post) d0))
     = Some content.
Proof.
  cbn zeta. intros Hname Hfresh Hfree Hrender.
  set (step := Current.processSource env argvClean) in *.
  set (stPre := fold_left step pre (initialState d0)) in *.
  assert (H1 : settled (componentName (identity s1)) content (step stPre s1)).
  { unfold step, Current.processSource. rewrite Hfresh, Hfree.
    now apply generate_written. }
  assert (Hmid : settled (componentName (identity s1)) content
                   (fold_left step (pre ++ s1 :: mid) (initialState d0))).
  { rewrite fold_left_app. cbn [fold_left]. fold stPre.
    apply fold_settled; [|exact H1].
    intros s st. apply processSource_settled. }
  set (stMid := fold_left step (pre ++ s1 :: mid) (initialState d0)) in *.
  assert (Hstep : step stMid s2 = countError stMid).
  { unfold step, Current.processSource. rewrite Hname.
    destruct Hmid as [Hin _]. apply setHas_In in Hin. now rewrite Hin. }
  rewrite Hstep. repeat split; try reflexivity.
  - apply Hmid.
  - unfold Current.processAll.
    apply (handleConflicts_settled env _ (componentName (identity s1))).
    replace (pre ++ s1 :: mid ++ s2 :: post)%list
      with ((pre ++ s1 :: mid) ++ s2 :: post)%list
      by (rewrite <- app_assoc; reflexivity).
    rewrite fold_left_app. fold step. fold stMid.
    apply fold_settled; [|exact Hmid].
    intros s st. apply processSource_settled.
Qed.

(** The earlier script rejects the duplicate in the same way; its loop has
    no other branch that writes. *)
Lemma earlier_duplicate_of_generated (env : Environment) (d0 : Directory)
  (pre mid post : list Source) (s1 s2 : Source) (content : string) :
  let step := Earlier.processSource env in
  let stPre := fold_left step pre (initialState d0) in
  let stMid := fold_left step (pre ++ s1 :: mid) (initialState d0) in
  componentName (identity s2) = componentName (identity s1) ->
  setHas (componentName (identity s1)) (processedComponentNamesInRun stPre)
  = false ->
  processSvgSource env s1 = Some content ->
  step stMid s2 = countError stMid
  /\ readFile (outputSvelteName s1)
       (dir (fold_left step (pre ++ s1 :: mid ++ s2 :: post) (initialState d0)))
     = Some content.
Proof.
  cbn zeta. intros Hname Hfresh Hrender.
  set (step := Earlier.processSource env) in *.
  set (stPre := fold_left step pre (initialState d0)) in *.
  assert (Hkeep : forall s st n c,
            settled n c st -> settled n c (step st s)).
  { intros s st n c H. unfold step, Earlier.processSource.
    destruct (setHas (componentName (identity s))
                (processedComponentNamesInRun st)) eqn:E;
      [exact H | now apply generate_settled]. }
  assert (Hmid : settled (componentName (identity s1)) content
                   (fold_left step (pre ++ s1 :: mid) (initialState d0))).
  { rewrite fold_left_app. cbn [fold_left]. fold stPre.
    apply fold_settled; [intros s st; apply Hkeep|].
    unfold step, Earlier.processSource. rewrite Hfresh.
    now apply generate_written. }
  split.
  - unfold step at 1, Earlier.processSource. rewrite Hname.
    destruct Hmid as [Hin _]. apply setHas_In in Hin. now rewrite Hin.
  - replace (pre ++ s1 :: mid ++ s2 :: post)%list
      with ((pre ++ s1 :: mid) ++ s2 :: post)%list
      by (rewrite <- app_assoc; reflexivity).
    rewrite fold_left_app.
    apply (fold_settled step (componentName (identity s1)) content);
      [intros s st; apply Hkeep | exact Hmid].
Qed.

(** ** Write conflicts *)

Section Conflicts.
Variable env : Environment.
Variable d0 : Directory.

(** What holds of the state while the sources are gone through without
    [--clean]. *)
Record firstPass (st : RunState) : Prop :=
  { existing_untouched :
      forall f, pathExists f d0 = true ->
                readFile f (dir st) = readFile f d0;
    processed_were_free :
      forall n, In n (processedComponentNamesInRun st) ->
                pathExists (n ++ ".svelte") d0 = false;
    generated_are_processed :
      forall i, In i (newlyGeneratedIcons st) ->
                In (componentName i) (processedComponentNamesInRun st);
    conflicts_existed :
      forall s, In s (conflicts st) ->
                pathExists (outputSvelteName s) d0 = true;
    written_by_run :
      forall f, pathExists f (dir st) = true ->
                pathExists f d0 = true
                \/ exists n, In n (processedComponentNamesInRun st)
                             /\ f = n ++ ".svelte";
    listing_grows : incl (readdir d0) (readdir (dir st)) }.

Lemma firstPass_initial : firstPass (initialState d0).
Proof.
  constructor; cbn; try contradiction; auto.
  apply incl_refl.
Qed.

Lemma firstPass_generate (s : Source) (st : RunState) :
  firstPass st ->
  setHas (componentName (identity s)) (processedComponentNamesInRun st)
  = false ->
  pathExists (outputSvelteName s) (dir st) = false ->
  firstPass (generate env s st).
Proof.
  intros [H1 H2 H3 H4 H5 H6] Hfresh Hfree.
  assert (Hfree0 : pathExists (outputSvelteName s) d0 = false).
  { destruct (pathExists (outputSvelteName s) d0) eqn:E; [|reflexivity].
    rewrite pathExists_readFile, (H1 _ E), <- pathExists_readFile in Hfree.
    congruence. }
  unfold generate. destruct (processSvgSource env s) as [content|];
    [|now constructor].
  constructor;
    cbn [dir newlyGeneratedIcons conflicts processedComponentNamesInRun
           recordWritten].
  - intros f Hf. rewrite readFile_writeFile.
    destruct (String.eqb f (outputSvelteName s)) eqn:E; [|auto].
    apply String.eqb_eq in E. congruence.
  - intros n Hn. apply setAdd_In in Hn. destruct Hn as [->|Hn]; auto.
  - intros i Hi. apply setAdd_In. apply in_app_or in Hi.
    destruct Hi as [Hi|[<-|[]]]; auto.
  - exact H4.
  - intros f Hf. rewrite pathExists_writeFile in Hf.
    apply orb_prop in Hf. destruct Hf as [Hf|Hf].
    + apply String.eqb_eq in Hf. right.
      exists (componentName (identity s)). split; [|exact Hf].
      apply setAdd_In. now left.
    + destruct (H5 f Hf) as [H|[n [Hn E]]]; [now left|].
      right. exists n. split; [|exact E]. apply setAdd_In. now right.
  - eapply incl_tran; [exact H6 | apply readdir_writeFile].
Qed.

Lemma firstPass_step (s : Source) (st : RunState) :
  firstPass st -> firstPass (Current.processSource env false st s).
Proof.
  intro H. unfold Current.processSource.
  destruct (setHas _ _) eqn:Hfresh; [destruct H; now constructor|].
  cbn [negb]. destruct (pathExists _ _) eqn:Hex.
  - destruct H as [H1 H2 H3 H4 H5 H6]. constructor; cbn; auto.
    intros s' Hs'. apply in_app_or in Hs'.
    destruct Hs' as [Hs'|[<-|[]]]; [auto|].
    destruct (H5 _ Hex) as [Hd|[n [Hn E]]]; [exact Hd|].
    apply append_inv_tail in E. rewrite <- E in Hn.
    apply setHas_false in Hfresh. contradiction.
  - now apply firstPass_generate.
Qed.

Lemma firstPass_fold (l : list Source) (st : RunState) :
  firstPass st ->
  firstPass (fold_left (Current.processSource env false) l st).
Proof.
  revert st. induction l as [|s l IH]; intros st H; cbn; [exact H|].
  apply IH. now apply firstPass_step.
Qed.



(** The overwrite loop. *)
Lemma overwrite_processed (l : list Source) (st : RunState) (n : string) :
  In n (processedComponentNamesInRun
          (fold_left (Current.overwriteConflict env) l st)) ->
  In n (processedComponentNamesInRun st)
  \/ exists s, In s l /\ componentName (identity s) = n.
Proof.
  revert st. induction l as [|x l IH]; intros st H; cbn in *; [now left|].
  apply IH in H. destruct H as [H|[s [Hs E]]]; [|right; eauto].
  unfold Current.overwriteConflict in H.
  destruct (setHas _ _); [now left|].
  apply generate_processed in H. destruct H as [->|H]; [|now left].
  right. eauto.
Qed.






Lemma overwrite_readdir (l : list Source) (st : RunState) :
  incl (readdir (dir st))
    (readdir (dir (fold_left (Current.overwriteConflict env) l st))).
Proof.
  revert st. induction l as [|x l IH]; intro st; cbn; [apply incl_refl|].
  eapply incl_tran; [|apply IH]. unfold Current.overwriteConflict.
  destruct (setHas _ _); [apply incl_refl | apply generate_readdir].
Qed.

Lemma handleConflicts_readdir (st : RunState) :
  incl (readdir (dir st)) (readdir (dir (Current.handleConflicts env st))).
Proof.
  unfold Current.handleConflicts.
  destruct (0 <? _)%nat; [|apply incl_refl].
  destruct (overwriteAnswer env); [apply overwrite_readdir | apply incl_refl].
Qed.
End Conflicts.




(** * Contracts of the name resolver and the scanner; sample runs *)

(** A world without network in which the files of [disk] lie in the working
    directory, next to the directory [icons] that holds the files of
    [inIcons]. *)
Definition sampleWorld (disk inIcons : list string) : Inputs.World :=
  Inputs.mkWorld (fun _ => None) (fun _ => None) "graphic-0"
    (fun input => input)
    (fun path => setHas path disk || String.eqb path "icons")
    (fun path =>
       Some (Inputs.mkStats (setHas path disk) (String.eqb path "icons")))
    (fun path => path)
    (fun _ => Some inIcons)
    (fun file => file).

(** An environment in which the files of [disk] exist, the files of [broken]
    cannot be optimized and the operator gives [answer]. *)
Definition sampleEnvironment (disk broken : list string) (answer : bool)
  : Environment :=
  mkEnvironment rootCollator (sampleRender broken) "<loader/>"
    (sampleWorld disk []) [] answer false.

Example twoSpellings_same_component :
  map identity twoSpellings
  = [mkIcon "my-icon" "MyIcon"; mkIcon "my_icon" "MyIcon"].
Proof. reflexivity. Qed.

(** ** The name resolver *)

(** C6.  [sanitizeName] computes what the specification says of
    [deriveIdentity]: the base name is the label with a trailing
    case-insensitive [.svg] stripped, every unit outside [[A-Za-z0-9_-]]
    replaced by a hyphen, runs of hyphens collapsed, leading and trailing
    hyphens trimmed, and lower-cased; the result is null exactly when this
    base name is empty, as for the labels [""], [".svg"] and ["---"];
    otherwise the component name is the base name split on hyphen and low
    line with the first unit of each segment upper-cased and the segments
    concatenated.  [Spec.deriveIdentity] has its own alphabets and its own
    change of case; four labels show the values, every letter in both
    cases among them. *)
Theorem sanitizeName_contract (name : string) :
  sanitizeName name = Spec.deriveIdentity name
  /\ (sanitizeName name = None <-> Spec.baseNameOf name = "")
  /\ (forall id, sanitizeName name = Some id ->
        baseName id = Spec.baseNameOf name
        /\ componentName id = Spec.componentIdentifierOf (baseName id))
  /\ sanitizeName "" = None
  /\ sanitizeName ".svg" = None
  /\ sanitizeName "---" = None
  /\ sanitizeName "My Icon.SVG" = Some (mkIcon "my-icon" "MyIcon")
  /\ sanitizeName "--Arrow__left 2X!.Svg"
     = Some (mkIcon "arrow__left-2x" "ArrowLeft2x")
  /\ sanitizeName "ABCDEFGHIJKLMNOPQRSTUVWXYZ"
     = Some (mkIcon "abcdefghijklmnopqrstuvwxyz" "Abcdefghijklmnopqrstuvwxyz")
  /\ sanitizeName "a-b-c-d-e-f-g-h-i-j-k-l-m-n-o-p-q-r-s-t-u-v-w-x-y-z"
     = Some (mkIcon "a-b-c-d-e-f-g-h-i-j-k-l-m-n-o-p-q-r-s-t-u-v-w-x-y-z"
               "ABCDEFGHIJKLMNOPQRSTUVWXYZ").
Proof.
  rewrite sanitizeName_deriveIdentity, deriveIdentity_units.
  unfold Spec.deriveIdentity.
  split; [reflexivity|]. split; [|split; [|repeat split]].
  - destruct (String.eqb (Spec.baseNameOf name) "") eqn:E.
    + apply String.eqb_eq in E. split; auto.
    + apply String.eqb_neq in E. split; [discriminate | contradiction].
  - intros id H. destruct (String.eqb (Spec.baseNameOf name) "");
      [discriminate|]. inversion H. cbn. auto.
Qed.

(** ** Round trip *)

(** C1.  For every raw label on which [sanitizeName] succeeds and whose base
    name has no low line and, behind each hyphen, a segment that begins with
    a letter, [componentNameToBaseName] applied to the component name
    returns exactly that base name. *)
Theorem roundtrip_hyphenated_words (label : string) (id : IconIdentity) :
  sanitizeName label = Some id ->
  hyphenatedWords (baseName id) = true ->
  componentNameToBaseName (componentName id) = Some (baseName id).
Proof.
  unfold sanitizeName.
  set (b := toLowerCase _).
  destruct (isEmpty b) eqn:Hne; [discriminate|].
  intros H Hw. inversion H; subst id. cbn [baseName componentName] in *.
  apply recover_hyphenatedWords; try assumption.
  - apply toLowerCase_noUpper.
  - apply trimHyphens_head.
Qed.

(** C1 on the label [my-icon.svg]: base name [my-icon], component name
    [MyIcon], recovered base name [my-icon]. *)
Lemma roundtrip_my_icon :
  sanitizeName "my-icon.svg" = Some (mkIcon "my-icon" "MyIcon")
  /\ componentNameToBaseName "MyIcon" = Some "my-icon".
Proof.
  split; [reflexivity|].
  exact (roundtrip_hyphenated_words "my-icon.svg" (mkIcon "my-icon" "MyIcon")
           eq_refl eq_refl).
Defined.

(** C1 on the label [my_icon.svg]: the component name [MyIcon] has no two
    adjacent upper case letters, yet the base name [my_icon] is recovered as
    [my-icon]. *)
Lemma roundtrip_underscore_lost :
  sanitizeName "my_icon.svg" = Some (mkIcon "my_icon" "MyIcon")
  /\ noConsecutiveUpper "MyIcon" = true
  /\ componentNameToBaseName "MyIcon" = Some "my-icon"
  /\ String.eqb "my-icon" "my_icon" = false.
Proof. repeat split. Qed.

(** ** Scanned identities *)

(** C10.  The scanner accepts every entry that ends in [.svelte], whatever
    the case, and whose stem is neither empty nor the single hyphen; the
    stem is the component name as it stands.  For a stem without upper case
    letters that does not begin with a hyphen the base name is the stem
    itself, and the identity is among the icons of the regenerated type
    artifact. *)
Theorem scanner_takes_stem_verbatim (env : Environment) (fs : FileSystem)
  (files : list string) (file : string) :
  let stem := stripSuffixCI ".svelte" file in
  listing fs = Some files ->
  In file files ->
  endsWithCI ".svelte" file = true ->
  isEmpty stem = false ->
  String.eqb stem "-" = false ->
  exists b,
    componentNameToBaseName stem = Some b
    /\ In (mkIcon b stem) (getCurrentIconsFromComponents (Some files))
    /\ (noUpper stem = true -> startsWithHyphen stem = false -> b = stem)
    /\ exists icons,
         typesFile (Current.regenerateFilesFromComponents env fs)
         = Some (Current.typeContent icons)
         /\ In (mkIcon b stem) icons.
Proof.
  cbn zeta. intros Hfs Hin Hends Hne Hnot.
  set (stem := stripSuffixCI ".svelte" file) in *.
  exists (dropLeadingHyphen (hyphenateUpper 0 stem)).
  assert (Hacc : accepted file = true).
  { unfold accepted. fold stem. rewrite Hends, Hne. cbn.
    destruct (isEmpty (dropLeadingHyphen (hyphenateUpper 0 stem))) eqn:E;
      [|reflexivity].
    apply isEmpty_true, recovered_empty in E. destruct E as [E|E].
    - rewrite E in Hne. discriminate.
    - rewrite E in Hnot. discriminate. }
  assert (Hscan : In (scanned stem) (getCurrentIconsFromComponents (Some files))).
  { apply in_scan_iff. exists file. auto. }
  split; [|split; [exact Hscan|split]].
  - unfold componentNameToBaseName. now rewrite Hne.
  - apply recovered_same.
  - unfold Current.regenerateFilesFromComponents. rewrite Hfs.
    destruct (getCurrentIconsFromComponents (Some files)) as [|i l] eqn:E;
      [contradiction|].
    cbn [List.length Nat.eqb]. eexists. split; [reflexivity|].
    unfold sortIcons. now apply sortBy_In.
Qed.

(** C10 on the entry [arrow-left.svelte]. *)
Lemma scanner_arrow_left :
  exists b,
    componentNameToBaseName "arrow-left" = Some b
    /\ In (mkIcon b "arrow-left")
         (getCurrentIconsFromComponents (Some ["arrow-left.svelte"]))
    /\ (noUpper "arrow-left" = true -> startsWithHyphen "arrow-left" = false ->
        b = "arrow-left")
    /\ exists icons,
         typesFile
           (Current.regenerateFilesFromComponents
              (sampleEnvironment [] [] false)
              (mkFileSystem (Some [("arrow-left.svelte", "<svg/>")]) None None))
         = Some (Current.typeContent icons)
         /\ In (mkIcon b "arrow-left") icons.
Proof.
  exact (scanner_takes_stem_verbatim (sampleEnvironment [] [] false)
           (mkFileSystem (Some [("arrow-left.svelte", "<svg/>")]) None None)
           ["arrow-left.svelte"] "arrow-left.svelte"
           eq_refl (or_introl eq_refl) eq_refl eq_refl eq_refl).
Defined.

(** C10 on the entries [-.svelte] and [-foo.svelte]: the first has a
    non-empty stem and is skipped; the second has a stem without upper case
    letters and is scanned to the base name [foo]. *)
Lemma scanner_hyphen_stems :
  endsWithCI ".svelte" "-.svelte" = true
  /\ isEmpty (stripSuffixCI ".svelte" "-.svelte") = false
  /\ getCurrentIconsFromComponents (Some ["-.svelte"]) = []
  /\ noUpper "-foo" = true
  /\ getCurrentIconsFromComponents (Some ["-foo.svelte"])
     = [mkIcon "foo" "-foo"].
Proof. repeat split. Qed.

(** ** Merged icons *)

(** C2 on the icons of [a0.svg], [a-c.svg] and [a_b.svg], under the root
    collation, where the low line sorts before the hyphen and the digits:
    the merged list has [a_b] before [a0] and before [a-c], while the
    comparison of code units puts [a_b] after both. *)
Lemma merge_follows_collation :
  sanitizeName "a0.svg" = Some (mkIcon "a0" "A0")
  /\ sanitizeName "a_b.svg" = Some (mkIcon "a_b" "AB")
  /\ sanitizeName "a-c.svg" = Some (mkIcon "a-c" "AC")
  /\ Earlier.allIcons rootCollator [mkIcon "a0" "A0"] [mkIcon "a_b" "AB"]
     = [mkIcon "a_b" "AB"; mkIcon "a0" "A0"]
  /\ ordinalCompare (toLowerCase "a_b") (toLowerCase "a0") = Gt
  /\ Earlier.allIcons rootCollator [mkIcon "a-c" "AC"] [mkIcon "a_b" "AB"]
     = [mkIcon "a_b" "AB"; mkIcon "a-c" "AC"]
  /\ ordinalCompare (toLowerCase "a_b") (toLowerCase "a-c") = Gt.
Proof. repeat split. Qed.

(** The merge keeps icons of one base name in the order of the map: the
    existing icon stays before the incoming one. *)
Example merge_keeps_ties_in_order :
  Earlier.allIcons rootCollator [mkIcon "x" "A"] [mkIcon "x" "B"]
  = [mkIcon "x" "A"; mkIcon "x" "B"]
  /\ Earlier.allIcons rootCollator [mkIcon "x" "B"] [mkIcon "x" "A"]
     = [mkIcon "x" "B"; mkIcon "x" "A"]
  /\ Earlier.allIcons rootCollator [mkIcon "x" "A"; mkIcon "x" "B"]
       [mkIcon "y" "A"]
     = [mkIcon "x" "B"; mkIcon "y" "A"].
Proof. repeat split. Qed.

(** C9 on three icons, two of them of one base name: the merge with nothing
    is [arrow-left], then the two icons of [logo-main] in the order they
    had. *)
Lemma merge_with_empty_example :
  Earlier.allIcons rootCollator []
    [mkIcon "logo-main" "LogoMain"; mkIcon "arrow-left" "ArrowLeft";
     mkIcon "logo-main" "logo-main"]
  = [mkIcon "arrow-left" "ArrowLeft"; mkIcon "logo-main" "LogoMain";
     mkIcon "logo-main" "logo-main"]
  /\ StronglySorted (iconLe rootCollator)
       [mkIcon "arrow-left" "ArrowLeft"; mkIcon "logo-main" "LogoMain";
        mkIcon "logo-main" "logo-main"]
  /\ Permutation
       [mkIcon "arrow-left" "ArrowLeft"; mkIcon "logo-main" "LogoMain";
        mkIcon "logo-main" "logo-main"]
       [mkIcon "logo-main" "LogoMain"; mkIcon "arrow-left" "ArrowLeft";
        mkIcon "logo-main" "logo-main"]
  /\ (forall b,
        filter (tied rootCollator b)
          [mkIcon "arrow-left" "ArrowLeft"; mkIcon "logo-main" "LogoMain";
           mkIcon "logo-main" "logo-main"]
        = filter (tied rootCollator b)
            [mkIcon "logo-main" "LogoMain"; mkIcon "arrow-left" "ArrowLeft";
             mkIcon "logo-main" "logo-main"])
  /\ (forall other,
        stablySorted rootCollator
          [mkIcon "logo-main" "LogoMain"; mkIcon "arrow-left" "ArrowLeft";
           mkIcon "logo-main" "logo-main"] other ->
        other
        = [mkIcon "arrow-left" "ArrowLeft"; mkIcon "logo-main" "LogoMain";
           mkIcon "logo-main" "logo-main"])
  /\ [mkIcon "arrow-left" "ArrowLeft"; mkIcon "logo-main" "LogoMain";
      mkIcon "logo-main" "logo-main"]
     = sortIcons rootCollator
         [mkIcon "logo-main" "LogoMain"; mkIcon "arrow-left" "ArrowLeft";
          mkIcon "logo-main" "logo-main"].
Proof.
  apply (merge_with_empty rootCollator
           [mkIcon "logo-main" "LogoMain"; mkIcon "arrow-left" "ArrowLeft";
            mkIcon "logo-main" "logo-main"]).
  repeat constructor; cbn; intuition discriminate.
Defined.

(** ** Type artifact *)


(** The two files of base name [my-icon] are listed in one order whichever
    was written first, and the icons of the type artifact follow it. *)
Example equal_base_names_follow_the_listing :
  readdir [("my-icon.svelte", "<svg/>"); ("MyIcon.svelte", "<svg/>")]
  = ["MyIcon.svelte"; "my-icon.svelte"]
  /\ readdir [("MyIcon.svelte", "<svg/>"); ("my-icon.svelte", "<svg/>")]
     = ["MyIcon.svelte"; "my-icon.svelte"]
  /\ sortIcons rootCollator
       (getCurrentIconsFromComponents
          (Some ["MyIcon.svelte"; "my-icon.svelte"]))
     = [mkIcon "my-icon" "MyIcon"; mkIcon "my-icon" "my-icon"].
Proof. repeat split. Qed.

(** ** Regenerate mode and exit codes *)

(** C5 on a directory listed as [LogoMain.svelte], [ArrowLeft.svelte]. *)
Lemma regenerate_arrow_logo :
  typesFile
    (Current.regenerateFilesFromComponents (sampleEnvironment [] [] false)
       (mkFileSystem
          (Some [("LogoMain.svelte", "<svg/>"); ("ArrowLeft.svelte", "<svg/>")])
          None None))
  = Some arrowLogoTypes.
Proof.
  refine (proj2 (proj2 (proj2 (proj2 (proj2
    (regenerate_from_scan (sampleEnvironment [] [] false)
       (mkFileSystem
          (Some [("LogoMain.svelte", "<svg/>"); ("ArrowLeft.svelte", "<svg/>")])
          None None))))) _ eq_refl _) eq_refl).
  apply Permutation_refl.
Defined.



(** The input [123] reaches the script as a number: the resolution throws
    and either script exits with code 1, though [my_icon.svg] is on disk. *)
Example numeric_input_exits_one :
  let env := sampleEnvironment ["my_icon.svg"] [] false in
  let argv :=
    mkArgv false false
      [Inputs.InputText "my_icon.svg"; Inputs.InputNumber "123"] in
  Current.run env argv (mkFileSystem None None None)
  = mkOutcome 1 (mkFileSystem None None None)
  /\ Earlier.run env (Earlier.mkDirectArgv argv None None)
       (mkFileSystem None None None)
     = mkOutcome 1 (mkFileSystem None None None).
Proof. split; reflexivity. Qed.

(** The earlier script on [--svg] and [--name]: no name derives from
    [---]; content that begins with [<svg] after trimming is written under
    the derived name; [--svg] alone is refused. *)
Example earlier_direct_input :
  let env := sampleEnvironment [] [] false in
  let fs := mkFileSystem None None None in
  let none := mkArgv false false [] in
  exitCode (Earlier.run env
              (Earlier.mkDirectArgv none (Some "<svg/>") (Some "---")) fs) = 1
  /\ exitCode (Earlier.run env
                 (Earlier.mkDirectArgv none (Some "<p/>") (Some "my icon")) fs)
     = 1
  /\ exitCode (Earlier.run env
                 (Earlier.mkDirectArgv none (Some "<svg/>") None) fs) = 1
  /\ exitCode (Earlier.run env
                 (Earlier.mkDirectArgv none (Some " <svg/>") (Some "my icon"))
                 fs) = 0
  /\ option_map mapKeys
       (components
          (finalFs
             (Earlier.run env
                (Earlier.mkDirectArgv none (Some " <svg/>") (Some "my icon"))
                fs)))
     = Some ["MyIcon.svelte"].
Proof. repeat split. Qed.

(** The earlier script under [--regenerate] on a directory that holds a
    component: the call throws and the exit code is 1. *)
Example earlier_regenerate_exits_one :
  Earlier.run (sampleEnvironment [] [] false)
    (Earlier.mkDirectArgv (mkArgv true false []) None None) oneOldIcon
  = mkOutcome 1 oneOldIcon.
Proof. reflexivity. Qed.

(** ** Duplicates in one batch *)

(** C3 on [My Icon.svg] followed by [my_icon.svg] in an empty directory:
    one source generated, one counted as failed, and [MyIcon.svelte] holds
    the first rendering. *)
Lemma second_spelling_rejected :
  let env := sampleEnvironment ["My Icon.svg"; "my_icon.svg"] [] false in
  let st := Current.processAll env false twoSpellings [] in
  errorCount st = 1
  /\ successCount st = 1
  /\ newlyGeneratedIcons st = [mkIcon "my-icon" "MyIcon"]
  /\ readFile "MyIcon.svelte" (dir st)
     = Some "<svg data-from='My Icon.svg'/>".
Proof.
  pose proof (duplicate_of_generated_is_rejected
                (sampleEnvironment ["My Icon.svg"; "my_icon.svg"] [] false)
                false [] [] [] []
                (mkSource FileSource "My Icon.svg" "My Icon.svg"
                   (mkIcon "my-icon" "MyIcon"))
                (mkSource FileSource "my_icon.svg" "my_icon.svg"
                   (mkIcon "my_icon" "MyIcon"))
                "<svg data-from='My Icon.svg'/>"
                eq_refl eq_refl eq_refl eq_refl) as H.
  cbn zeta in H. destruct H as [_ [_ [_ [_ [_ H]]]]].
  cbn zeta. split; [reflexivity|]. split; [reflexivity|].
  split; [reflexivity | exact H].
Defined.

(** C3 on the same two files.  When the optimizer rejects the first, the
    second is not rejected but rendered and written.  When [MyIcon.svelte]
    exists and the operator declines, both are conflicts: none is counted
    as failed, both are counted as skipped. *)
Lemma second_spelling_not_always_rejected :
  let failing := sampleEnvironment ["My Icon.svg"; "my_icon.svg"]
                   ["My Icon.svg"] false in
  let st := Current.processAll failing false twoSpellings [] in
  let declining := sampleEnvironment ["My Icon.svg"; "my_icon.svg"] [] false in
  let st' := Current.processAll declining false twoSpellings
               (Current.prepareDirectories false oneOldIcon) in
  (processSvgSource failing
     (mkSource FileSource "My Icon.svg" "My Icon.svg"
        (mkIcon "my-icon" "MyIcon"))
   = None
   /\ newlyGeneratedIcons st = [mkIcon "my_icon" "MyIcon"]
   /\ readFile "MyIcon.svelte" (dir st)
      = Some "<svg data-from='my_icon.svg'/>"
   /\ successCount st = 1
   /\ errorCount st = 1)
  /\ (conflicts st' = twoSpellings
      /\ errorCount st' = 0
      /\ skipCount st' = 2).
Proof. repeat split. Qed.

(** ** Conflicts with existing files *)



(** The same two sources with overwrite accepted, the first of them not
    rendering: it is counted as failed, and the second, of the same
    component name, is written. *)
Example accepted_conflict_after_failed_rendering :
  let env := sampleEnvironment ["My Icon.svg"; "my_icon.svg"] ["My Icon.svg"]
               true in
  let st := Current.processAll env false twoSpellings
              (Current.prepareDirectories false oneOldIcon) in
  readFile "MyIcon.svelte" (dir st) = Some "<svg data-from='my_icon.svg'/>"
  /\ newlyGeneratedIcons st = [mkIcon "my_icon" "MyIcon"]
  /\ successCount st = 1
  /\ errorCount st = 1
  /\ skipCount st = 0.
Proof. repeat split. Qed.

(** ** The earlier script on the same inputs *)

Example earlier_overwrites_without_asking :
  let env := sampleEnvironment ["My Icon.svg"] [] false in
  let st := fold_left (Earlier.processSource env) (fileSource "My Icon.svg")
              (initialState [("MyIcon.svelte", "<svg data-old/>")]) in
  readFile "MyIcon.svelte" (dir st) = Some "<svg data-from='My Icon.svg'/>"
  /\ successCount st = 1.
Proof. split; reflexivity. Qed.

Example earlier_regenerate_throws :
  Earlier.regenerateFilesFromComponents
    (mkFileSystem (Some [("ArrowLeft.svelte", "<svg/>")]) None None)
  = None.
Proof. reflexivity. Qed.

Example overwrite_skip_is_not_counted :
  let env := sampleEnvironment ["My Icon.svg"; "my_icon.svg"] [] true in
  let st := Current.processAll env false twoSpellings
              (Current.prepareDirectories false oneOldIcon) in
  successCount st + errorCount st + skipCount st = 1
  /\ List.length twoSpellings = 2.
Proof. split; reflexivity. Qed.

(** * Name shapes, inputs, configuration and what the loops keep

    More of the script: the shape of the names the resolver returns,
    [resolveInputSources] and [loadSvgoConfiguration] against the calls
    they make, and what the loops of both scripts keep. *)

(** ** Further notions: shapes of names *)

(** No hyphen follows a hyphen; [afterHyphen] tells whether the unit before
    the string is one. *)
Fixpoint noDoubleHyphen (afterHyphen : bool) (s : string) : bool :=
  match s with
  | EmptyString => true
  | String c s' =>
      negb (isHyphen c && afterHyphen) && noDoubleHyphen (isHyphen c) s'
  end.

Fixpoint endsWithHyphen (s : string) : bool :=
  match s with
  | EmptyString => false
  | String c EmptyString => isHyphen c
  | String _ s' => endsWithHyphen s'
  end.

(** A base name as [sanitizeName] leaves it: written in [[a-z0-9_-]], without
    a hyphen at either end and without two hyphens in a row. *)
Definition cleanBaseName (b : string) : bool :=
  forallChars isBaseChar b
  && noDoubleHyphen false b
  && negb (startsWithHyphen b)
  && negb (endsWithHyphen b).

(** A component name in PascalCase: letters and digits, not beginning with a
    lower case letter. *)
Definition pascalShaped (cn : string) : bool :=
  forallChars isAlnum cn
  && match cn with
     | EmptyString => true
     | String c _ => negb (isLower c)
     end.

(** the class [[a-zA-Z0-9_]]: the units [sanitizeName] keeps as they are or
    in lower case *)
Definition isWordChar (c : ascii) : bool :=
  isLower c || isUpper c || isDigit c || isUnderscore c.

(** The environment of [sampleEnvironment] with the inputs resolved in a
    world. *)
Definition worldEnvironment (w : Inputs.World) (broken : list string)
  (answer : bool) : Environment :=
  mkEnvironment rootCollator (sampleRender broken) "<loader/>"
    w [] answer false.

(** ** The configuration of the optimizer

    [loadSvgoConfiguration], over JavaScript values that are not looked
    into: the script tests them for truthiness and for being an object, and
    copies the properties of plain objects. *)

Module Svgo.

(** The values of JavaScript as the function sees them. *)
Record Values : Type := mkValues
  { Value : Type;
    (** [ToBoolean] *)
    truthy : Value -> bool;
    (** the own properties of a value for which
        [typeof v === "object" && v !== null] holds *)
    asObject : Value -> option (list (string * Value));
    (** the literal [true] *)
    jsTrue : Value;
    (** the array of plugins of the default configuration *)
    defaultPlugins : Value }.

(** What the function asks of the disk and of the module loader.  [None]
    is a call that throws. *)
Record Loader (J : Values) : Type := mkLoader
  { (** [path.resolve(process.cwd(), configPath)] *)
    resolvePath : string -> string;
    (** [fs.pathExists] *)
    pathExists : string -> bool;
    (** [(await import(`file://${resolvedPath}`)).default] *)
    importDefault : string -> option (Value J);
    (** [loadSvgoConfig(resolvedPath)] of svgo *)
    loadSvgoConfig : string -> option (Value J) }.

Arguments resolvePath {J}.
Arguments pathExists {J}.
Arguments importDefault {J}.
Arguments loadSvgoConfig {J}.

(** What [loadSvgoConfiguration] returns: an object built by the function,
    or the loaded value as it is. *)
Inductive Configuration (J : Values) : Type :=
  | ConfigObject (properties : list (string * Value J))
  | ConfigValue (value : Value J).

Arguments ConfigObject {J}.
Arguments ConfigValue {J}.

Section Configure.
Context {J : Values}.

(** [{ multipass: true, plugins: [...] }] *)
Definition defaultSvgoConfig : list (string * Value J) :=
  [("multipass", jsTrue J); ("plugins", defaultPlugins J)].

(** [{ ...target, ...source }]: the properties of [source] are set one by
    one. *)
Definition spread (target source : list (string * Value J))
  : list (string * Value J) :=
  fold_left (fun object property => mapSet (fst property) (snd property) object)
    source target.

(** [a || b] *)
Definition orElse (a : option (Value J)) (b : Value J) : Value J :=
  match a with
  | Some v => if truthy J v then v else b
  | None => b
  end.

(** [{ ...defaultSvgoConfig, ...configModule,
       plugins: configModule.plugins || defaultSvgoConfig.plugins }] *)
Definition mergeWithDefault (configModule : list (string * Value J))
  : list (string * Value J) :=
  mapSet "plugins"
    (orElse (mapGet "plugins" configModule) (defaultPlugins J))
    (spread (spread [] defaultSvgoConfig) configModule).

Definition loadSvgoConfiguration (loader : Loader J)
  (configPath : option string) : Configuration J :=
  match configPath with
  | None => ConfigObject defaultSvgoConfig
  | Some configPath =>
      if isEmpty configPath then ConfigObject defaultSvgoConfig
      else
        let resolvedPath := resolvePath loader configPath in
        if pathExists loader resolvedPath then
          let loaded :=
            if Earlier.endsWith ".js" resolvedPath
               || Earlier.endsWith ".mjs" resolvedPath
            then importDefault loader resolvedPath
            else loadSvgoConfig loader resolvedPath in
          match loaded with
          | None => ConfigObject defaultSvgoConfig
          | Some configModule =>
              if truthy J configModule then
                match asObject J configModule with
                | Some properties => ConfigObject (mergeWithDefault properties)
                | None => ConfigValue configModule
                end
              else ConfigObject defaultSvgoConfig
          end
        else ConfigObject defaultSvgoConfig
  end.

End Configure.

End Svgo.

(** Values as their source text: the empty text is the one falsy value and
    no value is an object but [{ plugins: [] }] and [{ multipass: false }]. *)
Definition sampleValues : Svgo.Values :=
  Svgo.mkValues string (fun v => negb (isEmpty v))
    (fun v =>
       if String.eqb v "{ plugins: [] }" then Some [("plugins", "[]")]
       else if String.eqb v "{ multipass: false }"
       then Some [("multipass", "false")]
       else None)
    "true" "[preset-default, ...]".

(** ** Units of the alphabets *)

Lemma base_char_facts (c : ascii) :
  implb (isBaseChar c)
    (isNameChar c && negb (isUpper c) && Ascii.eqb (toLowerChar c) c
     && negb (Ascii.eqb c ".")) = true.
Proof. each_unit c; reflexivity. Qed.

Lemma alnum_char_facts (c : ascii) :
  implb (isAlnum c)
    (negb (isHyphen c) && negb (isSeparator c)
     && isBaseChar (toLowerChar c) && negb (isHyphen (toLowerChar c))
     && negb (isSeparator (toLowerChar c))
     && implb (isUpper c) (Ascii.eqb (toUpperChar (toLowerChar c)) c)
     && implb (negb (isUpper c)) (isBaseChar c)
     && implb (negb (isLower c)) (Ascii.eqb (toUpperChar c) c
                                  || isUpper c)) = true.
Proof. each_unit c; reflexivity. Qed.

Lemma hyphen_is_base : isBaseChar "-" = true.
Proof. reflexivity. Qed.

(** ** Steps that leave a clean base name alone *)

Lemma noDoubleHyphen_head (b b' : bool) (c : ascii) (s : string) :
  isHyphen c = false ->
  noDoubleHyphen b (String c s) = noDoubleHyphen b' (String c s).
Proof. intro H. cbn. now rewrite H. Qed.

Lemma collapseHyphens_noDouble (s : string) :
  noDoubleHyphen false (collapseHyphens s) = true.
Proof.
  induction s as [|c s IH]; [reflexivity|].
  destruct s as [|c' s'].
  - cbn. destruct (isHyphen c); cbn; now rewrite ?andb_false_r.
  - rewrite collapseHyphens_step.
    destruct (isHyphen c) eqn:Hc, (isHyphen c') eqn:Hc'; cbn [andb];
      try exact IH.
    + destruct (collapseHyphens_head c' s') as [t Ht]. rewrite Ht in *.
      change (noDoubleHyphen false (String c (String c' t)))
        with (negb (isHyphen c && false)
              && noDoubleHyphen (isHyphen c) (String c' t)).
      rewrite Hc. cbn [andb negb].
      rewrite (noDoubleHyphen_head true false c' t Hc'). exact IH.
    + cbn [noDoubleHyphen]. rewrite Hc. exact IH.
    + cbn [noDoubleHyphen]. rewrite Hc. exact IH.
Qed.

Lemma trimStart_noDouble (b b' : bool) (s : string) :
  noDoubleHyphen b s = true -> noDoubleHyphen b' (trimStart s) = true.
Proof.
  revert b. induction s as [|c s IH]; intros b H; [reflexivity|].
  cbn [trimStart]. cbn in H. apply andb_prop in H. destruct H as [_ H].
  destruct (isHyphen c) eqn:Hc; [now apply (IH true)|].
  cbn. now rewrite Hc.
Qed.

Lemma trimEnd_noDouble (b : bool) (s : string) :
  noDoubleHyphen b s = true -> noDoubleHyphen b (trimEnd s) = true.
Proof.
  revert b. induction s as [|c s IH]; intros b H; [reflexivity|].
  cbn [trimEnd]. destruct (isHyphen c && allHyphens s); [reflexivity|].
  cbn in *. apply andb_prop in H. destruct H as [H1 H2].
  now rewrite H1, IH.
Qed.

Lemma toLowerCase_noDouble (b : bool) (s : string) :
  noDoubleHyphen b (toLowerCase s) = noDoubleHyphen b s.
Proof.
  revert b. induction s as [|c s IH]; intro b; [reflexivity|].
  cbn. now rewrite toLowerChar_hyphen, IH.
Qed.

Lemma collapseHyphens_fixed (s : string) :
  noDoubleHyphen false s = true -> collapseHyphens s = s.
Proof.
  induction s as [|c s IH]; [reflexivity|]. intro H.
  destruct s as [|c' s'].
  - cbn. now destruct (isHyphen c).
  - rewrite collapseHyphens_step.
    change (noDoubleHyphen false (String c (String c' s')))
      with (negb (isHyphen c && false)
            && (negb (isHyphen c' && isHyphen c)
                && noDoubleHyphen (isHyphen c') s')) in H.
    apply andb_prop in H. destruct H as [_ H].
    apply andb_prop in H. destruct H as [H1 H2].
    apply negb_true_iff in H1. rewrite andb_comm in H1. rewrite H1.
    f_equal. apply IH. cbn. now rewrite andb_false_r, H2.
Qed.

Lemma trimStart_fixed (s : string) :
  startsWithHyphen s = false -> trimStart s = s.
Proof. destruct s as [|c s]; [reflexivity|]. cbn. now intros ->. Qed.

Lemma allHyphens_ends (c : ascii) (s : string) :
  isHyphen c = true -> allHyphens s = true -> endsWithHyphen (String c s) = true.
Proof.
  revert c. induction s as [|c' s IH]; intros c Hc H; [exact Hc|].
  cbn in H. apply andb_prop in H. destruct H as [Hc' H].
  change (endsWithHyphen (String c (String c' s)))
    with (endsWithHyphen (String c' s)).
  now apply IH.
Qed.

Lemma trimEnd_fixed (s : string) : endsWithHyphen s = false -> trimEnd s = s.
Proof.
  induction s as [|c s IH]; [reflexivity|]. intro H. cbn [trimEnd].
  destruct (isHyphen c && allHyphens s) eqn:E.
  - apply andb_prop in E. destruct E as [Hc Hs].
    rewrite (allHyphens_ends c s Hc Hs) in H. discriminate.
  - f_equal. apply IH. destruct s; [reflexivity | exact H].
Qed.

Lemma trimEnd_ends (s : string) : endsWithHyphen (trimEnd s) = false.
Proof.
  induction s as [|c s IH]; [reflexivity|]. cbn [trimEnd].
  destruct (isHyphen c && allHyphens s) eqn:E; [reflexivity|].
  destruct (trimEnd s) as [|c' t] eqn:Et.
  - cbn. destruct (isHyphen c) eqn:Hc; [|reflexivity].
    cbn in E. (* the rest is all hyphens or trimmed to nothing *)
    assert (Hall : allHyphens s = true).
    { clear -Et. induction s as [|x s IHs]; [reflexivity|].
      cbn in Et. destruct (isHyphen x && allHyphens s) eqn:Ex;
        [|discriminate].
      apply andb_prop in Ex. destruct Ex as [Hx Hs]. cbn. now rewrite Hx, Hs. }
    congruence.
  - exact IH.
Qed.

Lemma toLowerCase_ends (s : string) :
  endsWithHyphen (toLowerCase s) = endsWithHyphen s.
Proof.
  induction s as [|c s IH]; [reflexivity|].
  destruct s as [|c' s']; [cbn; apply toLowerChar_hyphen | exact IH].
Qed.

Section BaseChars.
Variable b : string.
Hypothesis Hchars : forallChars isBaseChar b = true.

Lemma replaceInvalid_fixed : replaceInvalid b = b.
Proof.
  induction b as [|c s IH]; [reflexivity|].
  cbn in Hchars. apply andb_prop in Hchars. destruct Hchars as [Hc Hs].
  pose proof (base_char_facts c) as F. rewrite Hc in F. cbn in F.
  apply andb_prop in F. destruct F as [F _].
  apply andb_prop in F. destruct F as [F _].
  apply andb_prop in F. destruct F as [F _].
  cbn. rewrite F. f_equal. now apply IH.
Qed.

Lemma toLowerCase_fixed : toLowerCase b = b.
Proof.
  induction b as [|c s IH]; [reflexivity|].
  cbn in Hchars. apply andb_prop in Hchars. destruct Hchars as [Hc Hs].
  pose proof (base_char_facts c) as F. rewrite Hc in F. cbn in F.
  apply andb_prop in F. destruct F as [F _].
  apply andb_prop in F. destruct F as [_ F]. apply Ascii.eqb_eq in F.
  cbn. rewrite F. f_equal. now apply IH.
Qed.

Lemma stripSvg_fixed : stripSvg b = b.
Proof.
  unfold stripSvg. induction b as [|c s IH]; [reflexivity|].
  cbn in Hchars. apply andb_prop in Hchars. destruct Hchars as [Hc Hs].
  pose proof (base_char_facts c) as F. rewrite Hc in F. cbn in F.
  apply andb_prop in F. destruct F as [_ F]. apply negb_true_iff in F.
  cbn [stripSuffixCI].
  assert (M : matchesCI ".svg" (String c s) = false).
  { cbn. now rewrite toLowerChar_dot, F. }
  rewrite M. f_equal. now apply IH.
Qed.
End BaseChars.

(** [sanitizeName] leaves a clean base name as it is. *)
Lemma sanitizeName_clean (b : string) :
  cleanBaseName b = true -> isEmpty b = false ->
  sanitizeName b
  = Some (mkIcon b (join "" (map capitalize (split b)))).
Proof.
  unfold cleanBaseName. intros H Hne.
  apply andb_prop in H. destruct H as [H He].
  apply andb_prop in H. destruct H as [H Hs].
  apply andb_prop in H. destruct H as [Hc Hd].
  apply negb_true_iff in He, Hs.
  unfold sanitizeName, trimHyphens.
  rewrite (stripSvg_fixed b Hc), (replaceInvalid_fixed b Hc).
  rewrite (collapseHyphens_fixed b Hd), (trimStart_fixed b Hs).
  rewrite (trimEnd_fixed b He), (toLowerCase_fixed b Hc), Hne.
  reflexivity.
Qed.

(** ** The shape of the names [sanitizeName] returns *)

Lemma pascal_head_char (c : ascii) :
  implb (isBaseChar c && negb (isSeparator c))
    (negb (isLower (toUpperChar c))) = true.
Proof. each_unit c; reflexivity. Qed.

Definition headNotLower (l : list ascii) : bool :=
  match l with
  | [] => true
  | c :: _ => negb (isLower c)
  end.

Lemma pascalCase_head (l : list ascii) :
  Forall (fun c => isBaseChar c = true) l ->
  headNotLower (Units.pascalCase true l) = true.
Proof.
  induction 1 as [|c l Hc Hl IH]; [reflexivity|]. cbn.
  destruct (isSeparator c) eqn:Hs; [exact IH|]. cbn.
  pose proof (pascal_head_char c) as F. now rewrite Hc, Hs in F.
Qed.

Lemma pascalShaped_units (cn : string) :
  pascalShaped cn
  = forallChars isAlnum cn && headNotLower (Units.units cn).
Proof. now destruct cn. Qed.

Lemma sanitizeName_shape (name : string) (id : IconIdentity) :
  sanitizeName name = Some id ->
  cleanBaseName (baseName id) = true
  /\ isEmpty (baseName id) = false
  /\ pascalShaped (componentName id) = true
  /\ componentName id = join "" (map capitalize (split (baseName id))).
Proof.
  intro H. destruct (sanitizeName_alphabet name id H) as [Hb Hc].
  unfold sanitizeName in H.
  set (b := toLowerCase
              (trimHyphens (collapseHyphens (replaceInvalid (stripSvg name)))))
    in *.
  destruct (isEmpty b) eqn:Hne; [discriminate|].
  inversion H; subst id; clear H. cbn [baseName componentName] in *.
  split; [|split; [exact Hne|split; [|reflexivity]]].
  - unfold cleanBaseName. rewrite Hb. cbn [andb].
    assert (Hd : noDoubleHyphen false b = true).
    { unfold b, trimHyphens. rewrite toLowerCase_noDouble.
      apply trimEnd_noDouble, (trimStart_noDouble false).
      apply collapseHyphens_noDouble. }
    rewrite Hd. cbn [andb]. unfold b at 1. rewrite trimHyphens_head.
    cbn [negb andb]. unfold b, trimHyphens.
    now rewrite toLowerCase_ends, trimEnd_ends.
  - rewrite pascalShaped_units, Hc. cbn [andb].
    destruct (pascalCase_units b) as [<- _].
    apply pascalCase_head. now apply forallChars_units.
Qed.

(** ** Recovering a base name from a PascalCase name *)

Lemma hyphenateUpper_chars (n : nat) (s : string) :
  forallChars isAlnum s = true ->
  forallChars isBaseChar (hyphenateUpper n s) = true.
Proof.
  revert n. induction s as [|c s IH]; intros n H; [reflexivity|].
  cbn in H. apply andb_prop in H. destruct H as [Hc Hs].
  pose proof (alnum_char_facts c) as F. rewrite Hc in F. cbn [implb] in F.
  repeat (let G := fresh "G" in apply andb_prop in F; destruct F as [F G]).
  cbn [hyphenateUpper]. destruct (isUpper c) eqn:Hu.
  - destruct (0 <? n)%nat; cbn; rewrite ?IH by exact Hs;
      rewrite ?andb_true_r; try exact G4; reflexivity.
  - cbn in G0 |- *. now rewrite G0, IH.
Qed.

Lemma hyphenateUpper_noDouble (n : nat) (s : string) :
  forallChars isAlnum s = true ->
  noDoubleHyphen false (hyphenateUpper n s) = true.
Proof.
  revert n. induction s as [|c s IH]; intros n H; [reflexivity|].
  cbn in H. apply andb_prop in H. destruct H as [Hc Hs].
  pose proof (alnum_char_facts c) as F. rewrite Hc in F. cbn [implb] in F.
  repeat (let G := fresh "G" in apply andb_prop in F; destruct F as [F G]).
  apply negb_true_iff in F, G3.
  cbn [hyphenateUpper]. destruct (isUpper c) eqn:Hu.
  - destruct (0 <? n)%nat; cbn; rewrite G3, ?andb_false_r; cbn;
      now apply IH.
  - cbn. rewrite F. cbn. now apply IH.
Qed.

Lemma hyphenateUpper_ends (n : nat) (s : string) :
  forallChars isAlnum s = true ->
  endsWithHyphen (hyphenateUpper n s) = false.
Proof.
  revert n. induction s as [|c s IH]; intros n H; [reflexivity|].
  cbn in H. apply andb_prop in H. destruct H as [Hc Hs].
  pose proof (alnum_char_facts c) as F. rewrite Hc in F. cbn [implb] in F.
  repeat (let G := fresh "G" in apply andb_prop in F; destruct F as [F G]).
  apply negb_true_iff in F, G3.
  specialize (IH (S n) Hs).
  assert (E : forall x, isHyphen x = false ->
                endsWithHyphen (String x (hyphenateUpper (S n) s)) = false).
  { intros x Hx. destruct (hyphenateUpper (S n) s) eqn:Er; [exact Hx|exact IH]. }
  cbn [hyphenateUpper]. destruct (isUpper c) eqn:Hu.
  - destruct (0 <? n)%nat; cbn [append]; [|now apply E].
    change (endsWithHyphen
              (String (toLowerChar c) (hyphenateUpper (S n) s)) = false).
    now apply E.
  - now apply E.
Qed.

Lemma hyphenateUpper_pascal (n : nat) (s : string) :
  forallChars isAlnum s = true -> (0 < n)%nat ->
  Units.pascalCase false (Units.units (hyphenateUpper n s)) = Units.units s.
Proof.
  revert n. induction s as [|c s IH]; intros n H Hn; [reflexivity|].
  cbn in H. apply andb_prop in H. destruct H as [Hc Hs].
  pose proof (alnum_char_facts c) as F. rewrite Hc in F. cbn [implb] in F.
  repeat (let G := fresh "G" in apply andb_prop in F; destruct F as [F G]).
  apply negb_true_iff in G5, G2.
  specialize (IH (S n) Hs (Nat.lt_0_succ n)).
  unfold Units.units in *. cbn [hyphenateUpper]. destruct (isUpper c) eqn:Hu.
  - apply Nat.ltb_lt in Hn. rewrite Hn. cbn. rewrite G2.
    cbn in G1. apply Ascii.eqb_eq in G1. now rewrite G1, IH.
  - cbn. now rewrite G5, IH.
Qed.

Lemma hyphenateUpper_pascal_first (s : string) :
  pascalShaped s = true ->
  Units.pascalCase true (Units.units (hyphenateUpper 0 s)) = Units.units s.
Proof.
  unfold pascalShaped. intro H. apply andb_prop in H. destruct H as [H Hl].
  destruct s as [|c s]; [reflexivity|].
  cbn in H. apply andb_prop in H. destruct H as [Hc Hs].
  pose proof (alnum_char_facts c) as F. rewrite Hc in F. cbn [implb] in F.
  repeat (let G := fresh "G" in apply andb_prop in F; destruct F as [F G]).
  apply negb_true_iff in G5, G2. rewrite Hl in G. cbn in G.
  pose proof (hyphenateUpper_pascal 1 s Hs Nat.lt_0_1) as IH.
  unfold Units.units in *. cbn [hyphenateUpper]. destruct (isUpper c) eqn:Hu.
  - cbn. rewrite G2. cbn in G1. apply Ascii.eqb_eq in G1. now rewrite G1, IH.
  - cbn. rewrite G5. rewrite orb_false_r in G. apply Ascii.eqb_eq in G.
    now rewrite G, IH.
Qed.

Lemma hyphenateUpper_head (s : string) :
  forallChars isAlnum s = true ->
  startsWithHyphen (hyphenateUpper 0 s) = false.
Proof.
  destruct s as [|c s]; [reflexivity|]. intro H.
  cbn in H. apply andb_prop in H. destruct H as [Hc Hs].
  pose proof (alnum_char_facts c) as F. rewrite Hc in F. cbn [implb] in F.
  repeat (let G := fresh "G" in apply andb_prop in F; destruct F as [F G]).
  apply negb_true_iff in F, G3.
  cbn. now destruct (isUpper c).
Qed.

Lemma dropLeadingHyphen_fixed (s : string) :
  startsWithHyphen s = false -> dropLeadingHyphen s = s.
Proof. destruct s as [|c s]; [reflexivity|]. cbn. now intros ->. Qed.

Lemma pascalCase_nil (l : list ascii) :
  Units.pascalCase true l = [] <-> Forall (fun c => isSeparator c = true) l.
Proof.
  induction l as [|c l IH]; cbn; [split; auto|].
  destruct (isSeparator c) eqn:Hs.
  - rewrite IH. split; [now constructor | now inversion 1].
  - split; [discriminate|]. inversion 1. congruence.
Qed.

(** ** Suffixes *)

Lemma matchesCI_length (pat s : string) :
  matchesCI pat s = true -> String.length s = String.length pat.
Proof.
  revert s. induction pat as [|p pat IH]; intros [|c s] H; try discriminate;
    [reflexivity|].
  cbn in H. apply andb_prop in H. destruct H as [_ H]. cbn. f_equal. now apply IH.
Qed.

Lemma length_append (a b : string) :
  String.length (a ++ b) = (String.length a + String.length b)%nat.
Proof. induction a; cbn; congruence. Qed.

Lemma stripSuffixCI_append (suffix stem t : string) :
  matchesCI suffix t = true -> isEmpty suffix = false ->
  stripSuffixCI suffix (stem ++ t) = stem
  /\ endsWithCI suffix (stem ++ t) = true.
Proof.
  intros Ht Hne. induction stem as [|c stem [IH1 IH2]].
  - cbn [append]. destruct t as [|c t].
    + destruct suffix; discriminate.
    + cbn [stripSuffixCI endsWithCI]. now rewrite Ht.
  - cbn [append stripSuffixCI endsWithCI].
    destruct (matchesCI suffix (String c (stem ++ t))) eqn:E.
    + apply matchesCI_length in E, Ht. cbn in E.
      rewrite length_append in E. lia.
    + now rewrite IH1, IH2.
Qed.

(** The file written for a component is an entry the scanner keeps. *)
Lemma written_component_accepted (componentName : string) :
  isEmpty componentName = false -> String.eqb componentName "-" = false ->
  accepted (componentName ++ ".svelte") = true
  /\ stripSuffixCI ".svelte" (componentName ++ ".svelte") = componentName.
Proof.
  intros Hne Hh.
  destruct (stripSuffixCI_append ".svelte" componentName ".svelte"
              eq_refl eq_refl) as [E1 E2].
  split; [|exact E1]. unfold accepted. rewrite E1, E2, Hne. cbn [andb negb].
  destruct (isEmpty (baseName (scanned componentName))) eqn:E; [|reflexivity].
  apply isEmpty_true in E. cbn in E. apply recovered_empty in E.
  destruct E as [->| ->]; discriminate.
Qed.

(** ** When [sanitizeName] returns nothing *)

Lemma allHyphens_replaceInvalid (s : string) :
  allHyphens (replaceInvalid s) = forallChars (fun c => negb (isWordChar c)) s.
Proof.
  induction s as [|c s IH]; [reflexivity|]. cbn. rewrite IH. f_equal.
  clear. each_unit c; reflexivity.
Qed.

Lemma allHyphens_collapseHyphens (s : string) :
  allHyphens (collapseHyphens s) = allHyphens s.
Proof.
  induction s as [|c s IH]; [reflexivity|].
  destruct s as [|c' s'].
  - cbn. destruct (isHyphen c) eqn:Hc; cbn; now rewrite ?Hc.
  - rewrite collapseHyphens_step.
    destruct (isHyphen c) eqn:Hc, (isHyphen c') eqn:Hc'; cbn [andb].
    + rewrite IH. cbn. now rewrite Hc, Hc'.
    + cbn [allHyphens]. now rewrite IH.
    + cbn [allHyphens]. now rewrite Hc.
    + cbn [allHyphens]. now rewrite Hc.
Qed.

Lemma trimStart_empty (s : string) : isEmpty (trimStart s) = allHyphens s.
Proof.
  induction s as [|c s IH]; [reflexivity|]. cbn.
  destruct (isHyphen c); [exact IH | reflexivity].
Qed.

Lemma allHyphens_trimStart (s : string) :
  allHyphens (trimStart s) = allHyphens s.
Proof.
  induction s as [|c s IH]; [reflexivity|]. cbn.
  destruct (isHyphen c) eqn:Hc; [exact IH | cbn; now rewrite Hc].
Qed.

Lemma trimEnd_empty (s : string) : isEmpty (trimEnd s) = allHyphens s.
Proof.
  destruct s as [|c s]; [reflexivity|]. cbn.
  now destruct (isHyphen c && allHyphens s).
Qed.

Lemma toLowerCase_empty (s : string) : isEmpty (toLowerCase s) = isEmpty s.
Proof. now destruct s. Qed.

Lemma sanitized_empty (name : string) :
  isEmpty (toLowerCase
             (trimHyphens (collapseHyphens (replaceInvalid (stripSvg name)))))
  = forallChars (fun c => negb (isWordChar c)) (stripSvg name).
Proof.
  unfold trimHyphens.
  now rewrite toLowerCase_empty, trimEnd_empty, allHyphens_trimStart,
    allHyphens_collapseHyphens, allHyphens_replaceInvalid.
Qed.

(** The recovered base name of a PascalCase name. *)
Lemma recovered_names_component (componentName : string) :
  pascalShaped componentName = true -> isEmpty componentName = false ->
  exists baseName,
    componentNameToBaseName componentName = Some baseName
    /\ sanitizeName baseName = Some (mkIcon baseName componentName).
Proof.
  intros Hp Hne. exists (hyphenateUpper 0 componentName).
  pose proof Hp as Hp'. unfold pascalShaped in Hp'.
  apply andb_prop in Hp'. destruct Hp' as [Ha _].
  unfold componentNameToBaseName. rewrite Hne.
  rewrite (dropLeadingHyphen_fixed _ (hyphenateUpper_head _ Ha)).
  split; [reflexivity|].
  rewrite sanitizeName_clean.
  - do 2 f_equal. apply units_inj.
    destruct (pascalCase_units (hyphenateUpper 0 componentName)) as [<- _].
    now apply hyphenateUpper_pascal_first.
  - unfold cleanBaseName.
    now rewrite (hyphenateUpper_chars 0 _ Ha), (hyphenateUpper_noDouble 0 _ Ha),
      (hyphenateUpper_head _ Ha), (hyphenateUpper_ends 0 _ Ha).
  - destruct (isEmpty (hyphenateUpper 0 componentName)) eqn:E; [|reflexivity].
    apply isEmpty_true, hyphenateUpper_empty in E. subst. discriminate.
Qed.

(** ** Further properties of the name resolver *)

(** X1. [sanitizeName] returns null exactly for the labels that, once a
    trailing [.svg] is removed, hold no letter, digit or low line: the empty
    label, [".svg"], ["---"], ["@ !.SVG"].  Every other label gets an
    identity. *)
Theorem sanitizeName_null_iff (name : string) :
  sanitizeName name = None
  <-> forallChars (fun c => negb (isWordChar c)) (stripSvg name) = true.
Proof.
  unfold sanitizeName. rewrite <- sanitized_empty.
  destruct (isEmpty _); split; intro H; congruence.
Qed.

(** X2. The names [sanitizeName] returns have a fixed shape.  The base name
    is not empty, is written in [[a-z0-9_-]], neither begins nor ends with a
    hyphen and has no two hyphens in a row; the component name is made of
    letters and digits, does not begin with a lower case letter, and is the
    PascalCase of the base name. *)
Theorem sanitizeName_output_shape (name : string) (id : IconIdentity) :
  sanitizeName name = Some id ->
  isEmpty (baseName id) = false
  /\ forallChars isBaseChar (baseName id) = true
  /\ startsWithHyphen (baseName id) = false
  /\ endsWithHyphen (baseName id) = false
  /\ noDoubleHyphen false (baseName id) = true
  /\ forallChars isAlnum (componentName id) = true
  /\ pascalShaped (componentName id) = true
  /\ componentName id = join "" (map capitalize (split (baseName id))).
Proof.
  intro H. destruct (sanitizeName_shape name id H) as [Hc [Hne [Hp Hj]]].
  unfold cleanBaseName in Hc.
  apply andb_prop in Hc. destruct Hc as [Hc He].
  apply andb_prop in Hc. destruct Hc as [Hc Hs].
  apply andb_prop in Hc. destruct Hc as [Hc Hd].
  apply negb_true_iff in He, Hs.
  pose proof Hp as Hp'. unfold pascalShaped in Hp'.
  apply andb_prop in Hp'. destruct Hp' as [Ha _].
  repeat (split; [assumption|]). exact Hj.
Qed.

Lemma sanitizeName_output_shape_my_icon :
  isEmpty "my-icon" = false
  /\ forallChars isBaseChar "my-icon" = true
  /\ startsWithHyphen "my-icon" = false
  /\ endsWithHyphen "my-icon" = false
  /\ noDoubleHyphen false "my-icon" = true
  /\ forallChars isAlnum "MyIcon" = true
  /\ pascalShaped "MyIcon" = true
  /\ "MyIcon" = join "" (map capitalize (split "my-icon")).
Proof.
  exact (sanitizeName_output_shape "--My  Icon--.SVG" (mkIcon "my-icon" "MyIcon")
           eq_refl).
Defined.

(** X3. A base name that [sanitizeName] returned is a fixed point: given as
    a label it comes back unchanged, with the same component name. *)
Theorem sanitizeName_idempotent (name : string) (id : IconIdentity) :
  sanitizeName name = Some id -> sanitizeName (baseName id) = Some id.
Proof.
  intro H. destruct (sanitizeName_shape name id H) as [Hc [Hne [_ Hj]]].
  rewrite (sanitizeName_clean _ Hc Hne), <- Hj. now destruct id.
Qed.

Lemma sanitizeName_idempotent_my_icon :
  sanitizeName "my_icon-2x" = Some (mkIcon "my_icon-2x" "MyIcon2x").
Proof.
  exact (sanitizeName_idempotent "My_Icon  2X.svg"
           (mkIcon "my_icon-2x" "MyIcon2x") eq_refl).
Defined.

(** X4. The component name [sanitizeName] returns is empty exactly when the
    base name consists of low lines and hyphens only (the label ["_"], for
    one): the PascalCase step drops every separator and has nothing else to
    keep. *)
Theorem empty_component_name (name : string) (id : IconIdentity) :
  sanitizeName name = Some id ->
  isEmpty (componentName id) = forallChars isSeparator (baseName id).
Proof.
  intro H. destruct (sanitizeName_shape name id H) as [_ [_ [_ Hj]]].
  rewrite Hj. generalize (baseName id). intro b.
  destruct (pascalCase_units b) as [E _].
  pose proof (pascalCase_nil (Units.units b)) as N. rewrite E in N.
  rewrite <- forallChars_units in N.
  destruct (forallChars isSeparator b).
  - apply isEmpty_true, units_inj. now apply N.
  - destruct (isEmpty _) eqn:Em; [|reflexivity].
    apply isEmpty_true in Em. rewrite Em in N.
    symmetry. now apply N.
Qed.

Lemma empty_component_name_low_line :
  isEmpty "" = forallChars isSeparator "_-_".
Proof.
  exact (empty_component_name "_-_.svg" (mkIcon "_-_" "") eq_refl).
Defined.

(** X5. For a component name in PascalCase (letters and digits, not
    beginning with a lower case letter; every non-empty component name
    [sanitizeName] returns is one) the base name [componentNameToBaseName]
    recovers is a label of that very component: [sanitizeName] maps it to
    itself as base name and to the component name it was recovered from.
    So the scan of the component's file gives an identity that
    [sanitizeName] reproduces. *)
Theorem recovered_base_name_names_component (componentName : string) :
  pascalShaped componentName = true -> isEmpty componentName = false ->
  exists baseName,
    componentNameToBaseName componentName = Some baseName
    /\ sanitizeName baseName = Some (mkIcon baseName componentName)
    /\ getCurrentIconsFromComponents (Some [componentName ++ ".svelte"])
       = [mkIcon baseName componentName].
Proof.
  intros Hp Hne.
  destruct (recovered_names_component componentName Hp Hne) as [b [Hb Hs]].
  exists b. split; [exact Hb|]. split; [exact Hs|].
  assert (Hh : String.eqb componentName "-" = false).
  { destruct (String.eqb componentName "-") eqn:E; [|reflexivity].
    apply String.eqb_eq in E. subst. discriminate. }
  destruct (written_component_accepted componentName Hne Hh) as [Hacc Hstem].
  unfold getCurrentIconsFromComponents. cbn [fold_left].
  rewrite scanEntry_accepted, Hacc, Hstem. cbn [mapSet mapValues map snd].
  unfold componentNameToBaseName in Hb. rewrite Hne in Hb.
  inversion Hb; subst b. reflexivity.
Qed.

Lemma recovered_base_name_icon2x :
  exists baseName,
    componentNameToBaseName "Icon2xABig" = Some baseName
    /\ sanitizeName baseName = Some (mkIcon baseName "Icon2xABig")
    /\ getCurrentIconsFromComponents (Some ["Icon2xABig.svelte"])
       = [mkIcon baseName "Icon2xABig"].
Proof.
  exact (recovered_base_name_names_component "Icon2xABig" eq_refl eq_refl).
Defined.

(** X6. The extension [.svg] is recognised in any mix of cases and removed
    once: a label ending in a spelling of [.svg] resolves as the label
    ending in [.svg] does, and what stands before the extension is kept,
    an earlier [.svg] included. *)
Theorem svg_extension_any_case (stem extension : string) :
  matchesCI ".svg" extension = true ->
  stripSvg (stem ++ extension) = stem
  /\ sanitizeName (stem ++ extension) = sanitizeName (stem ++ ".svg").
Proof.
  intro H.
  destruct (stripSuffixCI_append ".svg" stem extension H eq_refl) as [E _].
  destruct (stripSuffixCI_append ".svg" stem ".svg" eq_refl eq_refl) as [E' _].
  split; [exact E|]. unfold sanitizeName, stripSvg. now rewrite E, E'.
Qed.

Lemma svg_extension_upper :
  stripSvg "logo.svg.SvG" = "logo.svg"
  /\ sanitizeName "logo.svg.SvG" = sanitizeName "logo.svg.svg".
Proof. exact (svg_extension_any_case "logo.svg" ".SvG" eq_refl). Defined.

Lemma hyphenateUpper_lower (n : nat) (s : string) :
  noUpper (hyphenateUpper n s) = true.
Proof.
  revert n. induction s as [|c s IH]; intro n; [reflexivity|].
  cbn [hyphenateUpper]. destruct (isUpper c) eqn:Hu.
  - destruct (0 <? n)%nat; cbn; rewrite isUpper_toLowerChar; cbn; apply IH.
  - cbn. rewrite Hu. cbn. apply IH.
Qed.

(** X7. [componentNameToBaseName] returns null for the empty name only.
    The base name it returns holds no upper case letter, and it is empty
    for exactly one name, the single hyphen. *)
Theorem componentNameToBaseName_edges (componentName : string) :
  (componentNameToBaseName componentName = None <-> componentName = "")
  /\ forall baseName,
       componentNameToBaseName componentName = Some baseName ->
       noUpper baseName = true
       /\ (baseName = "" <-> componentName = "-").
Proof.
  unfold componentNameToBaseName. split.
  - destruct componentName; cbn; split; congruence.
  - intros b H. destruct (isEmpty componentName) eqn:Hne; [discriminate|].
    inversion H; subst b; clear H. split; [|split].
    + assert (Hn : noUpper (hyphenateUpper 0 componentName) = true)
        by apply hyphenateUpper_lower.
      destruct (hyphenateUpper 0 componentName) as [|c s]; [reflexivity|].
      cbn in *. apply andb_prop in Hn. destruct Hn as [Hc Hs].
      destruct (isHyphen c); [exact Hs|]. cbn. now rewrite Hc, Hs.
    + intro E. apply recovered_empty in E. destruct E as [->| ->];
        [discriminate | reflexivity].
    + now intros ->.
Qed.

(** ** The loops over the sources and over the conflicts *)

(** ** Generated icons and the set of processed names *)

Lemma pathExists_readdir (f : string) (d : Directory) :
  pathExists f d = true <-> In f (readdir d).
Proof.
  rewrite readdir_In.
  unfold pathExists, mapHas, mapKeys. rewrite existsb_exists. split.
  - intros [[k v] [Hin E]]. apply String.eqb_eq in E. cbn in E. subst.
    now apply (in_map fst) in Hin.
  - intro H. apply in_map_iff in H. destruct H as [[k v] [E Hin]].
    cbn in E. subst. exists (f, v). split; [exact Hin | apply String.eqb_refl].
Qed.

Section Tally.
Variable env : Environment.

(** What both loops of both scripts keep: the generated icons are the
    processed names, one each, counted by [successCount], with their files
    in the directory. *)
Record tallied (st : RunState) : Prop :=
  { names_of_generated :
      map componentName (newlyGeneratedIcons st)
      = processedComponentNamesInRun st;
    names_distinct : NoDup (processedComponentNamesInRun st);
    generated_counted :
      List.length (newlyGeneratedIcons st) = successCount st;
    generated_on_disk :
      forall i, In i (newlyGeneratedIcons st) ->
                pathExists (componentName i ++ ".svelte") (dir st) = true }.

Lemma tallied_initial (d : Directory) : tallied (initialState d).
Proof. constructor; cbn; [reflexivity | constructor | reflexivity | contradiction]. Qed.

Lemma tallied_generate (s : Source) (st : RunState) :
  tallied st ->
  setHas (componentName (identity s)) (processedComponentNamesInRun st)
  = false ->
  tallied (generate env s st).
Proof.
  intros [H1 H2 H3 H4] Hs. unfold generate.
  destruct (processSvgSource env s) as [content|]; [|now constructor].
  constructor; cbn [recordWritten newlyGeneratedIcons
                    processedComponentNamesInRun successCount dir].
  - rewrite map_app, H1. unfold setAdd. now rewrite Hs.
  - now apply setAdd_NoDup.
  - rewrite length_app. cbn. lia.
  - intros i Hi. rewrite pathExists_writeFile. apply in_app_or in Hi.
    destruct Hi as [Hi|[<-|[]]].
    + rewrite (H4 i Hi). apply orb_true_r.
    + unfold outputSvelteName. now rewrite String.eqb_refl.
Qed.

Lemma tallied_processSource (argvClean : bool) (st : RunState) (s : Source) :
  tallied st -> tallied (Current.processSource env argvClean st s).
Proof.
  intro H. unfold Current.processSource.
  destruct (setHas _ _) eqn:Hs; [destruct H; now constructor|].
  destruct (if negb argvClean then _ else false);
    [destruct H; now constructor | now apply tallied_generate].
Qed.

Lemma tallied_overwriteConflict (st : RunState) (s : Source) :
  tallied st -> tallied (Current.overwriteConflict env st s).
Proof.
  intro H. unfold Current.overwriteConflict.
  destruct (setHas _ _) eqn:Hs; [exact H | now apply tallied_generate].
Qed.

Lemma tallied_earlier (st : RunState) (s : Source) :
  tallied st -> tallied (Earlier.processSource env st s).
Proof.
  intro H. unfold Earlier.processSource.
  destruct (setHas _ _) eqn:Hs;
    [destruct H; now constructor | now apply tallied_generate].
Qed.

Lemma tallied_fold (step : RunState -> Source -> RunState) :
  (forall st s, tallied st -> tallied (step st s)) ->
  forall l st, tallied st -> tallied (fold_left step l st).
Proof.
  intros Hstep l. induction l as [|s l IH]; intros st H; cbn; auto.
Qed.

Lemma tallied_handleConflicts (st : RunState) :
  tallied st -> tallied (Current.handleConflicts env st).
Proof.
  intro H. unfold Current.handleConflicts.
  destruct (0 <? _)%nat; [|exact H].
  destruct (overwriteAnswer env).
  - apply tallied_fold; [apply tallied_overwriteConflict | exact H].
  - destruct H. now constructor.
Qed.

Lemma tallied_processAll (argvClean : bool) (sources : list Source)
  (d : Directory) :
  tallied (Current.processAll env argvClean sources d).
Proof.
  apply tallied_handleConflicts, tallied_fold; [|apply tallied_initial].
  intros st s. apply tallied_processSource.
Qed.

(** The generated icons are identities of the sources gone through. *)
Lemma generate_from (s : Source) (st : RunState) (i : IconIdentity) :
  In i (newlyGeneratedIcons (generate env s st)) ->
  In i (newlyGeneratedIcons st) \/ i = identity s.
Proof.
  unfold generate. destruct (processSvgSource env s); cbn; [|auto].
  intro H. apply in_app_or in H. destruct H as [H|[H|[]]]; auto.
Qed.

Definition stepFrom (step : RunState -> Source -> RunState) : Prop :=
  forall st s i,
    In i (newlyGeneratedIcons (step st s)) ->
    In i (newlyGeneratedIcons st) \/ i = identity s.

Lemma fold_from (step : RunState -> Source -> RunState) :
  stepFrom step ->
  forall l st i,
    In i (newlyGeneratedIcons (fold_left step l st)) ->
    In i (newlyGeneratedIcons st) \/ In i (map identity l).
Proof.
  intros Hstep l. induction l as [|s l IH]; intros st i H; cbn in *; [auto|].
  apply IH in H. destruct H as [H|H]; [|auto].
  apply Hstep in H. destruct H as [H|H]; auto.
Qed.

Lemma processSource_from (argvClean : bool) :
  stepFrom (Current.processSource env argvClean).
Proof.
  intros st s i. unfold Current.processSource.
  destruct (setHas _ _); [auto|].
  destruct (if negb argvClean then _ else false); [auto|apply generate_from].
Qed.

Lemma overwriteConflict_from : stepFrom (Current.overwriteConflict env).
Proof.
  intros st s i. unfold Current.overwriteConflict.
  destruct (setHas _ _); [auto|apply generate_from].
Qed.

Lemma earlier_from : stepFrom (Earlier.processSource env).
Proof.
  intros st s i. unfold Earlier.processSource.
  destruct (setHas _ _); [auto|apply generate_from].
Qed.

(** The conflicts are sources gone through. *)
Lemma conflicts_from (argvClean : bool) (l : list Source) (st : RunState)
  (s : Source) :
  In s (conflicts (fold_left (Current.processSource env argvClean) l st)) ->
  In s (conflicts st) \/ In s l.
Proof.
  revert st. induction l as [|x l IH]; intros st H; cbn in *; [auto|].
  apply IH in H. destruct H as [H|H]; [|auto].
  unfold Current.processSource in H.
  destruct (setHas _ _); [auto|].
  destruct (if negb argvClean then _ else false).
  - cbn in H. apply in_app_or in H. destruct H as [H|[H|[]]]; auto.
  - rewrite generate_conflicts in H. auto.
Qed.

Lemma processAll_from (argvClean : bool) (sources : list Source)
  (d : Directory) (i : IconIdentity) :
  In i (newlyGeneratedIcons (Current.processAll env argvClean sources d)) ->
  In i (map identity sources).
Proof.
  unfold Current.processAll, Current.handleConflicts.
  set (st1 := fold_left _ sources _).
  assert (H1 : forall j, In j (newlyGeneratedIcons st1) ->
                 In j (map identity sources)).
  { intros j Hj. apply (fold_from _ (processSource_from argvClean)) in Hj.
    destruct Hj as [[]|Hj]. exact Hj. }
  destruct (0 <? _)%nat; [|apply H1].
  destruct (overwriteAnswer env); [|apply H1].
  intro H. apply (fold_from _ overwriteConflict_from) in H.
  destruct H as [H|H]; [now apply H1|].
  apply in_map_iff in H. destruct H as [c [<- Hc]].
  apply in_map. apply conflicts_from in Hc. destruct Hc as [[]|Hc]. exact Hc.
Qed.

(** ** The counts of the summary *)

Definition handled (st : RunState) : nat :=
  successCount st + errorCount st + List.length (conflicts st).

Lemma generate_counts (s : Source) (st : RunState) :
  successCount (generate env s st) + errorCount (generate env s st)
  = S (successCount st + errorCount st)
  /\ skipCount (generate env s st) = skipCount st.
Proof. unfold generate. destruct (processSvgSource env s); cbn; lia. Qed.

Lemma processSource_handled (argvClean : bool) (l : list Source)
  (st : RunState) :
  let st' := fold_left (Current.processSource env argvClean) l st in
  handled st' = (handled st + List.length l)%nat
  /\ skipCount st' = skipCount st.
Proof.
  revert st. induction l as [|s l IH]; intro st; cbn; [lia|].
  destruct (IH (Current.processSource env argvClean st s)) as [E1 E2].
  rewrite E1, E2. unfold Current.processSource, handled.
  destruct (setHas _ _); [cbn; lia|].
  destruct (if negb argvClean then _ else false).
  - cbn. rewrite length_app. cbn. lia.
  - rewrite generate_conflicts.
    destruct (generate_counts s st) as [G1 G2]. lia.
Qed.

Lemma overwrite_counts (l : list Source) (st : RunState) :
  let st' := fold_left (Current.overwriteConflict env) l st in
  (successCount st' + errorCount st'
   <= successCount st + errorCount st + List.length l)%nat
  /\ skipCount st' = skipCount st.
Proof.
  revert st. induction l as [|s l IH]; intro st; cbn; [lia|].
  destruct (IH (Current.overwriteConflict env st s)) as [E1 E2].
  rewrite E2. unfold Current.overwriteConflict in *.
  destruct (setHas _ _); [lia|].
  destruct (generate_counts s st) as [G1 G2]. lia.
Qed.

Lemma earlier_counts (l : list Source) (st : RunState) :
  let st' := fold_left (Earlier.processSource env) l st in
  (successCount st' + errorCount st'
   = successCount st + errorCount st + List.length l)%nat.
Proof.
  revert st. induction l as [|s l IH]; intro st; cbn; [lia|].
  rewrite IH. unfold Earlier.processSource.
  destruct (setHas _ _); [cbn; lia|].
  destruct (generate_counts s st) as [G1 G2]. lia.
Qed.

(** Batches without a repeated component name. *)
Definition names (l : list Source) : list string :=
  map (fun s => componentName (identity s)) l.

Lemma NoDup_drop (a b : list string) (x : string) :
  NoDup (a ++ x :: b) -> NoDup (a ++ b).
Proof. apply NoDup_remove_1. Qed.

Lemma generate_distinct (s : Source) (st : RunState) (rest : list string) :
  NoDup (processedComponentNamesInRun st
         ++ componentName (identity s) :: rest) ->
  NoDup (processedComponentNamesInRun (generate env s st) ++ rest).
Proof.
  intro H. unfold generate. destruct (processSvgSource env s); cbn.
  - unfold setAdd.
    destruct (setHas _ _) eqn:Hs.
    + now apply NoDup_drop in H.
    + now rewrite <- app_assoc.
  - now apply NoDup_drop in H.
Qed.

Lemma processSource_distinct (argvClean : bool) (l : list Source)
  (st : RunState) :
  NoDup (processedComponentNamesInRun st ++ names (conflicts st) ++ names l) ->
  let st' := fold_left (Current.processSource env argvClean) l st in
  NoDup (processedComponentNamesInRun st' ++ names (conflicts st')).
Proof.
  revert st. induction l as [|s l IH]; intros st H; cbn.
  - cbn in H. now rewrite app_nil_r in H.
  - apply IH. cbn [names map] in H. unfold Current.processSource.
    assert (Hdrop : NoDup (processedComponentNamesInRun st
                           ++ names (conflicts st) ++ names l)).
    { rewrite app_assoc in H |- *. now apply NoDup_drop in H. }
    destruct (setHas _ _); [exact Hdrop|].
    destruct (if negb argvClean then _ else false).
    + cbn. unfold names in *. rewrite map_app. cbn.
      now rewrite <- app_assoc.
    + rewrite generate_conflicts. apply generate_distinct.
      eapply Permutation_NoDup; [|exact H].
      apply Permutation_app_head. symmetry. apply Permutation_middle.
Qed.

Lemma overwrite_distinct (l : list Source) (st : RunState) :
  NoDup (processedComponentNamesInRun st ++ names l) ->
  let st' := fold_left (Current.overwriteConflict env) l st in
  (successCount st' + errorCount st'
   = successCount st + errorCount st + List.length l)%nat.
Proof.
  revert st. induction l as [|s l IH]; intros st H; cbn; [lia|].
  cbn [names map] in H.
  assert (Hs : setHas (componentName (identity s))
                 (processedComponentNamesInRun st) = false).
  { apply setHas_false. intro Hin. apply NoDup_remove_2 in H.
    apply H. apply in_or_app. now left. }
  assert (E : Current.overwriteConflict env st s = generate env s st).
  { unfold Current.overwriteConflict. now rewrite Hs. }
  rewrite E. pose proof (IH _ (generate_distinct s st _ H)) as IH'.
  cbn zeta in IH'. rewrite IH'.
  destruct (generate_counts s st) as [G1 G2]. lia.
Qed.

End Tally.

(** ** A run under [--clean] *)

Section CleanRun.
Variable env : Environment.

Record cleanPass (st : RunState) : Prop :=
  { no_conflicts : conflicts st = [];
    nothing_skipped : skipCount st = 0%nat;
    only_generated :
      mapKeys (dir st)
      = map (fun n => n ++ ".svelte") (processedComponentNamesInRun st) }.

Lemma cleanPass_step (st : RunState) (s : Source) :
  cleanPass st -> cleanPass (Current.processSource env true st s).
Proof.
  intros [H1 H2 H3]. unfold Current.processSource.
  destruct (setHas _ _) eqn:Hs; [now constructor|].
  cbn [negb]. unfold generate.
  destruct (processSvgSource env s) as [content|]; [|now constructor].
  constructor; cbn [recordWritten conflicts skipCount dir
                    processedComponentNamesInRun]; auto.
  unfold setAdd. rewrite Hs, map_app. cbn [map].
  unfold writeFile. rewrite mapSet_fresh.
  - unfold mapKeys in *. now rewrite map_app, H3.
  - rewrite H3. intro Hin.
    apply in_map_iff in Hin. destruct Hin as [n [E Hn]].
    apply append_inv_tail in E. subst n.
    apply setHas_false in Hs. contradiction.
Qed.

Lemma cleanPass_fold (l : list Source) (st : RunState) :
  cleanPass st ->
  cleanPass (fold_left (Current.processSource env true) l st).
Proof.
  revert st. induction l as [|s l IH]; intros st H; cbn; [exact H|].
  apply IH. now apply cleanPass_step.
Qed.

End CleanRun.

(** ** Files that were in the directory before the run *)

Section Existing.
Variable env : Environment.

Lemma generate_touches (s : Source) (st : RunState) (f : string) :
  readFile f (dir (generate env s st)) = readFile f (dir st)
  \/ outputSvelteName s = f.
Proof.
  unfold generate. destruct (processSvgSource env s); cbn; [|now left].
  rewrite readFile_writeFile.
  destruct (String.eqb f (outputSvelteName s)) eqn:E; [|now left].
  apply String.eqb_eq in E. now right.
Qed.

Lemma overwrite_touches (l : list Source) (st : RunState) (f : string) :
  readFile f (dir (fold_left (Current.overwriteConflict env) l st))
  = readFile f (dir st)
  \/ exists s, In s l /\ outputSvelteName s = f.
Proof.
  revert st. induction l as [|x l IH]; intro st; cbn; [now left|].
  destruct (IH (Current.overwriteConflict env st x)) as [E|[s [Hs Hf]]].
  - rewrite E. unfold Current.overwriteConflict.
    destruct (setHas _ _); [now left|].
    destruct (generate_touches x st f) as [G|G]; [now left|].
    right. exists x. split; [now left | exact G].
  - right. exists s. split; [now right | exact Hf].
Qed.

End Existing.

(** ** The aggregate step of the current script *)

Lemma aggregate_writes (env : Environment) (fs : FileSystem) (d : Directory)
  (icon : IconIdentity) :
  In icon (getCurrentIconsFromComponents (Some (readdir d))) ->
  Current.aggregate env (Current.withComponents d fs)
  = mkFileSystem (Some d)
      (Some (Current.typeContent
               (sortIcons (collator env)
                  (getCurrentIconsFromComponents (Some (readdir d))))))
      (Some (createSvgIconLoaderComponent env)).
Proof.
  intro Hin. unfold Current.aggregate, Current.withComponents, listing.
  cbn [components option_map].
  assert (Hex : existsb (endsWithCI ".svelte") (readdir d) = true).
  { apply in_scan_iff in Hin. destruct Hin as [file [Hf [Hacc _]]].
    apply existsb_exists. exists file. split; [exact Hf|].
    unfold accepted in Hacc. apply andb_prop in Hacc. destruct Hacc as [Hacc _].
    apply andb_prop in Hacc. now destruct Hacc. }
  rewrite Hex. cbn [negb].
  destruct (getCurrentIconsFromComponents (Some (readdir d))) as [|i l] eqn:E;
    [contradiction|].
  reflexivity.
Qed.

(** ** Resolving the inputs *)

Section Resolve.
Variable w : Inputs.World.

(** A source as [resolveInputSources] builds it. *)
Definition resolvedFrom (input : string) (s : Source) : Prop :=
  (exists label, sanitizeName label = Some (identity s))
  /\ match type s with
     | UrlSource =>
         origin s = input
         /\ Inputs.startsWith "http://" input
            || Inputs.startsWith "https://" input = true
         /\ Inputs.fetchText w input = Some (payload s)
         /\ isEmpty (payload s) = false
     | FileSource =>
         Inputs.startsWith "http://" input
         || Inputs.startsWith "https://" input = false
         /\ Inputs.pathExists w (Inputs.resolvePath w input) = true
         /\ ((origin s = input /\ payload s = Inputs.resolvePath w input
              /\ endsWithCI ".svg" (payload s) = true)
             \/ exists files,
                  Inputs.globSvg w (Inputs.resolvePath w input) = Some files
                  /\ In (payload s) files
                  /\ origin s = Inputs.relative w (payload s))
     | DirectSource => False
     end.

Lemma pushNamed_In (label : string) (source : IconIdentity -> Source)
  (s : Source) :
  In s (Inputs.pushNamed label source []) ->
  exists names, sanitizeName label = Some names /\ s = source names.
Proof.
  unfold Inputs.pushNamed. destruct (sanitizeName label) as [names|];
    [|contradiction].
  intros [<-|[]]. eauto.
Qed.

Lemma pushAll_In (label : string -> string)
  (source : string -> IconIdentity -> Source) (files : list string)
  (s : Source) :
  In s (fold_left (fun sources file =>
                     Inputs.pushNamed (label file) (source file) sources)
          files []) ->
  exists file names,
    In file files /\ sanitizeName (label file) = Some names
    /\ s = source file names.
Proof.
  induction files as [|f files IH]; cbn; [contradiction|].
  rewrite pushAll_app. intro H. apply in_app_or in H. destruct H as [H|H].
  - apply pushNamed_In in H. destruct H as [names [E ->]].
    exists f, names. auto.
  - destruct (IH H) as [file [names [Hf [E ->]]]].
    exists file, names. auto.
Qed.

Lemma resolveInput_from (input : string) (s : Source) :
  In s (Inputs.resolveInput w [] input) -> resolvedFrom input s.
Proof.
  unfold Inputs.resolveInput, resolvedFrom.
  destruct (_ || _) eqn:Hurl.
  - unfold Inputs.fetchSvgContent.
    destruct (Inputs.fetchText w input) as [content|] eqn:Hf; [|contradiction].
    destruct (Inputs.urlBasename w input) as [name|]; [|contradiction].
    destruct (isEmpty content) eqn:Hc; [contradiction|]. cbn [negb].
    intro H. apply pushNamed_In in H. destruct H as [names [E ->]].
    cbn. split; [eauto|]. now rewrite Hc.
  - destruct (Inputs.pathExists w _) eqn:Hex; [|contradiction]. cbn [negb].
    destruct (Inputs.stat w _) as [stats|]; [|contradiction].
    destruct (_ && _) eqn:Hfile.
    + intro H. apply pushNamed_In in H. destruct H as [names [E ->]].
      cbn. split; [eauto|]. apply andb_prop in Hfile. destruct Hfile as [_ Hsvg].
      repeat split; auto.
    + destruct (Inputs.isDirectory stats); [|contradiction].
      destruct (Inputs.globSvg w _) as [files|] eqn:Hg; [|contradiction].
      intro H.
      apply (pushAll_In (Inputs.basename w)
               (fun file => mkSource FileSource (Inputs.relative w file) file))
        in H.
      destruct H as [file [names [Hin [E ->]]]].
      cbn. split; [eauto|]. repeat split; auto. right. exists files. auto.
Qed.

Lemma resolveInputSources_from (inputs : list Inputs.InputValue)
  (sources : list Source) (s : Source) :
  Inputs.resolveInputSources w inputs = Some sources -> In s sources ->
  exists input, In (Inputs.InputText input) inputs /\ resolvedFrom input s.
Proof.
  revert sources. induction inputs as [|[i|n] inputs IH]; intros sources.
  - intros [= <-] [].
  - unfold Inputs.resolveInputSources. cbn. rewrite resolveInputs_app.
    destruct (Inputs.resolveInputSources w inputs) as [rest|] eqn:E;
      [|discriminate].
    intros [= <-] H. apply in_app_or in H. destruct H as [H|H].
    + exists i. split; [now left | now apply resolveInput_from].
    + destruct (IH rest eq_refl H) as [input [Hin Hr]].
      exists input. split; [now right | auto].
  - discriminate.
Qed.

End Resolve.

(** ** The configuration of the optimizer *)

Section SvgoFacts.
Context {J : Svgo.Values}.

Lemma mapGet_absent {V : Type} (k : string) (m : list (string * V)) :
  ~ In k (mapKeys m) -> mapGet k m = None.
Proof.
  induction m as [|[k0 v0] m IH]; cbn; intro H; [reflexivity|].
  destruct (String.eqb k k0) eqn:E.
  - apply String.eqb_eq in E. exfalso. apply H. now left.
  - apply IH. intro Hin. apply H. now right.
Qed.

Lemma mapGet_spread (k : string)
  (target source : list (string * Svgo.Value J)) :
  NoDup (mapKeys source) ->
  mapGet k (Svgo.spread target source)
  = match mapGet k source with
    | Some v => Some v
    | None => mapGet k target
    end.
Proof.
  unfold Svgo.spread. revert target.
  induction source as [|[k0 v0] source IH]; intros target Hnd; [reflexivity|].
  inversion Hnd as [|? ? Hk0 Hs]; subst. cbn [fold_left fst snd mapGet].
  rewrite (IH _ Hs), mapGet_mapSet.
  destruct (String.eqb k k0) eqn:E; [|reflexivity].
  apply String.eqb_eq in E. subst. now rewrite (mapGet_absent _ _ Hk0).
Qed.

Lemma mapGet_spread_kept (k : string)
  (target source : list (string * Svgo.Value J)) :
  mapGet k target <> None -> mapGet k (Svgo.spread target source) <> None.
Proof.
  unfold Svgo.spread. revert target.
  induction source as [|[k0 v0] source IH]; intros target H; [exact H|].
  cbn [fold_left fst snd]. apply IH. rewrite mapGet_mapSet.
  destruct (String.eqb k k0); [discriminate | exact H].
Qed.

End SvgoFacts.

(** ** Further properties of the scanner *)

Lemma scan_invariant (files : list string) (m : list (string * IconIdentity)) :
  NoDup (mapKeys m) -> keyed componentName m ->
  NoDup (mapKeys (fold_left scanEntry files m))
  /\ keyed componentName (fold_left scanEntry files m).
Proof.
  revert m. induction files as [|f files IH]; intros m Hnd Hk; cbn; [auto|].
  apply IH; rewrite scanEntry_accepted; destruct (accepted f); auto.
  - now apply mapSet_keys_NoDup.
  - apply (mapSet_keyed componentName (scanned (stripSuffixCI ".svelte" f))).
    exact Hk.
Qed.

(** X8. The scanner returns nothing but components of the directory, each
    once: no two icons of the result share a component name, and every icon
    comes from an entry that ends in [.svelte] in some case, has that
    entry's stem as component name, and has the non-empty base name
    [componentNameToBaseName] recovers from the stem.  A missing directory
    gives the empty list. *)
Theorem scanner_returns_components_once (files : list string) :
  let icons := getCurrentIconsFromComponents (Some files) in
  NoDup (map componentName icons)
  /\ (forall icon, In icon icons ->
        exists file,
          In file files
          /\ endsWithCI ".svelte" file = true
          /\ componentName icon = stripSuffixCI ".svelte" file
          /\ componentNameToBaseName (componentName icon)
             = Some (baseName icon)
          /\ isEmpty (baseName icon) = false)
  /\ getCurrentIconsFromComponents None = [].
Proof.
  cbn zeta. split; [|split; [|reflexivity]].
  - unfold getCurrentIconsFromComponents.
    destruct (scan_invariant files []) as [Hnd Hk].
    + constructor.
    + intros k v [].
    + now rewrite keyed_values_keys.
  - intros icon Hin. apply in_scan_iff in Hin.
    destruct Hin as [file [Hf [Hacc ->]]]. exists file.
    unfold accepted in Hacc. apply andb_prop in Hacc. destruct Hacc as [Hacc Hb].
    apply andb_prop in Hacc. destruct Hacc as [He Hs].
    apply negb_true_iff in Hb, Hs. cbn [scanned componentName baseName] in *.
    repeat split; auto.
    unfold componentNameToBaseName. now rewrite Hs.
Qed.

(** X9. The extension [.svelte] is recognised in any mix of cases: an entry
    ending in a spelling of it is scanned as the entry ending in [.svelte],
    under the same component name, so two such entries give one icon. *)
Theorem svelte_extension_any_case (stem extension : string)
  (existingIcons : list (string * IconIdentity)) :
  matchesCI ".svelte" extension = true ->
  endsWithCI ".svelte" (stem ++ extension) = true
  /\ stripSuffixCI ".svelte" (stem ++ extension) = stem
  /\ scanEntry existingIcons (stem ++ extension)
     = scanEntry existingIcons (stem ++ ".svelte").
Proof.
  intro H.
  destruct (stripSuffixCI_append ".svelte" stem extension H eq_refl)
    as [E1 E2].
  destruct (stripSuffixCI_append ".svelte" stem ".svelte" eq_refl eq_refl)
    as [E3 E4].
  split; [exact E2|]. split; [exact E1|].
  unfold scanEntry. now rewrite E1, E2, E3, E4.
Qed.

Lemma svelte_extension_upper :
  endsWithCI ".svelte" "ArrowLeft.SVELTE" = true
  /\ stripSuffixCI ".svelte" "ArrowLeft.SVELTE" = "ArrowLeft"
  /\ scanEntry [("ArrowLeft", mkIcon "arrow-left" "ArrowLeft")]
       "ArrowLeft.SVELTE"
     = scanEntry [("ArrowLeft", mkIcon "arrow-left" "ArrowLeft")]
         "ArrowLeft.svelte".
Proof.
  exact (svelte_extension_any_case "ArrowLeft" ".SVELTE"
           [("ArrowLeft", mkIcon "arrow-left" "ArrowLeft")] eq_refl).
Defined.

(** ** Further properties of a run *)

(** X10. In both scripts the icons generated in one run carry pairwise
    distinct component names, which are the names of the set
    [processedComponentNamesInRun] in the order of generation; there are
    [successCount] of them, each is the identity of one of the sources, and
    the file of each is in the components directory when the loops end. *)
Theorem generated_icons_distinct (env : Environment) (argvClean : bool)
  (sources : list Source) (d : Directory) :
  let current := Current.processAll env argvClean sources d in
  let earlier := fold_left (Earlier.processSource env) sources (initialState d) in
  (NoDup (map componentName (newlyGeneratedIcons current))
   /\ map componentName (newlyGeneratedIcons current)
      = processedComponentNamesInRun current
   /\ List.length (newlyGeneratedIcons current) = successCount current
   /\ incl (newlyGeneratedIcons current) (map identity sources)
   /\ forall icon, In icon (newlyGeneratedIcons current) ->
        In (componentName icon ++ ".svelte") (readdir (dir current)))
  /\ (NoDup (map componentName (newlyGeneratedIcons earlier))
      /\ map componentName (newlyGeneratedIcons earlier)
         = processedComponentNamesInRun earlier
      /\ List.length (newlyGeneratedIcons earlier) = successCount earlier
      /\ incl (newlyGeneratedIcons earlier) (map identity sources)
      /\ forall icon, In icon (newlyGeneratedIcons earlier) ->
           In (componentName icon ++ ".svelte") (readdir (dir earlier))).
Proof.
  cbn zeta. split.
  - destruct (tallied_processAll env argvClean sources d) as [H1 H2 H3 H4].
    rewrite H1. repeat split; auto.
    + intros i Hi. now apply processAll_from in Hi.
    + intros i Hi. now apply pathExists_readdir, H4.
  - assert (H : tallied (fold_left (Earlier.processSource env) sources
                           (initialState d))).
    { apply tallied_fold; [|apply tallied_initial].
      intros st s. apply tallied_earlier. }
    destruct H as [H1 H2 H3 H4]. rewrite H1. repeat split; auto.
    + intros i Hi. apply (fold_from _ (earlier_from env)) in Hi.
      destruct Hi as [[]|Hi]. exact Hi.
    + intros i Hi. now apply pathExists_readdir, H4.
Qed.

(** X11. The summary of the current script never counts more than there are
    sources: generated, failed and skipped add up to at most the number of
    sources processed.  In the earlier script, which sets nothing aside,
    generated and failed add up to exactly that number. *)
Theorem summary_counts (env : Environment) (argvClean : bool)
  (sources : list Source) (d : Directory) :
  let current := Current.processAll env argvClean sources d in
  let earlier := fold_left (Earlier.processSource env) sources (initialState d) in
  (successCount current + errorCount current + skipCount current
   <= List.length sources)%nat
  /\ (successCount earlier + errorCount earlier = List.length sources)%nat.
Proof.
  cbn zeta. split.
  - unfold Current.processAll, Current.handleConflicts.
    destruct (processSource_handled env argvClean sources (initialState d))
      as [E1 E2].
    cbn zeta in E1, E2. set (st1 := fold_left _ sources _) in *.
    unfold handled in E1. cbn in E1, E2.
    destruct (0 <? List.length (conflicts st1))%nat eqn:Hpos.
    + destruct (overwriteAnswer env).
      * destruct (overwrite_counts env (conflicts st1) st1) as [G1 G2].
        cbn zeta in G1, G2. lia.
      * cbn. lia.
    + apply Nat.ltb_ge in Hpos. lia.
  - pose proof (earlier_counts env sources (initialState d)) as E.
    cbn zeta in E. cbn in E. exact E.
Qed.

(** X12. When the operator declines the overwrite, or when no two sources
    of the batch share a component name, the counts of the summary add up:
    generated, failed and skipped are together the number of sources. *)
Theorem summary_adds_up (env : Environment) (argvClean : bool)
  (sources : list Source) (d : Directory) :
  let st := Current.processAll env argvClean sources d in
  overwriteAnswer env = false
  \/ NoDup (map (fun s => componentName (identity s)) sources) ->
  (successCount st + errorCount st + skipCount st = List.length sources)%nat.
Proof.
  cbn zeta. intro H.
  unfold Current.processAll, Current.handleConflicts.
  destruct (processSource_handled env argvClean sources (initialState d))
    as [E1 E2].
  pose proof (processSource_distinct env argvClean sources (initialState d))
    as Hd.
  cbn zeta in E1, E2, Hd. set (st1 := fold_left _ sources _) in *.
  unfold handled in E1. cbn in E1, E2.
  destruct (0 <? List.length (conflicts st1))%nat eqn:Hpos.
  - destruct (overwriteAnswer env) eqn:Hans.
    + destruct H as [H|H]; [discriminate|].
      destruct (overwrite_counts env (conflicts st1) st1) as [_ G2].
      cbn zeta in G2. rewrite G2, E2.
      pose proof (overwrite_distinct env (conflicts st1) st1 (Hd H)) as G.
      cbn zeta in G. lia.
    + cbn. lia.
  - apply Nat.ltb_ge in Hpos. lia.
Qed.

Lemma summary_adds_up_declined :
  let st :=
    Current.processAll (sampleEnvironment [] [] false) false twoSpellings
      [("MyIcon.svelte", "<svg data-old/>")] in
  (successCount st + errorCount st + skipCount st = 2)%nat.
Proof.
  exact (summary_adds_up (sampleEnvironment [] [] false) false twoSpellings
           [("MyIcon.svelte", "<svg data-old/>")] (or_introl eq_refl)).
Defined.

(** X13. Under [--clean] nothing is set aside and nothing is skipped: every
    source is generated or fails, and when the loop ends the listing of the
    components directory is exactly the files of the icons generated in the
    run, sorted by name. *)
Theorem clean_run_holds_generated_only (env : Environment)
  (sources : list Source) (fs : FileSystem) :
  let st :=
    Current.processAll env true sources (Current.prepareDirectories true fs) in
  conflicts st = []
  /\ skipCount st = 0%nat
  /\ (successCount st + errorCount st = List.length sources)%nat
  /\ readdir (dir st)
     = sortStrings
         (map (fun icon => componentName icon ++ ".svelte")
            (newlyGeneratedIcons st)).
Proof.
  cbn zeta. unfold Current.processAll, Current.prepareDirectories.
  assert (H0 : cleanPass (initialState [])) by now constructor.
  pose proof (cleanPass_fold env sources _ H0) as [H1 H2 H3].
  assert (Ht : tallied (fold_left (Current.processSource env true) sources
                          (initialState []))).
  { apply tallied_fold; [|apply tallied_initial].
    intros st s. apply tallied_processSource. }
  destruct (processSource_handled env true sources (initialState []))
    as [E1 _].
  cbn zeta in E1. set (st1 := fold_left _ sources _) in *.
  unfold Current.handleConflicts. rewrite H1. cbn [List.length Nat.ltb Nat.leb].
  unfold handled in E1. rewrite H1 in E1. cbn in E1.
  repeat split; auto; [lia|].
  unfold readdir. rewrite H3, <- (names_of_generated _ Ht).
  now rewrite map_map.
Qed.

(** X14. Without [--clean] a file that was in the components directory
    before the run is still there when the loops end, and its content is
    the same unless the operator accepted the overwrite and the file is the
    target of one of the sources. *)
Theorem existing_files_kept (env : Environment) (fs : FileSystem)
  (sources : list Source) (f content : string) :
  let d0 := Current.prepareDirectories false fs in
  let st := Current.processAll env false sources d0 in
  readFile f d0 = Some content ->
  In f (readdir (dir st))
  /\ (readFile f (dir st) = Some content
      \/ (overwriteAnswer env = true
          /\ exists s, In s sources /\ outputSvelteName s = f)).
Proof.
  cbn zeta. intro Hf.
  set (d0 := Current.prepareDirectories false fs) in *.
  assert (Hex : pathExists f d0 = true)
    by (rewrite pathExists_readFile; now rewrite Hf).
  unfold Current.processAll.
  pose proof (firstPass_fold env d0 sources _ (firstPass_initial d0)) as Hst.
  set (st1 := fold_left (Current.processSource env false) sources
                (initialState d0)) in *.
  split.
  - apply (handleConflicts_readdir env), (listing_grows _ _ Hst).
    now apply pathExists_readdir.
  - pose proof (existing_untouched _ _ Hst f Hex) as Hsame.
    unfold Current.handleConflicts.
    destruct (0 <? _)%nat; [|left; now rewrite Hsame].
    destruct (overwriteAnswer env);
      [|left; cbn [dir Current.setSkipCount]; now rewrite Hsame].
    destruct (overwrite_touches env (conflicts st1) st1 f) as [E|[s [Hs E]]].
    + left. now rewrite E, Hsame.
    + right. split; [reflexivity|]. exists s. split; [|exact E].
      apply conflicts_from in Hs. destruct Hs as [[]|Hs]. exact Hs.
Qed.

Lemma existing_files_kept_other_icon :
  let st :=
    Current.processAll (sampleEnvironment [] [] true) false twoSpellings
      [("Logo.svelte", "<svg data-logo/>");
       ("MyIcon.svelte", "<svg data-old/>")] in
  In "Logo.svelte" (readdir (dir st))
  /\ (readFile "Logo.svelte" (dir st) = Some "<svg data-logo/>"
      \/ (true = true
          /\ exists s, In s twoSpellings /\ outputSvelteName s = "Logo.svelte")).
Proof.
  exact (existing_files_kept (sampleEnvironment [] [] true)
           (mkFileSystem
              (Some [("Logo.svelte", "<svg data-logo/>");
                     ("MyIcon.svelte", "<svg data-old/>")]) None None)
           twoSpellings "Logo.svelte" "<svg data-logo/>" eq_refl).
Defined.

(** X15. The current script lists what it generated: for every icon
    generated in the run whose component name is neither empty nor the
    single hyphen, the aggregate step writes the loader and a type artifact
    that holds the identity the scanner gives to the component name, that
    is, the base name recovered from the component name, not the base name
    of the source. *)
Theorem generated_icons_are_listed (env : Environment) (argvClean : bool)
  (sources : list Source) (d : Directory) (fs : FileSystem)
  (icon : IconIdentity) :
  let st := Current.processAll env argvClean sources d in
  let fsF := Current.aggregate env (Current.withComponents (dir st) fs) in
  In icon (newlyGeneratedIcons st) ->
  isEmpty (componentName icon) = false ->
  String.eqb (componentName icon) "-" = false ->
  exists icons,
    typesFile fsF = Some (Current.typeContent icons)
    /\ loaderFile fsF = Some (createSvgIconLoaderComponent env)
    /\ In (scanned (componentName icon)) icons.
Proof.
  cbn zeta. intros Hin Hne Hh.
  pose proof (tallied_processAll env argvClean sources d) as Ht.
  set (st := Current.processAll env argvClean sources d) in *.
  destruct (written_component_accepted _ Hne Hh) as [Hacc Hstem].
  assert (Hscan : In (scanned (componentName icon))
                    (getCurrentIconsFromComponents (Some (readdir (dir st))))).
  { apply in_scan_iff. exists (componentName icon ++ ".svelte").
    split; [|split; [exact Hacc | now rewrite Hstem]].
    apply pathExists_readdir. now apply (generated_on_disk _ Ht). }
  rewrite (aggregate_writes env fs (dir st) _ Hscan). cbn.
  eexists. split; [reflexivity|]. split; [reflexivity|].
  unfold sortIcons. now apply sortBy_In.
Qed.

Lemma generated_low_line_icon_is_listed :
  let env := sampleEnvironment [] [] false in
  let st := Current.processAll env false (fileSource "my_icon.svg") [] in
  let fsF :=
    Current.aggregate env
      (Current.withComponents (dir st) (mkFileSystem None None None)) in
  exists icons,
    typesFile fsF = Some (Current.typeContent icons)
    /\ loaderFile fsF = Some (createSvgIconLoaderComponent env)
    /\ In (mkIcon "my-icon" "MyIcon") icons.
Proof.
  exact (generated_icons_are_listed (sampleEnvironment [] [] false) false
           (fileSource "my_icon.svg") [] (mkFileSystem None None None)
           (mkIcon "my_icon" "MyIcon") (or_introl eq_refl) eq_refl eq_refl).
Defined.

(** X16. The earlier script lists what it generated under the names of the
    source: for every icon generated in the run, the aggregate step writes
    the loader and a type artifact that holds the icon itself, base name
    and component name as [sanitizeName] gave them, whatever the scan of
    the directory returns. *)
Theorem earlier_generated_icons_are_listed (env : Environment)
  (argvClean : bool) (sources : list Source) (d : Directory)
  (fs : FileSystem) (icon : IconIdentity) :
  let st := fold_left (Earlier.processSource env) sources (initialState d) in
  let fsF := Earlier.aggregate env argvClean (newlyGeneratedIcons st) fs in
  In icon (newlyGeneratedIcons st) ->
  exists icons,
    typesFile fsF = Some (Earlier.typeContent icons)
    /\ loaderFile fsF = Some (createSvgIconLoaderComponent env)
    /\ In icon icons.
Proof.
  cbn zeta. intro Hin.
  assert (Ht : tallied (fold_left (Earlier.processSource env) sources
                          (initialState d))).
  { apply tallied_fold; [|apply tallied_initial].
    intros st s. apply tallied_earlier. }
  set (st := fold_left (Earlier.processSource env) sources (initialState d))
    in *.
  unfold Earlier.aggregate.
  destruct (newlyGeneratedIcons st) as [|i0 l0] eqn:En; [contradiction|].
  cbn [List.length Nat.eqb andb]. rewrite <- En in *.
  set (existing := if negb argvClean then _ else []).
  assert (Hlisted : In icon (Earlier.allIcons (collator env) existing
                               (newlyGeneratedIcons st))).
  { apply in_allIcons. rewrite lastWith_app.
    rewrite (lastWith_distinct componentName _ icon); [reflexivity| |exact Hin].
    rewrite (names_of_generated _ Ht). apply (names_distinct _ Ht). }
  destruct (Earlier.allIcons (collator env) existing (newlyGeneratedIcons st))
    as [|i l] eqn:Ea; [contradiction|].
  cbn [List.length Nat.eqb typesFile loaderFile].
  eexists. split; [reflexivity|]. split; [reflexivity|]. exact Hlisted.
Qed.

Lemma earlier_low_line_icon_is_listed :
  let env := sampleEnvironment [] [] false in
  let st :=
    fold_left (Earlier.processSource env) (fileSource "my_icon.svg")
      (initialState []) in
  let fsF :=
    Earlier.aggregate env false (newlyGeneratedIcons st)
      (mkFileSystem (Some (dir st)) None None) in
  exists icons,
    typesFile fsF = Some (Earlier.typeContent icons)
    /\ loaderFile fsF = Some (createSvgIconLoaderComponent env)
    /\ In (mkIcon "my_icon" "MyIcon") icons.
Proof.
  exact (earlier_generated_icons_are_listed (sampleEnvironment [] [] false)
           false (fileSource "my_icon.svg") []
           (mkFileSystem (Some [("MyIcon.svelte", "<svg data-from='my_icon.svg'/>")])
              None None)
           (mkIcon "my_icon" "MyIcon") (or_introl eq_refl)).
Defined.

(** ** Inputs, configuration, a whole run *)

(** X17. Every source [resolveInputSources] returns was named by
    [sanitizeName], so that its base name is not empty and its component
    name is made of letters and digits, and comes from one of the inputs: a
    source of type [url] from an input that begins with [http://] or
    [https://] and whose content was fetched and is not empty; a source of
    type [file] from an input of another form whose resolved path exists,
    and which is either that path, ending in [.svg] in some case, or a file
    the glob found under it.  No source of type [direct] is returned. *)
Theorem resolved_sources_are_named (w : Inputs.World)
  (inputs : list Inputs.InputValue) (sources : list Source) (s : Source) :
  Inputs.resolveInputSources w inputs = Some sources -> In s sources ->
  (exists input, In (Inputs.InputText input) inputs /\ resolvedFrom w input s)
  /\ isEmpty (baseName (identity s)) = false
  /\ forallChars isAlnum (componentName (identity s)) = true.
Proof.
  intros Hres H. apply (resolveInputSources_from w _ _ _ Hres) in H.
  destruct H as [input [Hin Hr]]. split; [eauto|].
  destruct Hr as [[label Hlabel] _].
  destruct (sanitizeName_shape label _ Hlabel) as [_ [Hne [Hp _]]].
  split; [exact Hne|].
  unfold pascalShaped in Hp. apply andb_prop in Hp. now destruct Hp.
Qed.

Lemma resolved_my_icon :
  (exists input,
     In (Inputs.InputText input) [Inputs.InputText "my_icon.svg"]
     /\ resolvedFrom (sampleWorld ["my_icon.svg"] []) input
          (mkSource FileSource "my_icon.svg" "my_icon.svg"
             (mkIcon "my_icon" "MyIcon")))
  /\ isEmpty "my_icon" = false
  /\ forallChars isAlnum "MyIcon" = true.
Proof.
  exact (resolved_sources_are_named (sampleWorld ["my_icon.svg"] [])
           [Inputs.InputText "my_icon.svg"]
           [mkSource FileSource "my_icon.svg" "my_icon.svg"
              (mkIcon "my_icon" "MyIcon")]
           (mkSource FileSource "my_icon.svg" "my_icon.svg"
              (mkIcon "my_icon" "MyIcon"))
           eq_refl (or_introl eq_refl)).
Defined.

(** X18. The inputs are resolved one after the other and independently:
    the sources of a list of inputs are the sources of its first part
    followed by those of the rest, so the order of the inputs is the order
    of the sources and an input given twice gives its sources twice; the
    resolution of the list throws when that of a part does, and inputs that
    are all strings are resolved without a throw. *)
Theorem inputs_resolve_in_order (w : Inputs.World)
  (first rest : list Inputs.InputValue) :
  Inputs.resolveInputSources w (first ++ rest)
  = match Inputs.resolveInputSources w first,
          Inputs.resolveInputSources w rest with
    | Some sources, Some more => Some (sources ++ more)%list
    | _, _ => None
    end
  /\ forall texts,
       Inputs.resolveInputSources w (map Inputs.InputText texts)
       = Some (fold_left (Inputs.resolveInput w) texts []).
Proof.
  split.
  - unfold Inputs.resolveInputSources at 1 2. generalize (@nil Source).
    induction first as [|[i|n] first IH]; intro sources; cbn.
    + rewrite resolveInputs_app.
      now destruct (Inputs.resolveInputSources w rest).
    + apply IH.
    + reflexivity.
  - intro texts. unfold Inputs.resolveInputSources. generalize (@nil Source).
    induction texts as [|t texts IH]; intro sources; cbn;
      [reflexivity | apply IH].
Qed.

(** X19. Whatever the loader does, [loadSvgoConfiguration] returns either
    an object that has a [plugins] property, the default plugins or a
    truthy value, and a [multipass] property, or a truthy value that is not
    an object, as it was loaded. *)
Theorem loadSvgoConfiguration_result (J : Svgo.Values) (loader : Svgo.Loader J)
  (configPath : option string) :
  match Svgo.loadSvgoConfiguration loader configPath with
  | Svgo.ConfigObject properties =>
      (exists plugins,
         mapGet "plugins" properties = Some plugins
         /\ (plugins = Svgo.defaultPlugins J \/ Svgo.truthy J plugins = true))
      /\ exists multipass, mapGet "multipass" properties = Some multipass
  | Svgo.ConfigValue value =>
      Svgo.truthy J value = true /\ Svgo.asObject J value = None
  end.
Proof.
  assert (Hd : (exists plugins,
                  mapGet "plugins" (@Svgo.defaultSvgoConfig J) = Some plugins
                  /\ (plugins = Svgo.defaultPlugins J
                      \/ Svgo.truthy J plugins = true))
               /\ exists multipass,
                    mapGet "multipass" (@Svgo.defaultSvgoConfig J)
                    = Some multipass).
  { split; eexists; cbn; eauto. }
  unfold Svgo.loadSvgoConfiguration.
  destruct configPath as [configPath|]; [|exact Hd].
  destruct (isEmpty configPath); [exact Hd|].
  destruct (Svgo.pathExists loader _); [|exact Hd].
  destruct (if _ || _ then _ else _) as [configModule|]; [|exact Hd].
  destruct (Svgo.truthy J configModule) eqn:Ht; [|exact Hd].
  destruct (Svgo.asObject J configModule) as [properties|] eqn:Ho;
    [|now split].
  unfold Svgo.mergeWithDefault. split.
  - eexists. rewrite mapGet_mapSet. cbn [String.eqb Ascii.eqb Bool.eqb].
    split; [reflexivity|]. unfold Svgo.orElse.
    destruct (mapGet "plugins" properties) as [p|]; [|now left].
    destruct (Svgo.truthy J p) eqn:Hp; [now right | now left].
  - rewrite mapGet_mapSet. cbn [String.eqb Ascii.eqb Bool.eqb].
    destruct (mapGet "multipass" (Svgo.spread _ properties)) as [m|] eqn:E;
      [eauto|].
    exfalso. revert E. apply mapGet_spread_kept. cbn. discriminate.
Qed.

(** X20. A configuration object loaded from the given path overrides the
    defaults property by property: each of its properties but [plugins] is
    returned as it is, a default that it does not set is kept, and
    [plugins] is its own when truthy and the default plugins otherwise.
    The two lists of plugins are never combined. *)
Theorem custom_configuration_overrides (J : Svgo.Values)
  (properties : list (string * Svgo.Value J)) (key : string) :
  NoDup (mapKeys properties) ->
  mapGet key (Svgo.mergeWithDefault properties)
  = if String.eqb key "plugins"
    then Some (Svgo.orElse (mapGet "plugins" properties) (Svgo.defaultPlugins J))
    else match mapGet key properties with
         | Some value => Some value
         | None => mapGet key Svgo.defaultSvgoConfig
         end.
Proof.
  intro Hnd. unfold Svgo.mergeWithDefault. rewrite mapGet_mapSet.
  destruct (String.eqb key "plugins"); [reflexivity|].
  rewrite (mapGet_spread key _ properties Hnd).
  destruct (mapGet key properties); [reflexivity|].
  assert (Hdef : NoDup (mapKeys (@Svgo.defaultSvgoConfig J))).
  { cbn. constructor; [|constructor; [intros []|constructor]].
    intros [H|[]]. discriminate. }
  rewrite (mapGet_spread key [] _ Hdef).
  now destruct (mapGet key Svgo.defaultSvgoConfig).
Qed.

Lemma custom_multipass_keeps_default_plugins :
  mapGet "plugins"
    (@Svgo.mergeWithDefault sampleValues [("multipass", "false")])
  = Some "[preset-default, ...]".
Proof.
  exact (custom_configuration_overrides sampleValues [("multipass", "false")]
           "plugins" (NoDup_cons _ (fun H : In _ [] => H) (NoDup_nil _))).
Defined.

(** X21. A run of the current script on inputs given as arguments lists
    every component it generated that has a name: when an icon with a
    non-empty component name has been generated, the run ends with exit
    code zero, the components directory as the loops left it, the loader,
    and a type artifact that holds the scanned identity of the component,
    whose base name is itself a label [sanitizeName] maps to that
    identity. *)
Theorem run_lists_generated_components (w : Inputs.World) (env : Environment)
  (argv : Argv) (fs : FileSystem) (sources : list Source)
  (icon : IconIdentity) :
  let st :=
    Current.processAll env (clean argv) sources
      (Current.prepareDirectories (clean argv) fs) in
  world env = w ->
  Inputs.resolveInputSources w (input argv) = Some sources ->
  regenerate argv = false ->
  prepareDirectoriesFails env = false ->
  In icon (newlyGeneratedIcons st) ->
  isEmpty (componentName icon) = false ->
  exists icons,
    Current.run env argv fs
    = mkOutcome 0
        (mkFileSystem (Some (dir st)) (Some (Current.typeContent icons))
           (Some (createSvgIconLoaderComponent env)))
    /\ In (scanned (componentName icon)) icons
    /\ sanitizeName (baseName (scanned (componentName icon)))
       = Some (scanned (componentName icon)).
Proof.
  cbn zeta. intros Hw Hres Hreg Hprep Hin Hne. subst w.
  pose proof (tallied_processAll env (clean argv) sources
                (Current.prepareDirectories (clean argv) fs)) as Ht.
  pose proof (processAll_from env _ _ _ _ Hin) as Hsrc.
  apply in_map_iff in Hsrc. destruct Hsrc as [s [Hid Hs]].
  assert (Hsources : sources <> [])
    by (intro E; rewrite E in Hs; contradiction).
  assert (Hinput : (0 <? List.length (input argv))%nat = true).
  { destruct (input argv); [|reflexivity].
    cbn in Hres. congruence. }
  assert (Hrun : (if (0 <? List.length (input argv))%nat
                  then Inputs.resolveInputSources (world env) (input argv)
                  else Some (interactiveSources env)) = Some sources)
    by now rewrite Hinput.
  rewrite (run_processes_sources env argv fs sources Hrun Hreg Hsources Hprep).
  set (st := Current.processAll env (clean argv) _ _) in *.
  apply (resolveInputSources_from _ _ _ _ Hres) in Hs.
  destruct Hs as [i [_ [[label Hlabel] _]]]. rewrite Hid in Hlabel.
  destruct (sanitizeName_shape label icon Hlabel) as [_ [_ [Hp _]]].
  assert (Hh : String.eqb (componentName icon) "-" = false).
  { destruct (String.eqb (componentName icon) "-") eqn:E; [|reflexivity].
    apply String.eqb_eq in E. rewrite E in Hp. discriminate. }
  destruct (written_component_accepted _ Hne Hh) as [Hacc Hstem].
  assert (Hscan : In (scanned (componentName icon))
                    (getCurrentIconsFromComponents (Some (readdir (dir st))))).
  { apply in_scan_iff. exists (componentName icon ++ ".svelte").
    split; [|split; [exact Hacc | now rewrite Hstem]].
    apply pathExists_readdir. now apply (generated_on_disk _ Ht). }
  rewrite (aggregate_writes env fs (dir st) _ Hscan).
  eexists. split; [reflexivity|]. split.
  - unfold sortIcons. now apply sortBy_In.
  - destruct (recovered_names_component _ Hp Hne) as [b [Hb Hsan]].
    unfold componentNameToBaseName in Hb. rewrite Hne in Hb.
    inversion Hb; subst b. exact Hsan.
Qed.

Lemma run_lists_my_icon :
  let w := sampleWorld ["my_icon.svg"] [] in
  let env := worldEnvironment w [] false in
  let argv := mkArgv false false [Inputs.InputText "my_icon.svg"] in
  let fs := mkFileSystem None None None in
  let st :=
    Current.processAll env false
      [mkSource FileSource "my_icon.svg" "my_icon.svg"
         (mkIcon "my_icon" "MyIcon")] [] in
  exists icons,
    Current.run env argv fs
    = mkOutcome 0
        (mkFileSystem (Some (dir st)) (Some (Current.typeContent icons))
           (Some "<loader/>"))
    /\ In (mkIcon "my-icon" "MyIcon") icons
    /\ sanitizeName "my-icon" = Some (mkIcon "my-icon" "MyIcon").
Proof.
  exact (run_lists_generated_components (sampleWorld ["my_icon.svg"] [])
           (worldEnvironment (sampleWorld ["my_icon.svg"] []) [] false)
           (mkArgv false false [Inputs.InputText "my_icon.svg"])
           (mkFileSystem None None None)
           [mkSource FileSource "my_icon.svg" "my_icon.svg"
              (mkIcon "my_icon" "MyIcon")]
           (mkIcon "my_icon" "MyIcon")
           eq_refl eq_refl eq_refl eq_refl (or_introl eq_refl) eq_refl).
Defined.

(** ** What the generated files hold *)

Section Renderings.
Variable env : Environment.
Variable batch : list Source.

(** Every generated icon has the rendering of one of the sources of the
    batch in its file. *)
Definition rendered (st : RunState) : Prop :=
  forall icon, In icon (newlyGeneratedIcons st) ->
    exists s content,
      In s batch /\ identity s = icon
      /\ processSvgSource env s = Some content
      /\ readFile (componentName icon ++ ".svelte") (dir st) = Some content.

Lemma rendered_same (st st' : RunState) :
  newlyGeneratedIcons st' = newlyGeneratedIcons st -> dir st' = dir st ->
  rendered st -> rendered st'.
Proof. unfold rendered. intros -> ->. auto. Qed.

Lemma rendered_generate (s : Source) (st : RunState) :
  In s batch -> tallied st -> rendered st ->
  setHas (componentName (identity s)) (processedComponentNamesInRun st)
  = false ->
  rendered (generate env s st).
Proof.
  intros Hs Ht Hr Hfresh. unfold generate.
  destruct (processSvgSource env s) as [content|] eqn:Hc;
    [|now apply (rendered_same st)].
  intros icon Hin. cbn in Hin. apply in_app_or in Hin.
  cbn [recordWritten dir]. rewrite readFile_writeFile.
  destruct Hin as [Hin|[<-|[]]].
  - destruct (Hr icon Hin) as [s0 [c0 [H1 [H2 [H3 H4]]]]].
    exists s0, c0. repeat split; auto.
    destruct (String.eqb _ (outputSvelteName s)) eqn:E; [|exact H4].
    apply String.eqb_eq, append_inv_tail in E.
    apply setHas_false in Hfresh. exfalso. apply Hfresh.
    rewrite <- E, <- (names_of_generated _ Ht). now apply in_map.
  - exists s, content. repeat split; auto.
    unfold outputSvelteName. now rewrite String.eqb_refl.
Qed.

Lemma rendered_fold (step : RunState -> Source -> RunState) :
  (forall st s, tallied st -> tallied (step st s)) ->
  (forall st s, In s batch -> tallied st -> rendered st ->
                rendered (step st s)) ->
  forall l st, incl l batch -> tallied st -> rendered st ->
               rendered (fold_left step l st).
Proof.
  intros Ht Hr l. induction l as [|s l IH]; intros st Hl Hst Hre; cbn;
    [exact Hre|].
  apply IH.
  - intros x Hx. apply Hl. now right.
  - now apply Ht.
  - apply Hr; auto. apply Hl. now left.
Qed.

Lemma rendered_processSource (argvClean : bool) (st : RunState) (s : Source) :
  In s batch -> tallied st -> rendered st ->
  rendered (Current.processSource env argvClean st s).
Proof.
  intros Hs Ht Hr. unfold Current.processSource.
  destruct (setHas _ _) eqn:Hfresh; [now apply (rendered_same st)|].
  destruct (if negb argvClean then _ else false);
    [now apply (rendered_same st) | now apply rendered_generate].
Qed.

Lemma rendered_overwriteConflict (st : RunState) (s : Source) :
  In s batch -> tallied st -> rendered st ->
  rendered (Current.overwriteConflict env st s).
Proof.
  intros Hs Ht Hr. unfold Current.overwriteConflict.
  destruct (setHas _ _) eqn:Hfresh; [exact Hr | now apply rendered_generate].
Qed.

Lemma rendered_earlier (st : RunState) (s : Source) :
  In s batch -> tallied st -> rendered st ->
  rendered (Earlier.processSource env st s).
Proof.
  intros Hs Ht Hr. unfold Earlier.processSource.
  destruct (setHas _ _) eqn:Hfresh;
    [now apply (rendered_same st) | now apply rendered_generate].
Qed.

End Renderings.

Lemma scan_without_components (files : list string) :
  existsb (endsWithCI ".svelte") files = false ->
  getCurrentIconsFromComponents (Some files) = [].
Proof.
  intro H.
  destruct (getCurrentIconsFromComponents (Some files)) as [|i l] eqn:E;
    [reflexivity|].
  assert (Hin : In i (getCurrentIconsFromComponents (Some files)))
    by (rewrite E; now left).
  apply in_scan_iff in Hin. destruct Hin as [file [Hf [Hacc _]]].
  unfold accepted in Hacc. apply andb_prop in Hacc. destruct Hacc as [Hacc _].
  apply andb_prop in Hacc. destruct Hacc as [Hends _].
  assert (Hex : existsb (endsWithCI ".svelte") files = true)
    by (apply existsb_exists; eauto).
  congruence.
Qed.

(** X22. The aggregate step that ends a run of the current script is the
    regenerate mode: from the same output directory both give the same
    files.  Regenerating again changes nothing. *)
Theorem aggregate_is_regenerate (env : Environment) (fs : FileSystem) :
  Current.aggregate env fs = Current.regenerateFilesFromComponents env fs
  /\ Current.regenerateFilesFromComponents env
       (Current.regenerateFilesFromComponents env fs)
     = Current.regenerateFilesFromComponents env fs.
Proof.
  split.
  - unfold Current.aggregate, Current.regenerateFilesFromComponents, listing.
    destruct (components fs) as [d|]; [|reflexivity]. cbn [option_map].
    destruct (existsb _ _) eqn:E; [reflexivity|]. cbn [negb].
    now rewrite (scan_without_components _ E).
  - unfold Current.regenerateFilesFromComponents at 2.
    destruct (List.length _ =? 0)%nat eqn:E.
    + unfold Current.regenerateFilesFromComponents. now rewrite E.
    + unfold Current.regenerateFilesFromComponents, Current.writeAggregates,
        listing.
      cbn [components]. fold (listing fs). now rewrite E.
Qed.

(** X23. In both scripts the file of every icon generated in a run holds,
    when the loops end, the rendering of a source of the batch that has the
    identity of the icon: a later source of the same component name does
    not write over it. *)
Theorem generated_files_hold_renderings (env : Environment) (argvClean : bool)
  (sources : list Source) (d : Directory) :
  let current := Current.processAll env argvClean sources d in
  let earlier := fold_left (Earlier.processSource env) sources (initialState d) in
  (forall icon, In icon (newlyGeneratedIcons current) ->
     exists s content,
       In s sources /\ identity s = icon
       /\ processSvgSource env s = Some content
       /\ readFile (componentName icon ++ ".svelte") (dir current)
          = Some content)
  /\ (forall icon, In icon (newlyGeneratedIcons earlier) ->
        exists s content,
          In s sources /\ identity s = icon
          /\ processSvgSource env s = Some content
          /\ readFile (componentName icon ++ ".svelte") (dir earlier)
             = Some content).
Proof.
  cbn zeta. split.
  - unfold Current.processAll.
    assert (Ht : tallied (fold_left (Current.processSource env argvClean)
                            sources (initialState d))).
    { apply tallied_fold; [|apply tallied_initial].
      intros st s. apply tallied_processSource. }
    assert (Hr : rendered env sources
                   (fold_left (Current.processSource env argvClean) sources
                      (initialState d))).
    { apply rendered_fold.
      - intros st s. apply tallied_processSource.
      - intros st s. apply rendered_processSource.
      - apply incl_refl.
      - apply tallied_initial.
      - intros icon []. }
    set (st1 := fold_left _ sources _) in *.
    unfold Current.handleConflicts.
    destruct (0 <? _)%nat; [|exact Hr].
    destruct (overwriteAnswer env); [|exact Hr].
    apply rendered_fold; auto.
    + intros st s. apply tallied_overwriteConflict.
    + intros st s. apply rendered_overwriteConflict.
    + intros s Hs. apply conflicts_from in Hs. destruct Hs as [[]|Hs]. exact Hs.
  - apply rendered_fold.
    + intros st s. apply tallied_earlier.
    + intros st s. apply rendered_earlier.
    + apply incl_refl.
    + apply tallied_initial.
    + intros icon [].
Qed.
